(** * Knox: key model, rotation, storage, key manager, client retry, refresh daemon

    A shallow embedding of the Go sources of the Knox secret-management
    system, and the properties of its specification stated over it.

    Go data is modelled as the code has it: [int], [uint64] and [int64]
    values are integers in [Z], byte slices are lists of integers in
    [0, 256), slices are lists (indexed with [!!] and updated with
    [<[i:=x]>]), Go maps are [gmap]s, and [error] results are an explicit
    sum type.  A nil-pointer dereference is an explicit [Panic] outcome. *)

From Stdlib Require Import ZArith List String Ascii Lia Bool Permutation Sorted.
From stdpp Require Import base list gmap strings sorting.

Local Open Scope Z_scope.

(** ** Loops that stop at the first match

    [for i, x := range l { if p(x) { ... return } }] acts on the first
    element satisfying [p]; the two predicates below name the two ways such
    a loop ends. *)
Definition first_at {A : Type} (p : A → bool) (l : list A) (i : nat) (x : A) : Prop :=
  l !! i = Some x ∧ p x = true ∧ ∀ j y, (j < i)%nat → l !! j = Some y → p y = false.

Definition none_of {A : Type} (p : A → bool) (l : list A) : Prop :=
  ∀ x, x ∈ l → p x = false.

(** ** Go's [crypto/sha256] and [encoding/hex]

    [KeyVersionList.Hash] calls [sha256.Sum256] and [hex.EncodeToString].
    They are library code; the definitions below follow FIPS 180-4 and are
    checked against the standard test vectors. *)
Module Sha256.

Definition mask32 : Z := 0xffffffff.
Definition add32 (a b : Z) : Z := Z.land (a + b) mask32.
Definition rotr (n x : Z) : Z :=
  Z.land (Z.lor (Z.shiftr x n) (Z.shiftl x (32 - n))) mask32.
Definition shr (n x : Z) : Z := Z.shiftr x n.
Definition not32 (x : Z) : Z := Z.lxor x mask32.

Definition Ch (x y z : Z) : Z := Z.lxor (Z.land x y) (Z.land (not32 x) z).
Definition Maj (x y z : Z) : Z :=
  Z.lxor (Z.lxor (Z.land x y) (Z.land x z)) (Z.land y z).
Definition bsig0 (x : Z) : Z := Z.lxor (Z.lxor (rotr 2 x) (rotr 13 x)) (rotr 22 x).
Definition bsig1 (x : Z) : Z := Z.lxor (Z.lxor (rotr 6 x) (rotr 11 x)) (rotr 25 x).
Definition ssig0 (x : Z) : Z := Z.lxor (Z.lxor (rotr 7 x) (rotr 18 x)) (shr 3 x).
Definition ssig1 (x : Z) : Z := Z.lxor (Z.lxor (rotr 17 x) (rotr 19 x)) (shr 10 x).

(** The first 64 primes. *)
Definition is_prime (n : Z) : bool :=
  (1 <? n) && forallb (λ d, negb (n mod d =? 0)) (seqZ 2 (n - 2)).

Definition primes : list Z :=
  Eval vm_compute in List.filter is_prime (seqZ 2 310).

(** The integer cube root, bit by bit from the top. *)
Fixpoint cbrt_bits (bits : nat) (n r : Z) : Z :=
  match bits with
  | O => r
  | S b =>
      let r' := r + 2 ^ Z.of_nat b in
      cbrt_bits b n (if r' * r' * r' <=? n then r' else r)
  end.

(** The round constants: the first 32 bits of the fractional parts of the
    cube roots of the first 64 primes. *)
Definition K : list Z :=
  Eval vm_compute in map (λ p, Z.land (cbrt_bits 40 (Z.shiftl p 96) 0) mask32) primes.

(** The initial hash value: the first 32 bits of the fractional parts of
    the square roots of the first 8 primes. *)
Definition H0 : list Z :=
  Eval vm_compute in map (λ p, Z.land (Z.sqrt (Z.shiftl p 64)) mask32) (take 8 primes).

(** Big-endian encoding of [x] on [n] bytes. *)
Fixpoint be_bytes (n : nat) (x : Z) : list Z :=
  match n with
  | O => []
  | S n' => Z.land (Z.shiftr x (8 * Z.of_nat n')) 0xff :: be_bytes n' x
  end.

(** Message padding: a 1 bit, zeros up to 56 mod 64, the bit length on 8 bytes. *)
Definition pad (msg : list Z) : list Z :=
  let len := Z.of_nat (length msg) in
  let zeros := Z.to_nat ((55 - len) mod 64) in
  msg ++ 0x80 :: repeat 0 zeros ++ be_bytes 8 (8 * len).

(** Read big-endian 32-bit words off a byte list. *)
Fixpoint words (fuel : nat) (bs : list Z) : list Z :=
  match fuel, bs with
  | S f, b0 :: b1 :: b2 :: b3 :: rest =>
      (Z.shiftl b0 24 + Z.shiftl b1 16 + Z.shiftl b2 8 + b3) :: words f rest
  | _, _ => []
  end.

(** The message schedule, kept most recent word first. *)
Fixpoint schedule (n : nat) (w : list Z) : list Z :=
  match n with
  | O => w
  | S n' =>
      let w2 := nth 1 w 0 in
      let w7 := nth 6 w 0 in
      let w15 := nth 14 w 0 in
      let w16 := nth 15 w 0 in
      schedule n' (add32 (add32 (ssig1 w2) w7) (add32 (ssig0 w15) w16) :: w)
  end.

Record regs := Regs { ra : Z; rb : Z; rc : Z; rd : Z; re : Z; rf : Z; rg : Z; rh : Z }.

Definition round (r : regs) (kw : Z * Z) : regs :=
  let t1 := add32 (add32 (add32 (rh r) (bsig1 (re r))) (Ch (re r) (rf r) (rg r)))
                  (add32 (fst kw) (snd kw)) in
  let t2 := add32 (bsig0 (ra r)) (Maj (ra r) (rb r) (rc r)) in
  Regs (add32 t1 t2) (ra r) (rb r) (rc r) (add32 (rd r) t1) (re r) (rf r) (rg r).

Definition of_list (h : list Z) : regs :=
  Regs (nth 0 h 0) (nth 1 h 0) (nth 2 h 0) (nth 3 h 0)
       (nth 4 h 0) (nth 5 h 0) (nth 6 h 0) (nth 7 h 0).

Definition compress (h : list Z) (block : list Z) : list Z :=
  let w := rev (schedule 48 (rev (words 16 block))) in
  let r := fold_left round (combine K w) (of_list h) in
  [ add32 (nth 0 h 0) (ra r); add32 (nth 1 h 0) (rb r);
    add32 (nth 2 h 0) (rc r); add32 (nth 3 h 0) (rd r);
    add32 (nth 4 h 0) (re r); add32 (nth 5 h 0) (rf r);
    add32 (nth 6 h 0) (rg r); add32 (nth 7 h 0) (rh r) ].

Fixpoint blocks (fuel : nat) (h : list Z) (bs : list Z) : list Z :=
  match fuel with
  | O => h
  | S f =>
      match bs with
      | [] => h
      | _ => blocks f (compress h (firstn 64 bs)) (skipn 64 bs)
      end
  end.

(** [sha256.Sum256]: the 32-byte digest of a byte list. *)
Definition Sum256 (msg : list Z) : list Z :=
  let p := pad msg in
  flat_map (be_bytes 4) (blocks (length p) H0 p).

Definition hexdigit (d : Z) : ascii :=
  if d <? 10 then ascii_of_N (Z.to_N (48 + d)) else ascii_of_N (Z.to_N (87 + d)).

(** [hex.EncodeToString]: two lower-case digits per byte. *)
Fixpoint EncodeToString (bs : list Z) : string :=
  match bs with
  | [] => EmptyString
  | b :: rest =>
      String (hexdigit (Z.shiftr b 4)) (String (hexdigit (Z.land b 0xf)) (EncodeToString rest))
  end.

Definition bytes_of_string (s : string) : list Z :=
  map (fun c => Z.of_N (N_of_ascii c)) (list_ascii_of_string s).

End Sha256.

(** ** Go's [fmt], for a call without operands

    [fmt.Errorf(format)] and [fmt.Sprintf(format)] format the string they
    are given even when no operand follows: [doPrintf] copies the
    text up to a ['%'], reads the flags, an argument index [[n]], a width
    and a precision, and then the verb.  With no operand, ["%%"] gives
    ["%"], a verb gives ["%!v(MISSING)"] (["%!v(BADINDEX)"] after an
    argument index), a [*] gives ["%!(BADWIDTH)"] or ["%!(BADPREC)"], and
    a ['%'] that ends the string gives ["%!(NOVERB)"].  A string without
    ['%'] is copied as it is. *)
Module Fmt.

Definition byte_of (c : ascii) : N := N_of_ascii c.
Definition is_digit (c : ascii) : bool := ((48 <=? byte_of c) && (byte_of c <=? 57))%N.
Definition is_flag (c : ascii) : bool :=
  match c with
  | "#"%char | "0"%char | "+"%char | "-"%char | " "%char => true
  | _ => false
  end.

(** The loop over the flags. *)
Fixpoint skip_flags (s : list ascii) : list ascii :=
  match s with
  | c :: s' => if is_flag c then skip_flags s' else s
  | [] => []
  end.

(** [parsenum]: the digits at the head of [s]; [None] when the number
    read so far is [tooLarge] and a digit follows, else whether a digit
    was read, and what follows the digits. *)
Fixpoint parsenum (num : N) (isnum : bool) (s : list ascii) : option (bool * list ascii) :=
  match s with
  | c :: s' =>
      if is_digit c then
        if (1000000 <? num)%N then None
        else parsenum (num * 10 + (byte_of c - 48))%N true s'
      else Some (isnum, s)
  | [] => Some (isnum, [])
  end.

(** [parsenum(format, i, end)] for a width or a precision: on overflow the
    index jumps to the end of the format. *)
Definition parsenum_to_end (s : list ascii) : bool * list ascii :=
  match parsenum 0 false s with
  | Some r => r
  | None => (false, [])
  end.

(** The index of the first ["]"] of [s], counted from [i]. *)
Fixpoint closing_bracket (i : nat) (s : list ascii) : option nat :=
  match s with
  | [] => None
  | c :: s' => if Ascii.eqb c "]" then Some i else closing_bracket (S i) s'
  end.

(** [parseArgNumber(format)], [format] starting with ["["]: the number of
    bytes to skip, and whether a number stands between the brackets. *)
Definition parseArgNumber (format : list ascii) : nat * bool :=
  if (length format <? 3)%nat then (1%nat, false)
  else
    match closing_bracket 1 (drop 1 format) with
    | None => (1%nat, false)
    | Some i =>
        match parsenum 0 false (take (i - 1) (drop 1 format)) with
        | Some (true, []) => (S i, true)
        | _ => (S i, false)
        end
    end.

(** [argNumber] with no operand: what follows the index, whether an index
    was found, and whether an opening bracket was met (which clears
    [goodArgNum]: no index is in range). *)
Definition argNumber (s : list ascii) : list ascii * bool * bool :=
  match s with
  | "["%char :: _ =>
      let '(wid, ok) := parseArgNumber s in (drop wid s, ok, true)
  | _ => (s, false, false)
  end.

Definition in_range (lo hi : N) (c : ascii) : bool := ((lo <=? byte_of c) && (byte_of c <=? hi))%N.

(** [utf8.DecodeRuneInString] followed by [writeRune]: the bytes written
    for the verb and the number of bytes read.  An invalid encoding is
    read as one byte and written as U+FFFD. *)
Definition RuneError : list ascii :=
  [ascii_of_N 239; ascii_of_N 191; ascii_of_N 189].

Definition verb_rune (s : list ascii) : list ascii * nat :=
  match s with
  | [] => ([], 0%nat)
  | c0 :: s' =>
      let b0 := byte_of c0 in
      if (b0 <? 128)%N then ([c0], 1%nat)
      else
        let cont := in_range 128 191 in
        let two := in_range 194 223 c0 in
        let three := in_range 224 239 c0 in
        let four := in_range 240 244 c0 in
        let second :=
          if (b0 =? 224)%N then in_range 160 191
          else if (b0 =? 237)%N then in_range 128 159
          else if (b0 =? 240)%N then in_range 144 191
          else if (b0 =? 244)%N then in_range 128 143
          else cont in
        match s' with
        | c1 :: s'' =>
            if negb (second c1) then (RuneError, 1%nat)
            else if two then ([c0; c1], 2%nat)
            else
              match s'' with
              | c2 :: s''' =>
                  if negb (cont c2) then (RuneError, 1%nat)
                  else if three then ([c0; c1; c2], 3%nat)
                  else
                    match s''' with
                    | c3 :: _ =>
                        if four && cont c3 then ([c0; c1; c2; c3], 4%nat)
                        else (RuneError, 1%nat)
                    | [] => (RuneError, 1%nat)
                    end
              | [] => (RuneError, 1%nat)
              end
        | [] => (RuneError, 1%nat)
        end
  end.

(** One directive, [s] being what follows its ['%']: the text written and
    what is left of the format. *)
Definition directive (s : list ascii) : list ascii * list ascii :=
  let s := skip_flags s in
  let '(s, afterIndex, bracket) := argNumber s in
  let goodArgNum := negb bracket in
  (* width *)
  let '(out, s, afterIndex, goodArgNum) :=
    match s with
    | "*"%char :: s' => (list_ascii_of_string "%!(BADWIDTH)", s', false, goodArgNum)
    | _ =>
        let '(widPresent, s') := parsenum_to_end s in
        ([], s', afterIndex, goodArgNum && negb (afterIndex && widPresent))
    end in
  (* precision *)
  let '(out, s, afterIndex, goodArgNum) :=
    match s with
    | "."%char :: s' =>
        let goodArgNum := goodArgNum && negb afterIndex in
        let '(s', afterIndex, bracket) := argNumber s' in
        let goodArgNum := goodArgNum && negb bracket in
        match s' with
        | "*"%char :: s'' =>
            (out ++ list_ascii_of_string "%!(BADPREC)", s'', false, goodArgNum)
        | _ => (out, snd (parsenum_to_end s'), afterIndex, goodArgNum)
        end
    | _ => (out, s, afterIndex, goodArgNum)
    end in
  let '(s, goodArgNum) :=
    if afterIndex then (s, goodArgNum)
    else let '(s', _, bracket) := argNumber s in (s', goodArgNum && negb bracket) in
  match s with
  | [] => (out ++ list_ascii_of_string "%!(NOVERB)", [])
  | c :: _ =>
      let '(verb, size) := verb_rune s in
      let text :=
        if Ascii.eqb c "%" then ["%"%char]
        else if negb goodArgNum then
          list_ascii_of_string "%!" ++ verb ++ list_ascii_of_string "(BADINDEX)"
        else list_ascii_of_string "%!" ++ verb ++ list_ascii_of_string "(MISSING)" in
      (out ++ text, drop size s)
  end.

(** The loop of [doPrintf]; every round reads a byte at least. *)
Fixpoint doPrintf (fuel : nat) (format : list ascii) : list ascii :=
  match fuel, format with
  | S fuel, c :: rest =>
      if Ascii.eqb c "%" then
        let '(out, rest') := directive rest in out ++ doPrintf fuel rest'
      else c :: doPrintf fuel rest
  | _, _ => []
  end.

(** [fmt.Sprintf(format)]: also the text of the error [fmt.Errorf(format)]. *)
Definition Sprintf (format : string) : string :=
  string_of_list_ascii
    (doPrintf (length (list_ascii_of_string format)) (list_ascii_of_string format)).

End Fmt.

(** ** Package [knox]: the domain model *)
Module Knox.

(** Go's [error] values used by the program.  [Errorf msg] is an error made
    by [fmt.Errorf], [msg] being its text, the format with its operands put
    in; [LibError] is an error raised by library code ([crypto/aes],
    [crypto/rand], the transport, the file system). *)
Inductive error : Type :=
| ErrACLDuplicateEntries
| ErrACLContainsNone
| ErrInvalidKeyID
| ErrInvalidVersionHash
| ErrInactiveToPrimary
| ErrPrimaryToActive
| ErrPrimaryToInactive
| ErrMulitplePrimary
| ErrSameVersionID
| ErrInvalidStatus
| ErrKeyVersionNotFound
| ErrKeyIDNotFound
| ErrKeyExists
| ErrDBVersion
| ErrCryptorVersion
| LibError (msg : string)
| Errorf (msg : string).

(** [err.Error()]. *)
Definition Error (e : error) : string :=
  match e with
  | ErrACLDuplicateEntries => "Duplicate entries in ACL"
  | ErrACLContainsNone => "ACL contains None access"
  | ErrInvalidKeyID => "KeyID can only contain alphanumeric characters, colons, and underscores."
  | ErrInvalidVersionHash => "Hash does not match"
  | ErrInactiveToPrimary => "Version must be Active to promote to Primary"
  | ErrPrimaryToActive => "Primary Key can not be demoted. Specify Active key to promote."
  | ErrPrimaryToInactive => "Version must be Active to demote to Inactive"
  | ErrMulitplePrimary => "More than one Primary key"
  | ErrSameVersionID => "Repeated Version ID"
  | ErrInvalidStatus => "Invalid Status"
  | ErrKeyVersionNotFound => "Key version not found"
  | ErrKeyIDNotFound => "KeyID not found"
  | ErrKeyExists => "Key Exists"
  | ErrDBVersion => "DB version does not match"
  | ErrCryptorVersion => "Cryptor version does not match"
  | LibError msg => msg
  | Errorf msg => msg
  end%string.

(** A Go call returning [(T, error)]; [Panic] is a run-time panic such as a
    nil-pointer dereference. *)
Inductive result (A : Type) : Type :=
| Ok (a : A)
| Err (e : error)
| Panic (why : string).
Arguments Ok {A} a.
Arguments Err {A} e.
Arguments Panic {A} why.

(** [type VersionStatus int], with [Primary = iota]. *)
Definition VersionStatus := Z.
Definition Primary : VersionStatus := 0.
Definition Active : VersionStatus := 1.
Definition Inactive : VersionStatus := 2.

(** [type PrincipalType int]: [Unknown = -1], and [User = iota] on the
    second line of the block, hence 1. *)
Definition PrincipalType := Z.
Definition Unknown : PrincipalType := -1.
Definition User : PrincipalType := 1.
Definition UserGroup : PrincipalType := 2.
Definition Machine : PrincipalType := 3.
Definition MachinePrefix : PrincipalType := 4.
Definition Service : PrincipalType := 5.

(** [type AccessType int], with [None = iota]. *)
Definition AccessType := Z.
Definition None_ : AccessType := 0.
Definition Read : AccessType := 1.
Definition Write : AccessType := 2.
Definition Admin : AccessType := 3.

Definition CanAccess (s resource : AccessType) : bool := resource <=? s.

Record Access : Type := mkAccess {
  a_Type : PrincipalType;
  a_ID : string;
  a_AccessType : AccessType
}.

Abbreviation ACL := (list Access).

(** The test [b.Type == a.Type && a.ID == b.ID] of [ACL.Add]. *)
Definition same_principal (b a : Access) : bool :=
  (a_Type b =? a_Type a) && String.eqb (a_ID a) (a_ID b).

(** The inner loop of [ACL.Validate]: some [j <> i] holds the same id and type. *)
Fixpoint has_duplicate (i : nat) (a : Access) (j : nat) (rest : list Access) : bool :=
  match rest with
  | [] => false
  | b :: rest' =>
      if negb (Nat.eqb i j) && String.eqb (a_ID a) (a_ID b) && (a_Type a =? a_Type b)
      then true
      else has_duplicate i a (S j) rest'
  end.

Fixpoint ACL_Validate_range (acl : ACL) (i : nat) (rest : list Access) : option error :=
  match rest with
  | [] => None
  | a :: rest' =>
      if a_AccessType a =? None_ then Some ErrACLContainsNone
      else if has_duplicate i a 0 acl then Some ErrACLDuplicateEntries
      else ACL_Validate_range acl (S i) rest'
  end.

(** [ACL.Validate]. *)
Definition ACL_Validate (acl : ACL) : option error := ACL_Validate_range acl 0 acl.

(** The loop of [ACL.Add] at index [i], [rest] being [acl[i:]]. *)
Fixpoint Add_range (acl : ACL) (a : Access) (i : nat) (rest : list Access) : ACL :=
  match rest with
  | [] => if a_AccessType a =? None_ then acl else acl ++ [a]
  | b :: rest' =>
      if same_principal b a then
        if a_AccessType a =? None_ then take i acl ++ drop (S i) acl
        else <[i := a]> acl
      else Add_range acl a (S i) rest'
  end.

(** [ACL.Add]. *)
Definition Add (acl : ACL) (a : Access) : ACL := Add_range acl a 0 acl.

(** The principal an entry is about, and an ACL with one entry at most for
    each principal (what [ACL.Validate] checks in its inner loop). *)
Definition principal (a : Access) : PrincipalType * string := (a_Type a, a_ID a).
Definition unique_principals (acl : ACL) : Prop := NoDup (principal <$> acl).

Record KeyVersion : Type := mkKeyVersion {
  kv_ID : Z;
  kv_Data : list Z;
  kv_Status : VersionStatus;
  kv_CreationTime : Z
}.

Abbreviation KeyVersionList := (list KeyVersion).

Definition set_Status (s : VersionStatus) (v : KeyVersion) : KeyVersion :=
  mkKeyVersion (kv_ID v) (kv_Data v) s (kv_CreationTime v).

(** [KeyVersionList.Less] on the two elements compared. *)
Definition Less (a b : KeyVersion) : bool :=
  if kv_Status a =? kv_Status b then kv_ID a <? kv_ID b
  else kv_Status a <? kv_Status b.

Record Key : Type := mkKey {
  k_ID : string;
  k_ACL : ACL;
  k_VersionList : KeyVersionList;
  k_VersionHash : string;
  k_Path : string
}.

(** [KeyVersionList.GetActive]. *)
Fixpoint GetActive (kvl : KeyVersionList) : KeyVersionList :=
  match kvl with
  | [] => []
  | k :: rest =>
      if (kv_Status k =? Active) || (kv_Status k =? Primary)
      then k :: GetActive rest
      else GetActive rest
  end.

(** [KeyVersionList.GetPrimary]; [None] is the nil pointer. *)
Fixpoint GetPrimary (kvl : KeyVersionList) : option KeyVersion :=
  match kvl with
  | [] => None
  | k :: rest => if kv_Status k =? Primary then Some k else GetPrimary rest
  end.

(** The tests of [GetPrimary] and [GetActive]. *)
Definition is_Primary (v : KeyVersion) : bool := kv_Status v =? Primary.
Definition is_live (v : KeyVersion) : bool :=
  (kv_Status v =? Active) || (kv_Status v =? Primary).

(** The loop of [KeyVersionList.Validate]. *)
Fixpoint KVL_Validate_range (primaryCount : Z) (versionToData : gmap Z (list Z))
    (rest : list KeyVersion) : option error :=
  match rest with
  | [] => if negb (primaryCount =? 1) then Some ErrMulitplePrimary else None
  | kv :: rest' =>
      let primaryCount := if kv_Status kv =? Primary then primaryCount + 1 else primaryCount in
      match versionToData !! kv_ID kv with
      | Some _ => Some ErrSameVersionID
      | None => KVL_Validate_range primaryCount (<[kv_ID kv := kv_Data kv]> versionToData) rest'
      end
  end.

(** [KeyVersionList.Validate]. *)
Definition KVL_Validate (kvl : KeyVersionList) : option error :=
  KVL_Validate_range 0 ∅ kvl.

(** [sort.Sort(kvl)], as the insertion sort Go runs on short slices.  Its
    inner loop moves the new element left while it is [Less] than its left
    neighbour; on a sorted prefix that is insertion before the first
    element it is [Less] than.  On longer slices Go sorts otherwise, to a
    sorted permutation all the same, and the bytes [Hash] writes do not
    depend on which one (lemma [Hash_buf_any_sort]). *)
Fixpoint insert (v : KeyVersion) (sorted : list KeyVersion) : list KeyVersion :=
  match sorted with
  | [] => [v]
  | h :: t => if Less v h then v :: h :: t else h :: insert v t
  end.

Definition Sort (kvl : KeyVersionList) : KeyVersionList :=
  fold_left (fun acc v => insert v acc) kvl [].

(** [binary.LittleEndian.PutUint64(buf[offset:], id)]. *)
Fixpoint le_bytes (n : nat) (x : Z) : list Z :=
  match n with
  | O => []
  | S n' => Z.land x 0xff :: le_bytes n' (Z.shiftr x 8)
  end.

Definition PutUint64 (buf : list Z) (offset : nat) (id : Z) : list Z :=
  take offset buf ++ le_bytes 8 id ++ drop (offset + 8) buf.

(** The loop of [KeyVersionList.Hash] over the sorted list: the state is
    the buffer and the write offset. *)
Definition Hash_step (st : list Z * nat) (kv : KeyVersion) : list Z * nat :=
  if negb (kv_Status kv =? Inactive)
  then (PutUint64 (fst st) (snd st) (kv_ID kv), (snd st + 8)%nat)
  else st.

Definition Hash_buf (kvl : KeyVersionList) : list Z :=
  let sizeInt64 := 8%nat in
  let buf := repeat 0 (sizeInt64 * length kvl) in
  fst (fold_left Hash_step (Sort kvl) (buf, 0%nat)).

(** [KeyVersionList.Hash].  The receiver is also sorted in place: after the
    call the caller's slice holds [Sort kvl]. *)
Definition Hash (kvl : KeyVersionList) : string :=
  Sha256.EncodeToString (Sha256.Sum256 (Hash_buf kvl)).

(** The sort key of [Less] (the status, then the id) and its order. *)
Definition key (v : KeyVersion) : Z * Z := (kv_Status v, kv_ID v).
Definition key_le (a b : Z * Z) : Prop := a.1 < b.1 ∨ (a.1 = b.1 ∧ a.2 ≤ b.2).
Definition ver_le (a b : KeyVersion) : Prop := key_le (key a) (key b).

(** The versions in use (Primary or Active, not Inactive) and their keys. *)
Definition in_use (v : KeyVersion) : bool := negb (kv_Status v =? Inactive).
Definition used_keys (l : KeyVersionList) : list (Z * Z) := map key (List.filter in_use l).

(** The ids of a list of keys, 8 little-endian bytes each. *)
Definition id_bytes (ks : list (Z * Z)) : list Z := flat_map (λ k, le_bytes 8 k.2) ks.

(** The case analysis of [KeyVersionList.Update] once [kvl[i].ID == versionID];
    [v] is the copy of [kvl[i]] taken by [range]. *)
Definition demote (v2 : KeyVersion) : KeyVersion :=
  if kv_Status v2 =? Primary then set_Status Active v2 else v2.

Definition Update_at (kvl : KeyVersionList) (i : nat) (v : KeyVersion) (s : VersionStatus)
    : result KeyVersionList :=
  if s =? Primary then
    if negb (kv_Status v =? Active) then Err ErrInactiveToPrimary
    else Ok (alter (set_Status Primary) i (map demote kvl))
  else if s =? Active then
    if negb (kv_Status v =? Inactive) then Err ErrPrimaryToActive
    else Ok (alter (set_Status Active) i kvl)
  else if s =? Inactive then
    if negb (kv_Status v =? Active) then Err ErrPrimaryToInactive
    else Ok (alter (set_Status Inactive) i kvl)
  else Ok kvl.

Fixpoint Update_range (kvl : KeyVersionList) (versionID : Z) (s : VersionStatus)
    (i : nat) (rest : list KeyVersion) : result KeyVersionList :=
  match rest with
  | [] => Err ErrKeyVersionNotFound
  | v :: rest' =>
      if kv_ID v =? versionID then Update_at kvl i v s
      else Update_range kvl versionID s (S i) rest'
  end.

(** [KeyVersionList.Update]. *)
Definition Update (kvl : KeyVersionList) (versionID : Z) (s : VersionStatus)
    : result KeyVersionList :=
  Update_range kvl versionID s 0 kvl.

(** The regular expression [^[a-zA-Z0-9_:]+$] of [Key.Validate]. *)
Definition key_id_char (c : ascii) : bool :=
  let n := N_of_ascii c in
  ((97 <=? n) && (n <=? 122) || (65 <=? n) && (n <=? 90) || (48 <=? n) && (n <=? 57)
   || (n =? 95) || (n =? 58))%N.

Definition MatchKeyID (id : string) : bool :=
  match list_ascii_of_string id with
  | [] => false
  | cs => forallb key_id_char cs
  end.

Definition set_Path (path : string) (k : Key) : Key :=
  mkKey (k_ID k) (k_ACL k) (k_VersionList k) (k_VersionHash k) path.

(** [Key.Validate]. *)
Definition Key_Validate (k : Key) : option error :=
  if negb (MatchKeyID (k_ID k)) then Some ErrInvalidKeyID
  else match ACL_Validate (k_ACL k) with
       | Some aclErr => Some aclErr
       | None =>
           match KVL_Validate (k_VersionList k) with
           | Some vlistErr => Some vlistErr
           | None =>
               if negb (String.eqb (k_VersionHash k) (Hash (k_VersionList k)))
               then Some ErrInvalidVersionHash
               else None
           end
       end.

(** The error codes of server responses. *)
Definition OKCode : Z := 0.
Definition InternalServerErrorCode : Z := 1.
Definition KeyIdentifierExistsCode : Z := 2.
Definition KeyVersionDoesNotExistCode : Z := 3.
Definition KeyIdentifierDoesNotExistCode : Z := 4.
Definition UnauthenticatedCode : Z := 5.
Definition UnauthorizedCode : Z := 6.
Definition NotYetImplementedCode : Z := 7.
Definition NotFoundCode : Z := 8.
Definition NoKeyIDCode : Z := 9.
Definition NoKeyDataCode : Z := 10.
Definition BadRequestDataCode : Z := 11.
Definition BadKeyFormatCode : Z := 12.

(** [invalidTypeError{badType}], the error of the JSON conversions: a value
    of its own, equal to none of the errors above, whose [Error()] is the
    text below. *)
Definition invalidTypeError (badType : string) : error :=
  Errorf ("json: Invalid " ++ badType ++ " to convert").

(** [json.Marshal] of one of the names of the three enumerations (letters
    only, nothing to escape): the name between double quotes. *)
Definition json_quote : string := String (ascii_of_nat 34) EmptyString.
Definition json_Marshal (name : string) : string := json_quote ++ name ++ json_quote.

(** [VersionStatus.UnmarshalJSON], returning the status it stores. *)
Definition VersionStatus_UnmarshalJSON (b : string) : result VersionStatus :=
  if String.eqb b (json_Marshal "Primary") then Ok Primary
  else if String.eqb b (json_Marshal "Active") then Ok Active
  else if String.eqb b (json_Marshal "Inactive") then Ok Inactive
  else Err (invalidTypeError "VersionStatus").

(** [VersionStatus.MarshalJSON]. *)
Definition VersionStatus_MarshalJSON (s : VersionStatus) : result string :=
  if s =? Primary then Ok (json_Marshal "Primary")
  else if s =? Active then Ok (json_Marshal "Active")
  else if s =? Inactive then Ok (json_Marshal "Inactive")
  else Err (invalidTypeError "VersionStatus").

(** [PrincipalType.UnmarshalJSON]: never an error, [Unknown] for a name it
    does not know. *)
Definition PrincipalType_UnmarshalJSON (b : string) : PrincipalType :=
  if String.eqb b (json_Marshal "User") then User
  else if String.eqb b (json_Marshal "UserGroup") then UserGroup
  else if String.eqb b (json_Marshal "Machine") then Machine
  else if String.eqb b (json_Marshal "MachinePrefix") then MachinePrefix
  else if String.eqb b (json_Marshal "Service") then Service
  else Unknown.

(** [PrincipalType.MarshalJSON]. *)
Definition PrincipalType_MarshalJSON (s : PrincipalType) : result string :=
  if s =? User then Ok (json_Marshal "User")
  else if s =? UserGroup then Ok (json_Marshal "UserGroup")
  else if s =? Machine then Ok (json_Marshal "Machine")
  else if s =? MachinePrefix then Ok (json_Marshal "MachinePrefix")
  else if s =? Service then Ok (json_Marshal "Service")
  else if s =? Unknown then Err (invalidTypeError "PrincipalType")
  else Err (invalidTypeError "PrincipalType").

(** [AccessType.UnmarshalJSON]. *)
Definition AccessType_UnmarshalJSON (b : string) : result AccessType :=
  if String.eqb b (json_Marshal "Read") then Ok Read
  else if String.eqb b (json_Marshal "Write") then Ok Write
  else if String.eqb b (json_Marshal "Admin") then Ok Admin
  else if String.eqb b (json_Marshal "None") then Ok None_
  else Err (invalidTypeError "AccessType").

(** [AccessType.MarshalJSON]. *)
Definition AccessType_MarshalJSON (s : AccessType) : result string :=
  if s =? Read then Ok (json_Marshal "Read")
  else if s =? Write then Ok (json_Marshal "Write")
  else if s =? Admin then Ok (json_Marshal "Admin")
  else if s =? None_ then Ok (json_Marshal "None")
  else Err (invalidTypeError "AccessType").

(** The ids and the number of Primary versions of a list, which
    [KeyVersionList.Validate] checks. *)
Definition version_ids (kvl : KeyVersionList) : list Z := kv_ID <$> kvl.
Definition primaries (kvl : KeyVersionList) : list KeyVersion := List.filter is_Primary kvl.

End Knox.

Import Knox.

(** ** Go's [crypto/aes], [crypto/cipher] and [crypto/rand]

    The cryptor calls [aes.NewCipher], [cipher.NewGCM], [gcm.NonceSize],
    [gcm.Seal], [gcm.Open] and [rand.Read].  They are library code and are
    taken as an interface; [CryptoLaws] is the contract of the AEAD (opening
    what was sealed under the same nonce and associated data gives the
    plaintext back) and of [rand.Read] (a successful read fills the slice).
    The module [AESGCM] further down implements the interface. *)
Class Crypto : Type := {
  block : Type;
  aead : Type;
  entropy : Type;
  NewCipher : list Z → result block;
  NewGCM : block → result aead;
  NonceSize : aead → nat;
  Seal : aead → list Z → list Z → list Z → list Z;
  Open : aead → list Z → list Z → list Z → result (list Z);
  RandRead : entropy → nat → result (list Z) * entropy
}.

Class CryptoLaws (C : Crypto) : Prop := {
  Open_Seal : ∀ (g : aead) (nonce plaintext ad : list Z),
    length nonce = NonceSize g →
    Open g nonce (Seal g nonce plaintext ad) ad = Ok plaintext;
  RandRead_length : ∀ (e e' : entropy) (n : nat) (bs : list Z),
    RandRead e n = (Ok bs, e') → length bs = n
}.

(** ** Package [keydb]: storage form, cryptor and the in-memory DB *)
Module Keydb.

Record EncKeyVersion : Type := mkEncKeyVersion {
  ekv_ID : Z;
  ekv_EncData : list Z;
  ekv_Status : VersionStatus;
  ekv_CreationTime : Z;
  ekv_CryptoMetadata : list Z
}.

Record DBKey : Type := mkDBKey {
  dbk_ID : string;
  dbk_ACL : ACL;
  dbk_VersionList : list EncKeyVersion;
  dbk_VersionHash : string;
  dbk_DBVersion : Z
}.

(** [DBKey.Copy]: fresh slices with the same elements. *)
Definition Copy (k : DBKey) : DBKey :=
  mkDBKey (dbk_ID k) (dbk_ACL k) (dbk_VersionList k) (dbk_VersionHash k) (dbk_DBVersion k).

Definition set_DBVersion (t : Z) (k : DBKey) : DBKey :=
  mkDBKey (dbk_ID k) (dbk_ACL k) (dbk_VersionList k) (dbk_VersionHash k) t.

(** [TempDB]: the stored keys and the error injected by [SetError]. *)
Record TempDB : Type := mkTempDB {
  keys : list DBKey;
  err : option error
}.

Definition SetError (db : TempDB) (e : option error) : TempDB := mkTempDB (keys db) e.

Fixpoint TempDB_Get_range (id : string) (rest : list DBKey) : result DBKey :=
  match rest with
  | [] => Err ErrKeyIDNotFound
  | k :: rest' => if String.eqb (dbk_ID k) id then Ok k else TempDB_Get_range id rest'
  end.

(** [TempDB.Get]. *)
Definition TempDB_Get (db : TempDB) (id : string) : result DBKey :=
  match err db with
  | Some e => Err e
  | None => TempDB_Get_range id (keys db)
  end.

(** The loop of [TempDB.Update] at index [i]; [now] is the value of
    [time.Now().UnixNano()] read at the write. *)
Fixpoint TempDB_Update_range (db : TempDB) (key : DBKey) (now : Z) (i : nat) (rest : list DBKey)
    : result unit * TempDB :=
  match rest with
  | [] => (Err ErrKeyIDNotFound, db)
  | dbk :: rest' =>
      if String.eqb (dbk_ID dbk) (dbk_ID key) then
        if negb (dbk_DBVersion dbk =? dbk_DBVersion key) then (Err ErrDBVersion, db)
        else
          let k := set_DBVersion now (Copy key) in
          (Ok tt, mkTempDB (<[i := k]> (keys db)) (err db))
      else TempDB_Update_range db key now (S i) rest'
  end.

(** [TempDB.Update]. *)
Definition TempDB_Update (db : TempDB) (key : DBKey) (now : Z) : result unit * TempDB :=
  match err db with
  | Some e => (Err e, db)
  | None => TempDB_Update_range db key now 0 (keys db)
  end.

(** [aesGCMCryptor]. *)
Record aesGCMCryptor : Type := mkCryptor {
  keyData : list Z;
  version : Z
}.

(** [binary.PutUvarint] into a zeroed buffer of [binary.MaxVarintLen64]
    bytes; the whole buffer is used. *)
Fixpoint uvarint (fuel : nat) (x : Z) : list Z :=
  match fuel with
  | O => []
  | S f => if x <? 0x80 then [x] else Z.lor (Z.land x 0x7f) 0x80 :: uvarint f (Z.shiftr x 7)
  end.

Definition MaxVarintLen64 : nat := 10.

Definition PutUvarint (x : Z) : list Z :=
  let enc := uvarint MaxVarintLen64 x in
  enc ++ repeat 0 (MaxVarintLen64 - length enc).

(** [binary.PutVarint]: zig-zag, then [PutUvarint]. *)
Definition PutVarint (x : Z) : list Z :=
  PutUvarint (if x <? 0 then -2 * x - 1 else 2 * x).

Definition string_bytes (s : string) : list Z := Sha256.bytes_of_string s.

(** [generateAD]: versionid | creationtime | keyid. *)
Definition generateAD (kid : string) (vid : Z) (creation : Z) : list Z :=
  PutUvarint vid ++ PutVarint creation ++ string_bytes kid.

(** [buildMetadata]. *)
Definition buildMetadata (version : Z) (nonce : list Z) : list Z := version :: nonce.

Section Cryptor.
Context {C : Crypto}.

(** [aesGCMCryptor.EncryptVersion]; the entropy source is threaded through. *)
Definition EncryptVersion (c : aesGCMCryptor) (k : Key) (v : KeyVersion) (e : entropy)
    : result EncKeyVersion * entropy :=
  match NewCipher (keyData c) with
  | Err x => (Err x, e)
  | Panic w => (Panic w, e)
  | Ok b =>
      match NewGCM b with
      | Err x => (Err x, e)
      | Panic w => (Panic w, e)
      | Ok gcm =>
          match RandRead e (NonceSize gcm) with
          | (Err x, e') => (Err x, e')
          | (Panic w, e') => (Panic w, e')
          | (Ok nonce, e') =>
              let ciphertext :=
                Seal gcm nonce (kv_Data v) (generateAD (k_ID k) (kv_ID v) (kv_CreationTime v)) in
              (Ok (mkEncKeyVersion (kv_ID v) ciphertext (kv_Status v) (kv_CreationTime v)
                     (buildMetadata (version c) nonce)), e')
          end
      end
  end.

(** [aesGCMCryptor.decryptVersion]; [md.Version()] indexes the metadata. *)
Definition decryptVersion (c : aesGCMCryptor) (k : DBKey) (v : EncKeyVersion)
    : result KeyVersion :=
  match ekv_CryptoMetadata v with
  | [] => Panic "index out of range"
  | md_Version :: md_Nonce =>
      if negb (md_Version =? version c) then Err ErrCryptorVersion
      else
        match NewCipher (keyData c) with
        | Err x => Err x
        | Panic w => Panic w
        | Ok b =>
            match NewGCM b with
            | Err x => Err x
            | Panic w => Panic w
            | Ok gcm =>
                match Open gcm md_Nonce (ekv_EncData v)
                        (generateAD (dbk_ID k) (ekv_ID v) (ekv_CreationTime v)) with
                | Err x => Err x
                | Panic w => Panic w
                | Ok plaintext =>
                    Ok (mkKeyVersion (ekv_ID v) plaintext (ekv_Status v) (ekv_CreationTime v))
                end
            end
        end
  end.

Fixpoint Encrypt_range (c : aesGCMCryptor) (k : Key) (rest : list KeyVersion) (e : entropy)
    : result (list EncKeyVersion) * entropy :=
  match rest with
  | [] => (Ok [], e)
  | v :: rest' =>
      match EncryptVersion c k v e with
      | (Err x, e') => (Err x, e')
      | (Panic w, e') => (Panic w, e')
      | (Ok dbv, e') =>
          match Encrypt_range c k rest' e' with
          | (Ok dbVersions, e'') => (Ok (dbv :: dbVersions), e'')
          | other => other
          end
      end
  end.

(** [aesGCMCryptor.Encrypt]. *)
Definition Encrypt (c : aesGCMCryptor) (k : Key) (e : entropy) : result DBKey * entropy :=
  match Encrypt_range c k (k_VersionList k) e with
  | (Ok dbVersions, e') => (Ok (mkDBKey (k_ID k) (k_ACL k) dbVersions (k_VersionHash k) 0), e')
  | (Err x, e') => (Err x, e')
  | (Panic w, e') => (Panic w, e')
  end.

Fixpoint Decrypt_range (c : aesGCMCryptor) (k : DBKey) (rest : list EncKeyVersion)
    : result (list KeyVersion) :=
  match rest with
  | [] => Ok []
  | v :: rest' =>
      match decryptVersion c k v with
      | Err x => Err x
      | Panic w => Panic w
      | Ok dbv =>
          match Decrypt_range c k rest' with
          | Ok versions => Ok (dbv :: versions)
          | other => other
          end
      end
  end.

(** [aesGCMCryptor.Decrypt]. *)
Definition Decrypt (c : aesGCMCryptor) (k : DBKey) : result Key :=
  match Decrypt_range c k (dbk_VersionList k) with
  | Ok versions => Ok (mkKey (dbk_ID k) (dbk_ACL k) versions (dbk_VersionHash k) "")
  | Err x => Err x
  | Panic w => Panic w
  end.

(** [n] successive reads of a nonce succeed from the entropy source [e]. *)
Fixpoint reads_ok (gcm : aead) (n : nat) (e : entropy) : Prop :=
  match n with
  | O => True
  | S n' => ∃ nonce e', RandRead e (NonceSize gcm) = (Ok nonce, e') ∧ reads_ok gcm n' e'
  end.

End Cryptor.
(** [TempDB.GetAll]: the stored slice itself. *)
Definition TempDB_GetAll (db : TempDB) : result (list DBKey) :=
  match err db with
  | Some e => Err e
  | None => Ok (keys db)
  end.

(** The inner loop of [TempDB.Add]: a stored key has the id. *)
Fixpoint id_stored (id : string) (stored : list DBKey) : bool :=
  match stored with
  | [] => false
  | oldK :: rest => if String.eqb (dbk_ID oldK) id then true else id_stored id rest
  end.

(** The first loop of [TempDB.Add]: one of the keys to add is stored already. *)
Fixpoint TempDB_Add_exists (stored : list DBKey) (ks : list DBKey) : bool :=
  match ks with
  | [] => false
  | key :: rest => if id_stored (dbk_ID key) stored then true else TempDB_Add_exists stored rest
  end.

(** The second loop of [TempDB.Add]: each key is copied, stamped with the
    clock and appended; [now i] is the value of [time.Now().UnixNano()]
    read for [keys[i]]. *)
Fixpoint TempDB_Add_append (stored : list DBKey) (ks : list DBKey) (now : nat → Z) (i : nat)
    : list DBKey :=
  match ks with
  | [] => stored
  | key :: rest =>
      let k := set_DBVersion (now i) (Copy key) in
      TempDB_Add_append (stored ++ [k]) rest now (S i)
  end.

(** [TempDB.Add]. *)
Definition TempDB_Add (db : TempDB) (ks : list DBKey) (now : nat → Z) : result unit * TempDB :=
  match err db with
  | Some e => (Err e, db)
  | None =>
      if TempDB_Add_exists (keys db) ks then (Err ErrKeyExists, db)
      else (Ok tt, mkTempDB (TempDB_Add_append (keys db) ks now 0) (err db))
  end.

(** The loop of [TempDB.Remove] at index [i]. *)
Fixpoint TempDB_Remove_range (db : TempDB) (id : string) (i : nat) (rest : list DBKey)
    : result unit * TempDB :=
  match rest with
  | [] => (Err ErrKeyIDNotFound, db)
  | k :: rest' =>
      if String.eqb (dbk_ID k) id
      then (Ok tt, mkTempDB (take i (keys db) ++ drop (S i) (keys db)) (err db))
      else TempDB_Remove_range db id (S i) rest'
  end.

(** [TempDB.Remove]. *)
Definition TempDB_Remove (db : TempDB) (id : string) : result unit * TempDB :=
  match err db with
  | Some e => (Err e, db)
  | None => TempDB_Remove_range db id 0 (keys db)
  end.

(** The ids of the stored keys, in order. *)
Definition stored_ids (db : TempDB) : list string := dbk_ID <$> keys db.

End Keydb.

Import Keydb.

(** ** Package [auth]: principals and what an ACL grants them *)
Module Auth.

(** [stringSet], [setFromList] and [memberOf]. *)
Definition stringSet : Type := gset string.

Definition setFromList (groups : list string) : stringSet :=
  fold_left (λ (t : stringSet) g, {[ g ]} ∪ t) groups ∅.

Definition memberOf (s : stringSet) (e : string) : bool := bool_decide (e ∈ s).

(** The dynamic types behind a [knox.Principal]: [user], [machine] and
    [service]. *)
Inductive Principal : Type :=
| user (ID : string) (groups : stringSet)
| machine (m : string)
| service (domain id : string).

Definition NewUser (id : string) (groups : list string) : Principal :=
  user id (setFromList groups).
Definition NewMachine (id : string) : Principal := machine id.
Definition NewService (domain path : string) : Principal := service domain path.

(** [IsUser] and [IsService]: the type assertions. *)
Definition IsUser (p : Principal) : bool :=
  match p with user _ _ => true | _ => false end.
Definition IsService (p : Principal) : bool :=
  match p with service _ _ => true | _ => false end.

(** [GetID]. *)
Definition GetID (p : Principal) : string :=
  match p with
  | user ID _ => ID
  | machine m => m
  | service domain id => "spiffe://" ++ domain ++ "/" ++ id
  end.

(** [strings.HasPrefix]. *)
Fixpoint HasPrefix (s prefix : string) : bool :=
  match prefix, s with
  | EmptyString, _ => true
  | String c prefix', String d s' => if Ascii.eqb c d then HasPrefix s' prefix' else false
  | String _ _, EmptyString => false
  end.

(** [user.CanAccess]. *)
Fixpoint user_CanAccess (ID : string) (groups : stringSet) (acl : ACL) (t : AccessType) : bool :=
  match acl with
  | [] => false
  | a :: rest =>
      if a_Type a =? User then
        if String.eqb (a_ID a) ID && CanAccess (a_AccessType a) t then true
        else user_CanAccess ID groups rest t
      else if a_Type a =? UserGroup then
        if memberOf groups (a_ID a) && CanAccess (a_AccessType a) t then true
        else user_CanAccess ID groups rest t
      else user_CanAccess ID groups rest t
  end.

(** [machine.CanAccess]. *)
Fixpoint machine_CanAccess (m : string) (acl : ACL) (t : AccessType) : bool :=
  match acl with
  | [] => false
  | a :: rest =>
      if a_Type a =? Machine then
        if String.eqb (a_ID a) m && CanAccess (a_AccessType a) t then true
        else machine_CanAccess m rest t
      else if a_Type a =? MachinePrefix then
        if HasPrefix m (a_ID a) && CanAccess (a_AccessType a) t then true
        else machine_CanAccess m rest t
      else machine_CanAccess m rest t
  end.

(** [service.CanAccess]. *)
Fixpoint service_CanAccess (domain id : string) (acl : ACL) (t : AccessType) : bool :=
  match acl with
  | [] => false
  | a :: rest =>
      if a_Type a =? Service then
        if String.eqb (a_ID a) (GetID (service domain id)) && CanAccess (a_AccessType a) t
        then true
        else service_CanAccess domain id rest t
      else service_CanAccess domain id rest t
  end.

(** [principal.CanAccess(acl, t)] through the interface. *)
Definition Principal_CanAccess (p : Principal) (acl : ACL) (t : AccessType) : bool :=
  match p with
  | user ID groups => user_CanAccess ID groups acl t
  | machine m => machine_CanAccess m acl t
  | service domain id => service_CanAccess domain id acl t
  end.

(** Whether one entry lets the principal in at level [t]: the test the
    three loops make on each entry. *)
Definition grants (p : Principal) (t : AccessType) (a : Access) : bool :=
  match p with
  | user ID groups =>
      ((a_Type a =? User) && String.eqb (a_ID a) ID
       || (a_Type a =? UserGroup) && memberOf groups (a_ID a))
      && CanAccess (a_AccessType a) t
  | machine m =>
      ((a_Type a =? Machine) && String.eqb (a_ID a) m
       || (a_Type a =? MachinePrefix) && HasPrefix m (a_ID a))
      && CanAccess (a_AccessType a) t
  | service domain id =>
      (a_Type a =? Service) && String.eqb (a_ID a) (GetID (service domain id))
      && CanAccess (a_AccessType a) t
  end.

(** [Provider]: the version and type bytes that open the Authorization
    header, the provider's name, and [Authenticate] on the token for the
    request at hand. *)
Record Provider : Type := mkProvider {
  p_Version : ascii;
  p_Type : ascii;
  p_Name : string;
  p_Authenticate : string → result Principal
}.

(** [s[n:]] and [strings.SplitN(s, "/", 2)]. *)
Fixpoint string_drop (n : nat) (s : string) : string :=
  match n, s with
  | O, _ => s
  | S n', String _ s' => string_drop n' s'
  | S _, EmptyString => EmptyString
  end.

Fixpoint cut_slash (s : string) : option (string * string) :=
  match s with
  | EmptyString => None
  | String c s' =>
      if Ascii.eqb c "/" then Some (EmptyString, s')
      else match cut_slash s' with
           | Some (before, after) => Some (String c before, after)
           | None => None
           end
  end.

Definition SplitN_slash_2 (s : string) : list string :=
  match cut_slash s with
  | Some (before, after) => [before; after]
  | None => [s]
  end.

(** [SpiffeProvider.Authenticate] once [verifyCertificate] has answered
    ([verified]) and [uri.GetURINamesFromCertificate] has listed the URI
    names of the certificate ([names]). *)
Definition SpiffeProvider_Authenticate (verified : option error) (names : result (list string))
    : result Principal :=
  match verified with
  | Some e => Err e
  | None =>
      match names with
      | Err e => Err e
      | Panic w => Panic w
      | Ok spiffeURIs =>
          if (1 <? length spiffeURIs)%nat
          then Err (Errorf "auth: more than one service identity specified in certificate")
          else
            match spiffeURIs with
            | [] => Panic "index out of range"
            | uri0 :: _ =>
                if (String.length uri0 <? 9)%nat then Panic "slice bounds out of range"
                else
                  match SplitN_slash_2 (string_drop 9 uri0) with
                  | [domain; path] => Ok (NewService domain path)
                  | _ => Err (Errorf "auth: invalid service ID format")
                  end
            end
      end
  end.

End Auth.

Import Auth.

(** ** Package [server]: the key manager and the error envelope *)
Module Server.

Section KeyManager.
Context {C : Crypto}.

(** [keyManager], over the AES-GCM cryptor and the in-memory DB. *)
Record keyManager : Type := mkKeyManager {
  cryptor : aesGCMCryptor;
  db : TempDB
}.

Definition set_VersionList (kvl : KeyVersionList) (k : Key) : Key :=
  mkKey (k_ID k) (k_ACL k) kvl (k_VersionHash k) (k_Path k).

(** [keyManager.GetKey]. *)
Definition GetKey (m : keyManager) (id : string) (status : VersionStatus) : result Key :=
  match TempDB_Get (db m) id with
  | Err e => Err e
  | Panic w => Panic w
  | Ok encK =>
      match Decrypt (cryptor m) encK with
      | Err e => Err (Errorf ("Error decrypting key: " ++ Error e))
      | Panic w => Panic w
      | Ok k =>
          if status =? Inactive then Ok k
          else if status =? Active then Ok (set_VersionList (GetActive (k_VersionList k)) k)
          else if status =? Primary then
            match GetPrimary (k_VersionList k) with
            | Some p => Ok (set_VersionList [p] k)
            | None => Panic "invalid memory address or nil pointer dereference"
            end
          else Err ErrInvalidStatus
      end
  end.

(** [keyManager.AddVersion].  [Hash] sorts [k.VersionList] in place; the
    error of [EncryptVersion] is assigned and never read, and [*encV] is
    evaluated whatever it was. *)
Definition AddVersion (m : keyManager) (id : string) (v : KeyVersion) (e : entropy) (now : Z)
    : result unit * TempDB * entropy :=
  match TempDB_Get (db m) id with
  | Err x => (Err x, db m, e)
  | Panic w => (Panic w, db m, e)
  | Ok encK =>
      match Decrypt (cryptor m) encK with
      | Err x => (Err (Errorf ("Error decrypting key: " ++ Error x)), db m, e)
      | Panic w => (Panic w, db m, e)
      | Ok k =>
          let VersionList := k_VersionList k ++ [v] in
          let VersionHash := Hash VersionList in
          let k := mkKey (k_ID k) (k_ACL k) (Sort VersionList) VersionHash (k_Path k) in
          match Key_Validate k with
          | Some x => (Err x, db m, e)
          | None =>
              let '(encV, e') := EncryptVersion (cryptor m) k v e in
              let newEncK := Copy encK in
              match encV with
              | Ok encV =>
                  let newEncK :=
                    mkDBKey (dbk_ID newEncK) (dbk_ACL newEncK)
                      (dbk_VersionList newEncK ++ [encV])
                      (Hash (k_VersionList k)) (dbk_DBVersion newEncK) in
                  let '(r, db') := TempDB_Update (db m) newEncK now in
                  (r, db', e')
              | Err _ => (Panic "invalid memory address or nil pointer dereference", db m, e')
              | Panic w => (Panic w, db m, e')
              end
          end
      end
  end.

(** [keyManager.GetAllKeyIDs]. *)
Definition GetAllKeyIDs (m : keyManager) : result (list string) :=
  match TempDB_GetAll (db m) with
  | Err e => Err e
  | Panic w => Panic w
  | Ok keys => Ok (fold_left (λ output k, output ++ [dbk_ID k]) keys [])
  end.

(** [keyManager.GetUpdatedKeyIDs]. *)
Definition GetUpdatedKeyIDs (m : keyManager) (versions : gmap string string)
    : result (list string) :=
  match TempDB_GetAll (db m) with
  | Err e => Err e
  | Panic w => Panic w
  | Ok keys =>
      Ok (fold_left
            (λ output k,
               match versions !! dbk_ID k with
               | Some v =>
                   if negb (String.eqb (dbk_VersionHash k) v) then output ++ [dbk_ID k]
                   else output
               | None => output
               end) keys [])
  end.

(** [keyManager.AddNewKey].  [k.Validate()] ends with a call of [Hash],
    which sorts the version list of the caller's key in place: a key that
    validates is encrypted with its versions in sorted order. *)
Definition AddNewKey (m : keyManager) (k : Key) (e : entropy) (now : Z)
    : result unit * TempDB * entropy :=
  match Key_Validate k with
  | Some x => (Err x, db m, e)
  | None =>
      let k := set_VersionList (Sort (k_VersionList k)) k in
      match Encrypt (cryptor m) k e with
      | (Err x, e') => (Err x, db m, e')
      | (Panic w, e') => (Panic w, db m, e')
      | (Ok dbk, e') =>
          let '(r, db') := TempDB_Add (db m) [dbk] (λ _, now) in
          (r, db', e')
      end
  end.

(** [keyManager.DeleteKey]. *)
Definition DeleteKey (m : keyManager) (id : string) : result unit * TempDB :=
  TempDB_Remove (db m) id.

Definition set_ACL (acl : ACL) (k : DBKey) : DBKey :=
  mkDBKey (dbk_ID k) acl (dbk_VersionList k) (dbk_VersionHash k) (dbk_DBVersion k).

(** [keyManager.UpdateAccess]. *)
Definition UpdateAccess (m : keyManager) (id : string) (a : Access) (now : Z)
    : result unit * TempDB :=
  match TempDB_Get (db m) id with
  | Err x => (Err x, db m)
  | Panic w => (Panic w, db m)
  | Ok encK =>
      let newEncK := Copy encK in
      let newEncK := set_ACL (Add (dbk_ACL newEncK) a) newEncK in
      match ACL_Validate (dbk_ACL newEncK) with
      | Some x => (Err x, db m)
      | None => TempDB_Update (db m) newEncK now
      end
  end.

Definition set_ekv_Status (s : VersionStatus) (v : EncKeyVersion) : EncKeyVersion :=
  mkEncKeyVersion (ekv_ID v) (ekv_EncData v) s (ekv_CreationTime v) (ekv_CryptoMetadata v).

(** The inner loop of [keyManager.UpdateVersion] for the stored version
    [v]: it takes the status of every version of [kvl] with its id, in turn. *)
Definition sync_Status (kvl : KeyVersionList) (v : EncKeyVersion) : EncKeyVersion :=
  fold_left (λ acc nv, if ekv_ID v =? kv_ID nv then set_ekv_Status (kv_Status nv) acc else acc)
    kvl v.

(** [keyManager.UpdateVersion].  [Update] changes [k.VersionList] in place
    and returns it as [kvl]; [kvl.Hash()] then sorts it in place, so that
    [k.Validate()] and the loops below run on the sorted list. *)
Definition UpdateVersion (m : keyManager) (keyID : string) (versionID : Z) (s : VersionStatus)
    (now : Z) : result unit * TempDB :=
  match TempDB_Get (db m) keyID with
  | Err x => (Err x, db m)
  | Panic w => (Panic w, db m)
  | Ok encK =>
      match Decrypt (cryptor m) encK with
      | Err x => (Err (Errorf ("Error decrypting key: " ++ Error x)), db m)
      | Panic w => (Panic w, db m)
      | Ok k =>
          match Update (k_VersionList k) versionID s with
          | Err x => (Err x, db m)
          | Panic w => (Panic w, db m)
          | Ok kvl =>
              let VersionHash := Hash kvl in
              let kvl := Sort kvl in
              let k := mkKey (k_ID k) (k_ACL k) kvl VersionHash (k_Path k) in
              match Key_Validate k with
              | Some x => (Err x, db m)
              | None =>
                  let newEncK := Copy encK in
                  let newEncK :=
                    mkDBKey (dbk_ID newEncK) (dbk_ACL newEncK)
                      (map (sync_Status kvl) (dbk_VersionList newEncK))
                      (k_VersionHash k) (dbk_DBVersion newEncK) in
                  TempDB_Update (db m) newEncK now
              end
          end
      end
  end.

End KeyManager.

(** [httpError]: the subcode and the message kept for logging. *)
Record httpError : Type := errF {
  Subcode : Z;
  Message : string
}.

(** [httpErrResp]: the HTTP code and message returned to clients. *)
Record httpErrResp : Type := mkHttpErrResp {
  resp_Code : Z;
  resp_Message : string
}.

Definition StatusBadRequest : Z := 400.
Definition StatusUnauthorized : Z := 401.
Definition StatusForbidden : Z := 403.
Definition StatusNotFound : Z := 404.
Definition StatusInternalServerError : Z := 500.
Definition StatusNotImplemented : Z := 501.

(** Modelled from the spec: the constant [knox.BadPrincipalIdentifier], used
    by [HTTPErrMap] and declared in no source file at hand; the subcode
    table of the specification gives it the value 13. *)
Definition BadPrincipalIdentifier : Z := 13.

(** [HTTPErrMap]. *)
Definition HTTPErrMap : gmap Z httpErrResp :=
  list_to_map
    [ (NoKeyIDCode, mkHttpErrResp StatusBadRequest "Missing Key ID");
      (InternalServerErrorCode, mkHttpErrResp StatusInternalServerError "Internal Server Error");
      (KeyIdentifierExistsCode, mkHttpErrResp StatusBadRequest "Key identifer exists");
      (KeyVersionDoesNotExistCode, mkHttpErrResp StatusNotFound "Key version does not exist");
      (KeyIdentifierDoesNotExistCode, mkHttpErrResp StatusNotFound "Key identifer does not exist");
      (UnauthenticatedCode, mkHttpErrResp StatusUnauthorized "User or machine is not authenticated");
      (UnauthorizedCode, mkHttpErrResp StatusForbidden "User or machine not authorized");
      (NotYetImplementedCode, mkHttpErrResp StatusNotImplemented "Not yet implemented");
      (NotFoundCode, mkHttpErrResp StatusNotFound "Route not found");
      (NoKeyDataCode, mkHttpErrResp StatusBadRequest "Missing Key Data");
      (BadRequestDataCode, mkHttpErrResp StatusBadRequest "Bad request format");
      (BadKeyFormatCode, mkHttpErrResp StatusBadRequest "Key ID contains unsupported characters");
      (BadPrincipalIdentifier, mkHttpErrResp StatusBadRequest "Invalid principal identifier") ].

(** A bad-request subcode is one [HTTPErrMap] sends as HTTP 400. *)
Definition bad_request (subcode : Z) : bool :=
  match HTTPErrMap !! subcode with
  | Some r => resp_Code r =? StatusBadRequest
  | None => false
  end.

(** [knox.Response], the envelope; [Data] is nil in an error response. *)
Record Response : Type := mkResponse {
  r_Status : string;
  r_Code : Z;
  r_Host : string;
  r_Timestamp : Z;
  r_Message : string;
  r_Data : option string
}.

(** The request context slot read by [GetAPIError]. *)
Record Request : Type := mkRequest {
  apiErrorContext : option httpError
}.

Definition GetAPIError (r : Request) : option httpError := apiErrorContext r.
Definition setAPIError (r : Request) (val : httpError) : Request := mkRequest (Some val).

(** What a handler has written: the status line and the encoded envelopes. *)
Record ResponseWriter : Type := mkResponseWriter {
  w_StatusCode : option Z;
  w_Body : list Response
}.

(** [writeErr(apiErr)(w, r)]; [hostname] is the result of [os.Hostname()]
    and [now] of [time.Now().UnixNano()]. *)
Definition writeErr (apiErr : httpError) (hostname : result string) (now : Z)
    (w : ResponseWriter) (r : Request) : result (ResponseWriter * Request) :=
  match hostname with
  | Err e => Panic ("Hostname is required:" ++ Error e)
  | Panic why => Panic why
  | Ok hostname =>
      match HTTPErrMap !! Subcode apiErr with
      | None => Panic "invalid memory address or nil pointer dereference"
      | Some entry =>
          let resp :=
            mkResponse "error" (Subcode apiErr) hostname now (resp_Message entry) None in
          Ok (mkResponseWriter (Some (resp_Code entry)) (w_Body w ++ [resp]),
              setAPIError r apiErr)
      end
  end.

(** The fields the [Logger] decorator takes from the request's API error. *)
Record reqLog : Type := mkReqLog {
  log_Code : Z;
  log_StatusCode : Z;
  log_Msg : string
}.

Definition Logger_entry (r : Request) : result reqLog :=
  match GetAPIError r with
  | None => Ok (mkReqLog 0 200 "")
  | Some apiError =>
      match HTTPErrMap !! Subcode apiError with
      | None => Panic "invalid memory address or nil pointer dereference"
      | Some entry => Ok (mkReqLog (Subcode apiError) (resp_Code entry) (Message apiError))
      end
  end.

(** [combine] and the loop of [GetRouter] that folds the decorators into
    one, over any type [H] of handlers. *)
Definition combine {H : Type} (f g : H → H) : H → H := λ h, f (g h).

Definition GetRouter_decorator {H : Type} (decorators : list (H → H)) : H → H :=
  fold_left
    (λ decorator i,
       let j := (length decorators - i - 1)%nat in
       match decorators !! j with
       | Some d => combine d decorator
       | None => decorator
       end)
    (seq 0 (length decorators)) (λ f, f).

(** [providerMatch]. *)
Definition providerMatch (provider : Provider) (a : string) : option string :=
  match a with
  | String a0 (String a1 (String c rest)) =>
      if Ascii.eqb a0 (p_Version provider) && Ascii.eqb a1 (p_Type provider)
      then Some (String c rest)
      else None
  | _ => None
  end.

(** The variables of the provider loop of [Authentication]. *)
Record authLoop : Type := mkAuthLoop {
  defaultPrincipal : option Principal;
  allPrincipals : gmap string Principal;
  errReturned : error
}.

Definition Authentication_step (header : string) (st : result authLoop) (p : Provider)
    : result authLoop :=
  match st with
  | Ok l =>
      match providerMatch p header with
      | Some token =>
          match p_Authenticate p token with
          | Err errAuthenticate =>
              Ok (mkAuthLoop (defaultPrincipal l) (allPrincipals l) errAuthenticate)
          | Panic w => Panic w
          | Ok principal =>
              let defaultPrincipal :=
                match defaultPrincipal l with
                | None => Some principal
                | Some first => Some first
                end in
              Ok (mkAuthLoop defaultPrincipal (<[p_Name p := principal]> (allPrincipals l))
                    (errReturned l))
          end
      | None => Ok l
      end
  | other => other
  end.

(** What [Authentication] does with the request: it answers with
    [writeErr] of the given error and returns, or it sets the principal
    built from the default principal and the principals by provider name and
    calls the wrapped handler. *)
Inductive authenticated : Type :=
| Rejected (apiErr : httpError)
| Accepted (defaultPrincipal : Principal) (allPrincipals : gmap string Principal).

(** [Authentication(providers)], [header] being the Authorization header. *)
Definition Authentication (providers : list Provider) (header : string) : result authenticated :=
  let start := mkAuthLoop None ∅ (Errorf "No matching authentication providers found") in
  match fold_left (Authentication_step header) providers (Ok start) with
  | Ok l =>
      match defaultPrincipal l with
      | None => Ok (Rejected (errF UnauthenticatedCode (Error (errReturned l))))
      | Some p => Ok (Accepted p (allPrincipals l))
      end
  | Err e => Err e
  | Panic w => Panic w
  end.

(** [newKeyVersion]; [now] is [time.Now().UnixNano()] and [rnd] the value
    of [rand.Int63()]. *)
Definition newKeyVersion (d : list Z) (s : VersionStatus) (now rnd : Z) : KeyVersion :=
  mkKeyVersion rnd d s now.

(** [newKey], with the package variable [defaultAccess]. *)
Definition newKey (defaultAccess : list Access) (id : string) (acl : ACL) (d : list Z)
    (u : Principal) (now rnd : Z) : Key :=
  let creatorAccess := mkAccess User (GetID u) Admin in
  let ACL := fold_left Add defaultAccess (Add acl creatorAccess) in
  let VersionList := [newKeyVersion d Primary now rnd] in
  mkKey id ACL VersionList (Hash VersionList) "".

(** What a route handler returns: data, an API error, or a panic. *)
Inductive handled (A : Type) : Type :=
| Data (data : A)
| APIError (e : httpError)
| Panicked (why : string).
Arguments Data {A} data.
Arguments APIError {A} e.
Arguments Panicked {A} why.

(** The error of [m.GetKey] as the handlers report it. *)
Definition getErr_response {A : Type} (getErr : error) : handled A :=
  match getErr with
  | ErrKeyIDNotFound => APIError (errF KeyIdentifierDoesNotExistCode "")
  | _ => APIError (errF InternalServerErrorCode (Error getErr))
  end.

Section Handlers.
Context {C : Crypto}.

(** [getKeyHandler]. *)
Definition getKeyHandler (m : keyManager) (principal : Principal)
    (parameters : gmap string string) : handled Key :=
  let keyID := default ""%string (parameters !! "keyID"%string) in
  let status :=
    match parameters !! "status"%string with
    | Some statusStr => VersionStatus_UnmarshalJSON statusStr
    | None => Ok Active
    end in
  match status with
  | Err statusErr => APIError (errF BadRequestDataCode (Error statusErr))
  | Panic w => Panicked w
  | Ok status =>
      match GetKey m keyID status with
      | Err getErr => getErr_response getErr
      | Panic w => Panicked w
      | Ok key =>
          if negb (Principal_CanAccess principal (k_ACL key) Read)
          then APIError (errF UnauthorizedCode "")
          else Data (mkKey (k_ID key) [] (k_VersionList key) (k_VersionHash key) (k_Path key))
      end
  end.

(** [deleteKeyHandler], with the DB it leaves. *)
Definition deleteKeyHandler (m : keyManager) (principal : Principal)
    (parameters : gmap string string) : handled unit * TempDB :=
  let keyID := default ""%string (parameters !! "keyID"%string) in
  match GetKey m keyID Primary with
  | Err getErr => (getErr_response getErr, db m)
  | Panic w => (Panicked w, db m)
  | Ok key =>
      if negb (Principal_CanAccess principal (k_ACL key) Admin)
      then (APIError (errF UnauthorizedCode ""), db m)
      else
        match DeleteKey m keyID with
        | (Err x, db') => (APIError (errF InternalServerErrorCode (Error x)), db')
        | (Panic w, db') => (Panicked w, db')
        | (Ok _, db') => (Data tt, db')
        end
  end.

(** [getAccessHandler]. *)
Definition getAccessHandler (m : keyManager) (principal : Principal)
    (parameters : gmap string string) : handled ACL :=
  let keyID := default ""%string (parameters !! "keyID"%string) in
  match GetKey m keyID Primary with
  | Err getErr => getErr_response getErr
  | Panic w => Panicked w
  | Ok key => Data (k_ACL key)
  end.

End Handlers.

End Server.

(** ** Go's [float64]

    The finite numbers of IEEE 754 binary64, as [Fnum * 2 ^ Fexp].  An
    operation computes the exact result and rounds it to 53 significant
    bits, to the nearest number, a tie going to the even one; the
    conversion of an integer rounds in the same way, and the conversion to
    an integer truncates toward zero.  The exponent range of binary64 is
    not modelled: the backoff of the client, the one computation in
    [float64] here, multiplies a multiple of [2^-63] below 1 by a 64-bit
    integer and adds [5e7], far from overflow and underflow. *)
Module Float64.

Record float64 : Type := Float { Fnum : Z; Fexp : Z }.

Definition prec : Z := 53.

(** [m / 2^k] rounded to the nearest integer, ties to even ([0 ≤ m], [0 < k]). *)
Definition round_shift (m k : Z) : Z :=
  let q := m / 2 ^ k in
  let r := m mod 2 ^ k in
  let half := 2 ^ (k - 1) in
  if (half <? r) || ((r =? half) && Z.odd q) then q + 1 else q.

(** Rounding to 53 significant bits: [k] is the number of bits in excess. *)
Definition round (x : float64) : float64 :=
  let m := Z.abs (Fnum x) in
  let k := Z.log2 m + 1 - prec in
  if k <=? 0 then x
  else Float (Z.sgn (Fnum x) * round_shift m k) (Fexp x + k).

(** The numerator of [x] over [2^-e], for [e ≤ Fexp x]. *)
Definition align (x : float64) (e : Z) : Z := Fnum x * 2 ^ (Fexp x - e).

(** [x * y]. *)
Definition mul (x y : float64) : float64 :=
  round (Float (Fnum x * Fnum y) (Fexp x + Fexp y)).

(** [x + y]. *)
Definition add (x y : float64) : float64 :=
  let e := Z.min (Fexp x) (Fexp y) in
  round (Float (align x e + align y e) e).

(** [x * y + z] with one rounding, the fused multiply-add. *)
Definition fma (x y z : float64) : float64 :=
  let xy := Float (Fnum x * Fnum y) (Fexp x + Fexp y) in
  let e := Z.min (Fexp xy) (Fexp z) in
  round (Float (align xy e + align z e) e).

(** [float64(n)] of an integer [n]. *)
Definition of_int (n : Z) : float64 := round (Float n 0).

(** [x / (1 << k)]: exact. *)
Definition div_pow2 (x : float64) (k : Z) : float64 := Float (Fnum x) (Fexp x - k).

(** [x < y]. *)
Definition ltb (x y : float64) : bool :=
  let e := Z.min (Fexp x) (Fexp y) in align x e <? align y e.

(** [int64(x)], also [time.Duration(x)]: truncation toward zero. *)
Definition to_int (x : float64) : Z :=
  if 0 <=? Fexp x then Fnum x * 2 ^ Fexp x else Z.quot (Fnum x) (2 ^ (- Fexp x)).

(** The number [x * 2^s], an integer when [0 ≤ Fexp x + s]. *)
Definition scaled (s : Z) (x : float64) : Z := Fnum x * 2 ^ (Fexp x + s).

End Float64.

(** ** Package [knox]: the HTTP client *)
Module Client.
Import Float64.

Definition Millisecond : Z := 1000000.
Definition Second : Z := 1000000000.

Definition baseBackoff : Z := 50 * Millisecond.
Definition maxBackoff : Z := 3 * Second.
Definition maxRetryAttempts : Z := 3.

(** [rand.Float64()] of [math/rand] is [float64(r.Int63()) / (1 << 63)],
    drawn again when the quotient is 1; [n] is the value of [r.Int63()] it
    keeps, an integer of [[0, 2^63)]. *)
Definition rand_Float64 (n : Z) : float64 := div_pow2 (of_int n) 63.

(** [GetBackoffDuration]:
    [duration := rand.Float64()*float64(attempt) + basef], in float64,
    capped at [maxBackoff] and truncated by the conversion to
    [time.Duration].  The Go compiler may fuse the product and the sum
    into one operation with a single rounding, as the language
    specification allows and as it does where the processor has the
    instruction (arm64, ppc64le, s390x, riscv64); [fused] says whether it
    did. *)
Definition GetBackoffDuration (fused : bool) (attempt : Z) (n : Z) : Z :=
  let basef := of_int baseBackoff in
  let duration :=
    if fused then fma (rand_Float64 n) (of_int attempt) basef
    else add (mul (rand_Float64 n) (of_int attempt)) basef in
  if ltb (of_int maxBackoff) duration then maxBackoff else to_int duration.

(** What one round trip gives: [cli.Do] fails, the body does not decode,
    or a response envelope is decoded. *)
Inductive attempt : Type :=
| TransportError (e : error)
| DecodeError (e : error)
| Decoded (status : string) (code : Z) (message : string).

(** What the client does, in order. *)
Inductive event : Type :=
| EvDo (i : Z)
| EvSleep (d : Z).

(** The retry loop of [getHTTPData], [i] ranging over the attempt numbers
    left; [server i] answers the [i]-th attempt and [draw i] is the random
    draw of the sleep after it.  The error returned for a non-ok response
    is [fmt.Errorf(resp.Message)]: the message is the format string. *)
Fixpoint retry (fused : bool) (server : Z → attempt) (draw : Z → Z) (attempts : list Z)
    : option error * list event :=
  match attempts with
  | [] => (None, [])
  | i :: rest =>
      match server i with
      | TransportError e => (Some e, [EvDo i])
      | DecodeError e => (Some e, [EvDo i])
      | Decoded status code message =>
          if negb (String.eqb status "ok") then
            if negb (code =? InternalServerErrorCode) || (i =? maxRetryAttempts)
            then (Some (Errorf (Fmt.Sprintf message)), [EvDo i])
            else
              let d := GetBackoffDuration fused i (draw i) in
              let '(r, evs) := retry fused server draw rest in
              (r, EvDo i :: EvSleep d :: evs)
          else (None, [EvDo i])
      end
  end.

(** [HTTPClient.getHTTPData]: [newRequest] is the error of
    [http.NewRequest], [auth] the result of [c.AuthHandler()]; the loop is
    [for i := 1; i <= maxRetryAttempts; i++]. *)
Definition getHTTPData (fused : bool) (newRequest : option error) (auth : string)
    (server : Z → attempt) (draw : Z → Z) : option error * list event :=
  match newRequest with
  | Some e => (Some e, [])
  | None =>
      if String.eqb auth "" then
        (Some (Errorf "No authentication data given. Use 'knox login' or set KNOX_USER_AUTH or KNOX_MACHINE_AUTH"), [])
      else retry fused server draw (seqZ 1 maxRetryAttempts)
  end.

(** A response that is retried: decoded, not ok, with the internal server
    error code. *)
Definition retryable (a : attempt) : bool :=
  match a with
  | Decoded status code _ => negb (String.eqb status "ok") && (code =? InternalServerErrorCode)
  | _ => false
  end.

(** What the call returns when an attempt is the last one made. *)
Definition outcome (a : attempt) : option error :=
  match a with
  | TransportError e => Some e
  | DecodeError e => Some e
  | Decoded status _ message =>
      if String.eqb status "ok" then None else Some (Errorf (Fmt.Sprintf message))
  end.

Definition is_Do (ev : event) : bool := match ev with EvDo _ => true | _ => false end.

(** [fileClient]; the key data are kept as Go strings, here their bytes. *)
Record fileClient : Type := mkFileClient {
  fc_keyID : string;
  fc_primary : list Z;
  fc_active : list (list Z)
}.

(** [fileClient.setValues]: [c.active] is made with [len(ks)] elements and
    then appended to. *)
Definition setValues (c : fileClient) (key : Key) : result fileClient :=
  match GetPrimary (k_VersionList key) with
  | None => Panic "invalid memory address or nil pointer dereference"
  | Some p =>
      let primary := kv_Data p in
      let ks := GetActive (k_VersionList key) in
      let active := repeat [] (length ks) in
      let active := fold_left (λ active kv, active ++ [kv_Data kv]) ks active in
      Ok (mkFileClient (fc_keyID c) primary active)
  end.

(** [fileClient.GetPrimary] and [fileClient.GetActive]. *)
Definition fileClient_GetPrimary (c : fileClient) : list Z := fc_primary c.
Definition fileClient_GetActive (c : fileClient) : list (list Z) := fc_active c.

(** [NewMock]. *)
Definition NewMock (primary : list Z) (active : list (list Z)) : fileClient :=
  mkFileClient "" primary active.

End Client.

(** ** Package [client]: the refresh daemon *)
Module Daemon.

(** What the daemon does to the outside world, in order. *)
Inductive Event : Type :=
| EvLock
| EvUnlock
| EvRegisterGet
| EvRegisterRemove (keyID : string)
| EvReadDir
| EvCacheGetKey (keyID : string)
| EvDeleteKey (keyID : string)
| EvGetKeys (keyMap : gmap string string)
| EvNetworkGetKey (keyID : string)
| EvWriteKeyFile (keyID : string).

(** The answers of the collaborators during one cycle: the lock attempt
    ([None] when the lock is acquired), the server's list-changed and
    get-key endpoints, and the outcome of replacing a cache file (temporary
    file, write, rename and chmod taken together). *)
Record Env : Type := mkEnv {
  env_Lock : option error;
  env_GetKeys : gmap string string → result (list string);
  env_NetworkGetKey : string → result Key;
  env_WriteKeyFile : string → option error
}.

(** The daemon and the files it owns: the registration file ([None] when it
    cannot be read), the decoded key files under [keys/], whether this
    process holds the registration-file lock, the error counter and the
    trace of events. *)
Record State : Type := mkState {
  registerFile : option (list string);
  keysDir : gmap string Key;
  locked : bool;
  getKeyErrCount : Z;
  trace : list Event
}.

Definition emit (ev : Event) (st : State) : State :=
  mkState (registerFile st) (keysDir st) (locked st) (getKeyErrCount st) (trace st ++ [ev]).

Definition set_locked (b : bool) (st : State) : State :=
  mkState (registerFile st) (keysDir st) b (getKeyErrCount st) (trace st).

Definition set_registerFile (f : option (list string)) (st : State) : State :=
  mkState f (keysDir st) (locked st) (getKeyErrCount st) (trace st).

Definition set_keysDir (d : gmap string Key) (st : State) : State :=
  mkState (registerFile st) d (locked st) (getKeyErrCount st) (trace st).

Definition incr_getKeyErrCount (st : State) : State :=
  mkState (registerFile st) (keysDir st) (locked st) (getKeyErrCount st + 1) (trace st).

(** [KeysFile.Get]. *)
Definition Keys_Get (st : State) : result (list string) * State :=
  let st := emit EvRegisterGet st in
  match registerFile st with
  | Some ids => (Ok ids, st)
  | None => (Err (LibError "open: no such file or directory"), st)
  end.

(** [KeysFile.Remove] of one id: the remaining ids, without repeats, are
    written back (the order of a Go map iteration is not fixed; the order
    of first occurrence stands for it). *)
Definition Keys_Remove (keyID : string) (st : State) : State :=
  let st := emit (EvRegisterRemove keyID) st in
  let oldKeys := default [] (registerFile st) in
  let newKeys := remove_dups (List.filter (λ oldK, negb (String.eqb keyID oldK)) oldKeys) in
  set_registerFile (Some newKeys) st.

(** [daemon.currentRegisteredKeys]: the file names under [keys/]. *)
Definition currentRegisteredKeys (st : State) : list string * State :=
  (map fst (map_to_list (keysDir st)), emit EvReadDir st).

(** [cli.CacheGetKey]. *)
Definition CacheGetKey (keyID : string) (st : State) : result Key * State :=
  let st := emit (EvCacheGetKey keyID) st in
  match keysDir st !! keyID with
  | Some key => (Ok key, st)
  | None => (Err (LibError "open: no such file or directory"), st)
  end.

(** [daemon.deleteKey]. *)
Definition deleteKey (keyID : string) (st : State) : State :=
  set_keysDir (delete keyID (keysDir st)) (emit (EvDeleteKey keyID) st).

(** [daemon.processKey]. *)
Definition processKey (env : Env) (keyID : string) (st : State) : option error * State :=
  let st := emit (EvNetworkGetKey keyID) st in
  match env_NetworkGetKey env keyID with
  | Err e =>
      let st :=
        if String.eqb (Error e) "User or machine not authorized"
           || String.eqb (Error e) "Key identifer does not exist"
        then Keys_Remove keyID st else st in
      (Some (Errorf ("Error getting key " ++ keyID ++ ": " ++ Error e)), st)
  | Panic w => (Some (LibError w), st)
  | Ok key =>
      let st := emit (EvWriteKeyFile keyID) st in
      match env_WriteKeyFile env keyID with
      | Some e => (Some e, st)
      | None => (None, set_keysDir (<[keyID := key]> (keysDir st)) st)
      end
  end.

(** The loop of [update] over the files under [keys/]. *)
Definition scan_step (acc : gmap string string * State) (keyID : string)
    : gmap string string * State :=
  let '(keyMap, st) := acc in
  match keyMap !! keyID with
  | Some _ =>
      match CacheGetKey keyID st with
      | (Ok key, st) => (<[keyID := k_VersionHash key]> keyMap, st)
      | (_, st) => (keyMap, st)
      end
  | None => (keyMap, deleteKey keyID st)
  end.

(** The loop of [update] over the ids the server reports as changed. *)
Definition process_step (env : Env) (st : State) (k : string) : State :=
  match processKey env k st with
  | (Some _, st) => incr_getKeyErrCount st
  | (None, st) => st
  end.

(** The body of [daemon.update] after the lock is taken. *)
Definition update_body (env : Env) (st : State) : result unit * State :=
  match Keys_Get st with
  | (Err e, st) => (Err e, st)
  | (Panic w, st) => (Panic w, st)
  | (Ok keyIDs, st) =>
      let keyMap := fold_left (λ (m : gmap string string) k, <[k := ""]> m) keyIDs ∅ in
      let '(currentKeyIDs, st) := currentRegisteredKeys st in
      let '(keyMap, st) := fold_left scan_step currentKeyIDs (keyMap, st) in
      if (0 <? size keyMap)%nat then
        let st := emit (EvGetKeys keyMap) st in
        match env_GetKeys env keyMap with
        | Err e => (Err e, st)
        | Panic w => (Panic w, st)
        | Ok updatedKeys => (Ok tt, fold_left (process_step env) updatedKeys st)
        end
      else (Ok tt, st)
  end.

(** [daemon.update]: [Lock], then the body, with [Unlock] deferred to the
    return of the function. *)
Definition update (env : Env) (st : State) : result unit * State :=
  match env_Lock env with
  | Some e => (Err e, st)
  | None =>
      let st := emit EvLock (set_locked true st) in
      let '(r, st) := update_body env st in
      (r, emit EvUnlock (set_locked false st))
  end.

(** An event on the registration-file lock. *)
Definition is_lock_event (ev : Event) : bool :=
  match ev with EvLock | EvUnlock => true | _ => false end.

(** [st'] comes from [st] by the events [evs], none of them on the lock. *)
Definition steps (st st' : State) (evs : list Event) : Prop :=
  trace st' = trace st ++ evs ∧ forallb (λ ev, negb (is_lock_event ev)) evs = true.

(** A call over the network. *)
Definition is_network (ev : Event) : bool :=
  match ev with
  | EvGetKeys _ | EvNetworkGetKey _ => true
  | _ => false
  end.

(** Replaying a trace: whether the lock is held when each event happens. *)
Fixpoint held_at (held : bool) (evs : list Event) : list (Event * bool) :=
  match evs with
  | [] => []
  | EvLock :: rest => (EvLock, held) :: held_at true rest
  | EvUnlock :: rest => (EvUnlock, held) :: held_at false rest
  | ev :: rest => (ev, held) :: held_at held rest
  end.

(** No network call of the trace happens while the lock is held. *)
Definition lock_free_network (evs : list Event) : bool :=
  forallb (λ p, negb (is_network p.1 && p.2)) (held_at false evs).

End Daemon.

(** ** Command [dbmigrate]: moving keys to another DB and cryptor *)
Module Migrate.

Section MoveKeyData.
Context {C : Crypto}.

(** The loop of [moveKeyData]: every key of the source is decrypted with
    the source cryptor and encrypted with the destination cryptor. *)
Fixpoint moveKeyData_range (sCrypt dCrypt : aesGCMCryptor) (dbKeys : list DBKey) (e : entropy)
    : result (list DBKey) * entropy :=
  match dbKeys with
  | [] => (Ok [], e)
  | dbk :: rest =>
      match Decrypt sCrypt dbk with
      | Err x => (Err x, e)
      | Panic w => (Panic w, e)
      | Ok k =>
          match Encrypt dCrypt k e with
          | (Err x, e') => (Err x, e')
          | (Panic w, e') => (Panic w, e')
          | (Ok newDBK, e') =>
              match moveKeyData_range sCrypt dCrypt rest e' with
              | (Ok newDBKeys, e'') => (Ok (newDBK :: newDBKeys), e'')
              | other => other
              end
          end
      end
  end.

(** [moveKeyData], with the destination DB it leaves. *)
Definition moveKeyData (sDB : TempDB) (sCrypt : aesGCMCryptor) (dDB : TempDB)
    (dCrypt : aesGCMCryptor) (e : entropy) (now : nat → Z)
    : result unit * TempDB * entropy :=
  match TempDB_GetAll sDB with
  | Err x => (Err x, dDB, e)
  | Panic w => (Panic w, dDB, e)
  | Ok dbKeys =>
      match moveKeyData_range sCrypt dCrypt dbKeys e with
      | (Err x, e') => (Err x, dDB, e')
      | (Panic w, e') => (Panic w, dDB, e')
      | (Ok newDBKeys, e') =>
          let '(r, dDB') := TempDB_Add dDB newDBKeys now in
          (r, dDB', e')
      end
  end.

End MoveKeyData.
End Migrate.

Import Migrate.

(** ** Go's [crypto/aes] and [crypto/cipher]: AES-GCM

    The instance of the cryptographic interface the cryptor runs on: AES
    after FIPS 197 with keys of 16, 24 and 32 bytes, GCM after NIST SP
    800-38D with 12-byte nonces and 16-byte tags, both checked against the
    test vectors of the standards.  [rand.Read] reads from a finite tape of
    random bytes, and fails when the tape is exhausted. *)
Module AESGCM.

Definition KeySizeError : error := LibError "crypto/aes: invalid key size".
Definition OpenError : error := LibError "cipher: message authentication failed".
Definition ReadError : error := LibError "unexpected EOF".

(** *** The field GF(2^8) and the S-box (FIPS 197, 4 and 5.1.1) *)

Definition xtime (a : Z) : Z :=
  let b := Z.shiftl a 1 in
  Z.land (if Z.testbit a 7 then Z.lxor b 0x1b else b) 0xff.

Fixpoint gmul_bits (n : nat) (a b acc : Z) : Z :=
  match n with
  | O => acc
  | S n' =>
      gmul_bits n' (xtime a) (Z.shiftr b 1) (if Z.testbit b 0 then Z.lxor acc a else acc)
  end.

Definition gmul (a b : Z) : Z := gmul_bits 8 a b 0.

Fixpoint gpow (n : nat) (a : Z) : Z :=
  match n with
  | O => 1
  | S n' => gmul a (gpow n' a)
  end.

Definition rotl8 (n x : Z) : Z :=
  Z.land (Z.lor (Z.shiftl x n) (Z.shiftr x (8 - n))) 0xff.

Definition sbox_of (x : Z) : Z :=
  let s := gpow 254 x in
  Z.lxor (Z.lxor (Z.lxor (Z.lxor (Z.lxor s (rotl8 1 s)) (rotl8 2 s)) (rotl8 3 s)) (rotl8 4 s)) 0x63.

Definition sbox_table : list Z := Eval vm_compute in map sbox_of (seqZ 0 256).

Definition SubByte (x : Z) : Z := nth (Z.to_nat x) sbox_table 0.

(** *** Key expansion (FIPS 197, 5.2); a word is a list of 4 bytes *)

Definition xor_bytes (a b : list Z) : list Z := zip_with Z.lxor a b.

Definition RotWord (w : list Z) : list Z := drop 1 w ++ take 1 w.
Definition SubWord (w : list Z) : list Z := map SubByte w.
Definition Rcon (i : nat) : list Z := [gpow (i - 1) 2; 0; 0; 0].

Fixpoint chunks (fuel n : nat) (bs : list Z) : list (list Z) :=
  match fuel with
  | O => []
  | S f =>
      match bs with
      | [] => []
      | _ => take n bs :: chunks f n (drop n bs)
      end
  end.

(** The words [w[i]], the last one first, [i] counting up from [Nk]. *)
Fixpoint expand (steps : nat) (Nk i : nat) (w : list (list Z)) : list (list Z) :=
  match steps with
  | O => w
  | S steps' =>
      let temp := nth 0 w [] in
      let temp :=
        if (i mod Nk =? 0)%nat then xor_bytes (SubWord (RotWord temp)) (Rcon (i / Nk))
        else if (6 <? Nk)%nat && (i mod Nk =? 4)%nat then SubWord temp
        else temp in
      expand steps' Nk (S i) (xor_bytes (nth (Nk - 1) w []) temp :: w)
  end.

(** The round keys, 16 bytes each, for a key of [4 * Nk] bytes. *)
Definition KeyExpansion (key : list Z) : list (list Z) :=
  let Nk := (length key / 4)%nat in
  let Nr := (Nk + 6)%nat in
  let w := rev (expand (4 * (Nr + 1) - Nk) Nk Nk (rev (chunks Nk 4 key))) in
  chunks (Nr + 1) 16 (concat w).

(** *** The cipher (FIPS 197, 5.1); the state is the 16 bytes in input order *)

Definition SubBytes (s : list Z) : list Z := map SubByte s.

Definition ShiftRows (s : list Z) : list Z :=
  map (λ i, nth (i mod 4 + 4 * ((i / 4 + i mod 4) mod 4))%nat s 0) (seq 0 16).

Definition MixColumn (col : list Z) : list Z :=
  match col with
  | [a0; a1; a2; a3] =>
      [ Z.lxor (Z.lxor (gmul 2 a0) (gmul 3 a1)) (Z.lxor a2 a3);
        Z.lxor (Z.lxor a0 (gmul 2 a1)) (Z.lxor (gmul 3 a2) a3);
        Z.lxor (Z.lxor a0 a1) (Z.lxor (gmul 2 a2) (gmul 3 a3));
        Z.lxor (Z.lxor (gmul 3 a0) a1) (Z.lxor a2 (gmul 2 a3)) ]
  | _ => col
  end.

Definition MixColumns (s : list Z) : list Z := concat (map MixColumn (chunks 4 4 s)).

Definition AddRoundKey (s k : list Z) : list Z := xor_bytes s k.

Fixpoint rounds (ks : list (list Z)) (s : list Z) : list Z :=
  match ks with
  | [] => s
  | [k] => AddRoundKey (ShiftRows (SubBytes s)) k
  | k :: ks' => rounds ks' (AddRoundKey (MixColumns (ShiftRows (SubBytes s))) k)
  end.

(** [Block.Encrypt]. *)
Definition Cipher (ks : list (list Z)) (input : list Z) : list Z :=
  match ks with
  | [] => input
  | k0 :: ks' => rounds ks' (AddRoundKey input k0)
  end.

(** *** Blocks as 128-bit integers, big-endian *)

Definition be_int (bs : list Z) : Z := fold_left (λ acc b, Z.lor (Z.shiftl acc 8) b) bs 0.

Definition E (ks : list (list Z)) (x : Z) : Z := be_int (Cipher ks (Sha256.be_bytes 16 x)).

(** *** GCM (NIST SP 800-38D) *)

Definition R : Z := Z.shiftl 0xe1 120.

(** Multiplication in GF(2^128), the leftmost bit of [x] first. *)
Fixpoint gf128_bits (n : nat) (x v z : Z) : Z :=
  match n with
  | O => z
  | S n' =>
      let z := if Z.testbit x (Z.of_nat n') then Z.lxor z v else z in
      let v := if Z.testbit v 0 then Z.lxor (Z.shiftr v 1) R else Z.shiftr v 1 in
      gf128_bits n' x v z
  end.

Definition gf128_mul (x y : Z) : Z := gf128_bits 128 x y 0.

(** The 16-byte blocks of a byte string, the last one padded with zeros. *)
Definition padded_blocks (bs : list Z) : list Z :=
  map (λ blk, be_int (blk ++ repeat 0 (16 - length blk))) (chunks (length bs) 16 bs).

Definition GHASH (H : Z) (xs : list Z) : Z :=
  fold_left (λ y x, gf128_mul (Z.lxor y x) H) xs 0.

Definition inc32 (cb : Z) : Z :=
  Z.lor (Z.shiftl (Z.shiftr cb 32) 32) (Z.land (Z.land cb 0xffffffff + 1) 0xffffffff).

Fixpoint counters (n : nat) (cb : Z) : list Z :=
  match n with
  | O => []
  | S n' => cb :: counters n' (inc32 cb)
  end.

(** The key stream of [GCTR], [n] bytes from the counter block [icb]. *)
Definition keystream (ks : list (list Z)) (icb : Z) (n : nat) : list Z :=
  take n (flat_map (λ cb, Sha256.be_bytes 16 (E ks cb)) (counters (n / 16 + 1) icb)).

Definition J0 (nonce : list Z) : Z := Z.lor (Z.shiftl (be_int nonce) 32) 1.

Definition tag (ks : list (list Z)) (nonce ad body : list Z) : list Z :=
  let H := E ks 0 in
  let lens := Z.lor (Z.shiftl (8 * Z.of_nat (length ad)) 64) (8 * Z.of_nat (length body)) in
  let S := GHASH H (padded_blocks ad ++ padded_blocks body ++ [lens]) in
  Sha256.be_bytes 16 (Z.lxor (E ks (J0 nonce)) S).

Definition tagSize : nat := 16.
Definition gcmStandardNonceSize : nat := 12.

(** [gcm.Seal(nil, nonce, plaintext, data)]. *)
Definition seal (ks : list (list Z)) (nonce plaintext ad : list Z) : list Z :=
  let body := xor_bytes plaintext (keystream ks (inc32 (J0 nonce)) (length plaintext)) in
  body ++ tag ks nonce ad body.

(** [gcm.Open(nil, nonce, ciphertext, data)]. *)
Definition open (ks : list (list Z)) (nonce ciphertext ad : list Z) : option (list Z) :=
  if (length ciphertext <? tagSize)%nat then None
  else
    let n := (length ciphertext - tagSize)%nat in
    let body := take n ciphertext in
    if bool_decide (drop n ciphertext = tag ks nonce ad body)
    then Some (xor_bytes body (keystream ks (inc32 (J0 nonce)) n))
    else None.

(** [aes.NewCipher]: the round keys, for a key of 16, 24 or 32 bytes. *)
Definition newCipher (key : list Z) : result (list (list Z)) :=
  let n := length key in
  if Nat.eqb n 16 || Nat.eqb n 24 || Nat.eqb n 32 then Ok (KeyExpansion key)
  else Err KeySizeError.

(** [gcm.Open], which panics on a nonce of another length. *)
Definition gcmOpen (ks : list (list Z)) (nonce ciphertext ad : list Z) : result (list Z) :=
  if negb (Nat.eqb (length nonce) gcmStandardNonceSize)
  then Panic "crypto/cipher: incorrect nonce length given to GCM"
  else match open ks nonce ciphertext ad with
       | Some plaintext => Ok plaintext
       | None => Err OpenError
       end.

(** [rand.Read] from a tape. *)
Definition read (tape : list Z) (n : nat) : result (list Z) * list Z :=
  if (length tape <? n)%nat then (Err ReadError, tape)
  else (Ok (take n tape), drop n tape).

#[export] Instance crypto : Crypto := {|
  block := list (list Z);
  aead := list (list Z);
  entropy := list Z;
  NewCipher := newCipher;
  NewGCM := λ b, Ok b;
  NonceSize := λ _, gcmStandardNonceSize;
  Seal := seal;
  Open := gcmOpen;
  RandRead := read
|}.

(** Bytes written as hexadecimal digits. *)
Definition hex_bytes (s : string) : list Z :=
  let digit c := let n := Z.of_N (N_of_ascii c) in
                 if n <? 58 then n - 48 else n - 87 in
  (fix go (cs : list ascii) : list Z :=
     match cs with
     | a :: b :: rest => (16 * digit a + digit b) :: go rest
     | _ => []
     end) (list_ascii_of_string s).

End AESGCM.

(** ** Concrete inputs

    The key manager of the test suite ([GetMocks]: scheme version 10, key
    "testtesttesttest") over AES-GCM, holding one key with one
    Primary version, and a second version to add. *)
Module Sample.

Definition cryptor0 : aesGCMCryptor := mkCryptor (string_bytes "testtesttesttest") 10.

Definition tape0 : list Z := [11; 22; 33; 44; 55; 66; 77; 88; 99; 110; 121; 132].

Definition v0 : KeyVersion := mkKeyVersion 1 (string_bytes "hello") Primary 10.
Definition v1 : KeyVersion := mkKeyVersion 2 (string_bytes "world") Active 20.

Definition key0 : Key :=
  mkKey "testkey" [mkAccess User "test" Admin] [v0] (Hash [v0]) "".

(** The same key as the client's cache gives it, with its [Path] set. *)
Definition key0_cached : Key := set_Path "/var/lib/knox/v0/keys/testkey" key0.

Definition dbkey0 : DBKey :=
  match Encrypt (C := AESGCM.crypto) cryptor0 key0 tape0 with
  | (Ok dbk, _) => set_DBVersion 1 dbk
  | _ => mkDBKey "" [] [] "" 0
  end.

Definition db0 : TempDB := mkTempDB [dbkey0] None.

Definition m0 : Server.keyManager := Server.mkKeyManager cryptor0 db0.

(** A key in rotation: a Primary, an Active and an Inactive version, as
    stored after thirty-six random bytes were drawn for the nonces. *)
Definition v2 : KeyVersion := mkKeyVersion 3 (string_bytes "again") Inactive 30.

Definition tape2 : list Z := seqZ 1 36.

Definition key2 : Key :=
  mkKey "rotated" [mkAccess User "test" Admin] [v0; v1; v2] (Hash [v0; v1; v2]) "".

Definition dbkey2 : DBKey :=
  match Encrypt (C := AESGCM.crypto) cryptor0 key2 tape2 with
  | (Ok dbk, _) => set_DBVersion 2 dbk
  | _ => mkDBKey "" [] [] "" 0
  end.

Definition m2 : Server.keyManager :=
  Server.mkKeyManager cryptor0 (mkTempDB [dbkey0; dbkey2] None).

(** The same key with the second version added, as [AddVersion] stores
    it, and the encrypted second version. *)
Definition key1 : Key :=
  mkKey "testkey" [mkAccess User "test" Admin] [v0; v1] (Hash [v0; v1]) "".

Definition encv1 : EncKeyVersion :=
  match EncryptVersion (C := AESGCM.crypto) cryptor0 key0 v1 tape0 with
  | (Ok ev, _) => ev
  | _ => mkEncKeyVersion 0 [] 0 0 []
  end.

Definition dbkey1 : DBKey :=
  mkDBKey "testkey" [mkAccess User "test" Admin] (dbk_VersionList dbkey0 ++ [encv1])
    (Hash [v0; v1]) 2.

Definition m1 : Server.keyManager := Server.mkKeyManager cryptor0 (mkTempDB [dbkey1] None).

End Sample.

(** * Properties *)

(** ** SHA-256 *)

(** The digests of the standard test vectors. *)
Example sha256_empty :
  Sha256.EncodeToString (Sha256.Sum256 []) =
  "e3b0c44298fc1c149afbf4c8996fb92427ae41e4649b934ca495991b7852b855"%string.
Proof. vm_compute. reflexivity. Qed.

Example sha256_abc :
  Sha256.EncodeToString (Sha256.Sum256 (Sha256.bytes_of_string "abc")) =
  "ba7816bf8f01cfea414140de5dae2223b00361a396177a9cb410ff61f20015ad"%string.
Proof. vm_compute. reflexivity. Qed.

Example sha256_two_blocks :
  Sha256.EncodeToString
    (Sha256.Sum256
       (Sha256.bytes_of_string "abcdbcdecdefdefgefghfghighijhijkijkljklmklmnlmnomnopnopq")) =
  "248d6a61d20638b8e5c026930c3e6039a33ce45964ff2167f6ecedd419db06c1"%string.
Proof. vm_compute. reflexivity. Qed.

(** ** Loops that stop at the first match *)
Section FirstMatch.
Context {A : Type} (p : A → bool).

Lemma first_at_nil i x : ¬ first_at p [] i x.
Proof. intros [H _]. by rewrite lookup_nil in H. Qed.

Lemma first_at_here x l : p x = true → first_at p (x :: l) 0 x.
Proof. intros H. split; [done|]. split; [done|]. intros j y Hj. lia. Qed.

Lemma first_at_later x l i y :
  p x = false → first_at p l i y → first_at p (x :: l) (S i) y.
Proof.
  intros Hx (Hl & Hy & Hbefore). split; [done|]. split; [done|].
  intros [|j] z Hj Hz; simpl in Hz; [by simplify_eq|].
  apply (Hbefore j); [lia|done].
Qed.

Lemma first_at_cons x l i y :
  first_at p (x :: l) i y →
  (p x = true ∧ i = 0%nat ∧ y = x) ∨ (p x = false ∧ ∃ i', i = S i' ∧ first_at p l i' y).
Proof.
  intros (Hl & Hy & Hbefore). destruct i as [|i']; simpl in Hl.
  - left. by simplify_eq.
  - right. split; [apply (Hbefore 0%nat); [lia|done]|].
    exists i'. split; [done|]. split; [done|]. split; [done|].
    intros j z Hj Hz. apply (Hbefore (S j)); [lia|done].
Qed.

Lemma none_of_nil : none_of p [].
Proof. intros x Hx. by apply elem_of_nil in Hx. Qed.

Lemma none_of_cons x l : none_of p (x :: l) ↔ p x = false ∧ none_of p l.
Proof.
  unfold none_of. split.
  - intros H. split; [apply H; left|intros y Hy; apply H; by right].
  - intros [Hx Hl] y Hy. apply elem_of_cons in Hy as [->|Hy]; auto.
Qed.

(** A loop either finds a first match or none. *)
Lemma first_at_or_none l : (∃ i x, first_at p l i x) ∨ none_of p l.
Proof.
  induction l as [|x l IH].
  - right. apply none_of_nil.
  - destruct (p x) eqn:Hx.
    + left. exists 0%nat, x. by apply first_at_here.
    + destruct IH as [(i & y & H)|H].
      * left. exists (S i), y. by apply first_at_later.
      * right. by apply none_of_cons.
Qed.

Lemma first_at_not_none l i x : first_at p l i x → ¬ none_of p l.
Proof.
  intros (Hl & Hx & _) Hn. apply list_elem_of_lookup_2 in Hl.
  apply Hn in Hl. congruence.
Qed.

Lemma first_at_unique l i x j y : first_at p l i x → first_at p l j y → i = j ∧ x = y.
Proof.
  intros (Hi & Hx & Hbi) (Hj & Hy & Hbj).
  destruct (Nat.lt_trichotomy i j) as [Hlt|[->|Hlt]].
  - specialize (Hbj i x Hlt Hi). congruence.
  - split; [done|]. congruence.
  - specialize (Hbi j y Hlt Hj). congruence.
Qed.

End FirstMatch.

(** ** [KeyVersionList.Hash] *)

#[local] Instance key_le_trans : Transitive key_le.
Proof. intros [a1 a2] [b1 b2] [c1 c2]; unfold key_le; simpl; lia. Qed.

#[local] Instance key_le_antisym : AntiSymm (=) key_le.
Proof.
  intros [a1 a2] [b1 b2]; unfold key_le; simpl; intros H1 H2.
  f_equal; lia.
Qed.

Lemma Less_true a b : Less a b = true → ver_le a b.
Proof.
  unfold Less, ver_le, key_le, key; simpl.
  destruct (Z.eqb_spec (kv_Status a) (kv_Status b)); intros H; lia.
Qed.

Lemma Less_false a b : Less a b = false → ver_le b a.
Proof.
  unfold Less, ver_le, key_le, key; simpl.
  destruct (Z.eqb_spec (kv_Status a) (kv_Status b)); intros H; lia.
Qed.

Lemma insert_Permutation v l : insert v l ≡ₚ v :: l.
Proof.
  induction l as [|h t IH]; simpl; [done|].
  destruct (Less v h); [done|].
  rewrite IH. apply perm_swap.
Qed.

Lemma Sort_from_Permutation l acc :
  fold_left (λ acc v, insert v acc) l acc ≡ₚ l ++ acc.
Proof.
  revert acc; induction l as [|v l IH]; intros acc; simpl; [done|].
  rewrite IH, insert_Permutation. by rewrite Permutation_middle.
Qed.

Lemma Sort_Permutation l : Sort l ≡ₚ l.
Proof. unfold Sort. rewrite Sort_from_Permutation. by rewrite app_nil_r. Qed.

Lemma insert_sorted v l :
  StronglySorted ver_le l → StronglySorted ver_le (insert v l).
Proof.
  induction 1 as [|h t Hs IH Hall]; simpl.
  - repeat constructor.
  - destruct (Less v h) eqn:E.
    + constructor; [by constructor|].
      constructor; [by apply Less_true|].
      eapply Forall_impl; [exact Hall|].
      intros x Hx. unfold ver_le in *. etrans; [by apply Less_true|done].
    + constructor; [done|].
      rewrite insert_Permutation. constructor; [by apply Less_false|done].
Qed.

Lemma Sort_from_sorted l acc :
  StronglySorted ver_le acc →
  StronglySorted ver_le (fold_left (λ acc v, insert v acc) l acc).
Proof.
  revert acc; induction l as [|v l IH]; intros acc H; simpl; [done|].
  apply IH. by apply insert_sorted.
Qed.

Lemma Sort_sorted l : StronglySorted ver_le (Sort l).
Proof. apply Sort_from_sorted. constructor. Qed.

(** The keys of the versions in use, in sorted order, are determined by
    their multiset alone. *)
Lemma StronglySorted_filter {A} (R : relation A) (p : A → bool) l :
  StronglySorted R l → StronglySorted R (List.filter p l).
Proof.
  induction 1 as [|h t Hs IH Hall]; simpl; [constructor|].
  destruct (p h); [|done].
  constructor; [done|].
  rewrite Forall_forall in Hall |- *.
  intros x Hx. apply Hall. apply list_elem_of_In in Hx. apply list_elem_of_In.
  apply filter_In in Hx. tauto.
Qed.

Lemma used_keys_Sort_sorted l : StronglySorted key_le (used_keys (Sort l)).
Proof.
  unfold used_keys.
  apply (StronglySorted_fmap key ver_le key_le); [done|].
  apply StronglySorted_filter, Sort_sorted.
Qed.

Lemma Permutation_filter {A} (p : A → bool) l1 l2 :
  l1 ≡ₚ l2 → List.filter p l1 ≡ₚ List.filter p l2.
Proof.
  induction 1; simpl; repeat case_match; eauto using Permutation.
Qed.

Lemma used_keys_Sort_Permutation l : used_keys (Sort l) ≡ₚ used_keys l.
Proof.
  unfold used_keys. apply Permutation_map, Permutation_filter, Sort_Permutation.
Qed.

Lemma used_keys_Sort_unique l1 l2 :
  used_keys l1 ≡ₚ used_keys l2 → used_keys (Sort l1) = used_keys (Sort l2).
Proof.
  intros H. apply (StronglySorted_unique key_le); try apply used_keys_Sort_sorted.
  by rewrite !used_keys_Sort_Permutation.
Qed.

(** What [Hash] writes: the ids in use, 8 little-endian bytes each. *)

Lemma le_bytes_length n x : length (le_bytes n x) = n.
Proof. revert x; induction n as [|n IH]; intros x; simpl; [done|]. by rewrite IH. Qed.

Lemma id_bytes_length ks : length (id_bytes ks) = (8 * length ks)%nat.
Proof.
  induction ks as [|k ks IH]; [done|].
  unfold id_bytes in *. cbn [flat_map].
  rewrite length_app, le_bytes_length, IH. simpl. lia.
Qed.

Lemma id_bytes_app a b : id_bytes (a ++ b) = id_bytes a ++ id_bytes b.
Proof. unfold id_bytes. apply flat_map_app. Qed.

Lemma PutUint64_append (done : list Z) (n : nat) id :
  PutUint64 (done ++ repeat 0 (8 + n)) (length done) id
  = (done ++ le_bytes 8 id) ++ repeat 0 n.
Proof.
  unfold PutUint64.
  rewrite take_app_length.
  rewrite drop_app_add'; [|done].
  change (repeat 0 (8 + n)) with ([0;0;0;0;0;0;0;0] ++ repeat 0 n).
  simpl. by rewrite <- app_assoc.
Qed.

Lemma Hash_step_in_use st kv :
  Hash_step st kv =
  if in_use kv then (PutUint64 st.1 st.2 (kv_ID kv), (st.2 + 8)%nat) else st.
Proof. done. Qed.

Lemma used_keys_snoc seen v :
  used_keys (seen ++ [v]) = used_keys seen ++ (if in_use v then [key v] else []).
Proof.
  unfold used_keys. rewrite List.filter_app, List.map_app. cbn [List.filter].
  by destruct (in_use v).
Qed.

Lemma Hash_loop l : ∀ (seen : list KeyVersion) (n : nat),
  (length (List.filter in_use l) ≤ n)%nat →
  fold_left Hash_step l
    (id_bytes (used_keys seen) ++ repeat 0 (8 * n), length (id_bytes (used_keys seen)))
  = (id_bytes (used_keys (seen ++ l)) ++ repeat 0 (8 * (n - length (List.filter in_use l))),
     length (id_bytes (used_keys (seen ++ l)))).
Proof.
  induction l as [|v l IH]; intros seen n Hn.
  - cbn [fold_left List.filter length]. rewrite app_nil_r, Nat.sub_0_r. done.
  - cbn [fold_left List.filter] in *. rewrite Hash_step_in_use. cbn [fst snd].
    replace (seen ++ v :: l) with ((seen ++ [v]) ++ l) by (by rewrite <- app_assoc).
    pose proof (used_keys_snoc seen v) as Hk.
    destruct (in_use v) eqn:E; cbn [length] in *.
    + destruct n as [|n]; [lia|].
      replace (8 * S n)%nat with (8 + 8 * n)%nat by lia.
      rewrite PutUint64_append.
      assert (Hb : id_bytes (used_keys seen) ++ le_bytes 8 (kv_ID v)
                   = id_bytes (used_keys (seen ++ [v]))).
      { rewrite Hk, id_bytes_app. unfold id_bytes at 3. cbn [flat_map key snd].
        by rewrite app_nil_r. }
      rewrite Hb.
      replace (length (id_bytes (used_keys seen)) + 8)%nat
        with (length (id_bytes (used_keys (seen ++ [v])))).
      2:{ rewrite <- Hb, length_app, le_bytes_length. done. }
      rewrite IH by lia. do 3 f_equal.
    + rewrite app_nil_r in Hk. rewrite <- Hk. by rewrite IH.
Qed.

(** The buffer hashed by [Hash]: the ids in use in sorted order, followed
    by eight zero bytes for every Inactive version. *)
Lemma Hash_buf_spec kvl :
  Hash_buf kvl =
  id_bytes (used_keys (Sort kvl))
  ++ repeat 0 (8 * (length kvl - length (List.filter in_use kvl))).
Proof.
  unfold Hash_buf.
  assert (Hlen : length (List.filter in_use (Sort kvl)) = length (List.filter in_use kvl)).
  { apply Permutation_length, Permutation_filter, Sort_Permutation. }
  pose proof (Hash_loop (Sort kvl) [] (length kvl)) as H.
  cbn [used_keys List.filter map id_bytes flat_map app length] in H.
  cbv zeta. rewrite H.
  - cbn [fst]. by rewrite Hlen.
  - rewrite Hlen. apply List.filter_length_le.
Qed.

Lemma Hash_buf_determined l1 l2 :
  length l1 = length l2 → used_keys l1 ≡ₚ used_keys l2 → Hash_buf l1 = Hash_buf l2.
Proof.
  intros Hlen Hperm. rewrite !Hash_buf_spec.
  rewrite (used_keys_Sort_unique l1 l2 Hperm).
  assert (Hu : length (List.filter in_use l1) = length (List.filter in_use l2)).
  { apply Permutation_length in Hperm. unfold used_keys in Hperm.
    by rewrite !length_map in Hperm. }
  by rewrite Hlen, Hu.
Qed.

(** The hash is a function of the number of versions and of the multiset
    of (status, id) pairs of the versions in use: it ignores the data and
    creation time of every version and the ids of the Inactive ones. *)
Lemma Hash_determined (l1 l2 : KeyVersionList) :
  length l1 = length l2 → used_keys l1 ≡ₚ used_keys l2 → Hash l1 = Hash l2.
Proof. intros Hlen Hperm. unfold Hash. by rewrite (Hash_buf_determined l1 l2). Qed.

(** Whatever way [sort.Sort] orders equal elements, the buffer is the same:
    any sorted permutation of the list gives the bytes [Sort] gives. *)
Lemma Hash_buf_any_sort (kvl sorted : KeyVersionList) :
  sorted ≡ₚ kvl → StronglySorted ver_le sorted →
  id_bytes (used_keys sorted) = id_bytes (used_keys (Sort kvl)).
Proof.
  intros Hp Hs. f_equal.
  apply (StronglySorted_unique key_le).
  - unfold used_keys. apply (StronglySorted_fmap key ver_le key_le); [done|].
    by apply StronglySorted_filter.
  - apply used_keys_Sort_sorted.
  - rewrite used_keys_Sort_Permutation. unfold used_keys.
    by apply Permutation_map, Permutation_filter.
Qed.

(** C1. Two version lists with the same Primary id and the same (empty) set
    of Active ids, one of them holding an Inactive version besides: [Hash]
    gives two different strings, since the hashed buffer keeps eight zero
    bytes for every Inactive version. *)
Theorem Hash_counts_Inactive_versions :
  let d := [116; 101; 115; 116] in
  let l1 := [mkKeyVersion 1 d Primary 10] in
  let l2 := [mkKeyVersion 1 d Primary 10; mkKeyVersion 2 d Inactive 10] in
  used_keys l1 = used_keys l2 ∧
  Hash_buf l1 = [1; 0; 0; 0; 0; 0; 0; 0] ∧
  Hash_buf l2 = [1; 0; 0; 0; 0; 0; 0; 0; 0; 0; 0; 0; 0; 0; 0; 0] ∧
  Hash l1 = "7c9fa136d4413fa6173637e883b6998d32e1d675f88cddff9dcbcf331820f4b8"%string ∧
  Hash l2 = "4cbbd8ca5215b8d161aec181a74b694f4e24b001d5b081dc0030ed797a8973e0"%string ∧
  Hash l1 ≠ Hash l2.
Proof.
  cbv zeta.
  assert (H1 : Hash [mkKeyVersion 1 [116; 101; 115; 116] Primary 10]
               = "7c9fa136d4413fa6173637e883b6998d32e1d675f88cddff9dcbcf331820f4b8"%string)
    by (vm_compute; reflexivity).
  assert (H2 : Hash [mkKeyVersion 1 [116; 101; 115; 116] Primary 10;
                     mkKeyVersion 2 [116; 101; 115; 116] Inactive 10]
               = "4cbbd8ca5215b8d161aec181a74b694f4e24b001d5b081dc0030ed797a8973e0"%string)
    by (vm_compute; reflexivity).
  repeat split; try (vm_compute; reflexivity); try assumption.
  rewrite H1, H2. discriminate.
Qed.

(** The zero bytes kept for an Inactive version are those of an Active
    version with id 0: two lists with different sets of Active ids share
    their buffer, hence their hash. *)
Lemma Hash_Inactive_as_zero_id :
  let d := [116; 101; 115; 116] in
  let l1 := [mkKeyVersion 1 d Primary 10; mkKeyVersion 0 d Active 10] in
  let l2 := [mkKeyVersion 1 d Primary 10; mkKeyVersion 5 d Inactive 10] in
  used_keys l1 = [(Primary, 1); (Active, 0)] ∧ used_keys l2 = [(Primary, 1)] ∧
  Hash_buf l1 = Hash_buf l2 ∧ Hash l1 = Hash l2.
Proof. cbv zeta. repeat split; vm_compute; reflexivity. Qed.

(** ** [KeyVersionList.Update] *)

Lemma Update_range_app kvl versionID s (pre rest : list KeyVersion) (i : nat) :
  none_of (λ v, kv_ID v =? versionID) pre →
  Update_range kvl versionID s i (pre ++ rest)
  = Update_range kvl versionID s (i + length pre) rest.
Proof.
  revert i. induction pre as [|w pre IH]; intros i Hpre; simpl.
  - by rewrite Nat.add_0_r.
  - apply none_of_cons in Hpre as [Hw Hpre]. simpl in Hw. rewrite Hw.
    rewrite IH by done. f_equal. lia.
Qed.

Lemma Update_first kvl versionID s i v :
  first_at (λ v, kv_ID v =? versionID) kvl i v →
  Update kvl versionID s = Update_at kvl i v s.
Proof.
  intros (Hl & Hv & Hbefore). unfold Update.
  rewrite <- (take_drop_middle kvl i v Hl) at 2.
  rewrite Update_range_app.
  - simpl. simpl in Hv. rewrite Hv. f_equal.
    rewrite length_take. apply lookup_lt_Some in Hl. lia.
  - intros w Hw. apply list_elem_of_lookup in Hw as [j Hj].
    pose proof (lookup_lt_Some _ _ _ Hj) as Hlt. rewrite length_take in Hlt.
    rewrite lookup_take_lt in Hj by lia. apply (Hbefore j); [lia|done].
Qed.

Lemma Update_none kvl versionID s :
  none_of (λ v, kv_ID v =? versionID) kvl →
  Update kvl versionID s = Err ErrKeyVersionNotFound.
Proof.
  intros H. unfold Update.
  rewrite <- (app_nil_r kvl) at 2. by rewrite Update_range_app.
Qed.

Lemma alter_at {B : Type} (f : B → B) (l : list B) i x :
  l !! i = Some x → alter f i l = <[i := f x]> l.
Proof.
  revert i; induction l as [|y l IH]; intros [|i] H; simpl in *; simplify_eq; [done|].
  f_equal. by apply IH.
Qed.

Lemma demote_not_Primary v : kv_Status v ≠ Primary → demote v = v.
Proof. unfold demote. intros H. by destruct (Z.eqb_spec (kv_Status v) Primary). Qed.

Lemma demote_Primary v : kv_Status v = Primary → demote v = set_Status Active v.
Proof. unfold demote. intros ->. done. Qed.

(** Demoting every Primary version of a list that has one only. *)
Lemma demote_single kvl p vp :
  kvl !! p = Some vp → kv_Status vp = Primary →
  (∀ j w, j ≠ p → kvl !! j = Some w → kv_Status w ≠ Primary) →
  map demote kvl = <[p := set_Status Active vp]> kvl.
Proof.
  intros Hp Hvp Hothers. apply list_eq. intros j.
  rewrite list_lookup_fmap.
  destruct (decide (j = p)) as [->|Hne].
  - rewrite list_lookup_insert_eq by (by eapply lookup_lt_Some).
    rewrite Hp. simpl. by rewrite demote_Primary.
  - rewrite list_lookup_insert_ne by done.
    destruct (kvl !! j) as [w|] eqn:Hj; simpl; [|done].
    rewrite demote_not_Primary; [done|]. by eapply Hothers.
Qed.

(** [Update] at the first version with the id, by the status it has. *)
Lemma Update_cases_at (kvl : KeyVersionList) (versionID : Z) :
  (none_of (λ v, kv_ID v =? versionID) kvl →
     ∀ s, Update kvl versionID s = Err ErrKeyVersionNotFound) ∧
  (∀ i v, first_at (λ v, kv_ID v =? versionID) kvl i v →
     (kv_Status v = Active →
        Update kvl versionID Primary
        = Ok (<[i := set_Status Primary v]> (map demote kvl))) ∧
     (kv_Status v ≠ Active → Update kvl versionID Primary = Err ErrInactiveToPrimary) ∧
     (kv_Status v = Inactive →
        Update kvl versionID Active = Ok (<[i := set_Status Active v]> kvl)) ∧
     (kv_Status v ≠ Inactive → Update kvl versionID Active = Err ErrPrimaryToActive) ∧
     (kv_Status v = Active →
        Update kvl versionID Inactive = Ok (<[i := set_Status Inactive v]> kvl)) ∧
     (kv_Status v ≠ Active → Update kvl versionID Inactive = Err ErrPrimaryToInactive) ∧
     (∀ p vp, kv_Status v = Active →
        kvl !! p = Some vp → kv_Status vp = Primary →
        (∀ j w, j ≠ p → kvl !! j = Some w → kv_Status w ≠ Primary) →
        Update kvl versionID Primary
        = Ok (<[i := set_Status Primary v]> (<[p := set_Status Active vp]> kvl)))).
Proof.
  split; [intros H s; by apply Update_none|].
  intros i v Hfirst. pose proof Hfirst as (Hl & _ & _).
  assert (Hpromote : kv_Status v = Active →
    Update kvl versionID Primary = Ok (<[i := set_Status Primary v]> (map demote kvl))).
  { intros Hs. rewrite (Update_first _ _ _ i v Hfirst). unfold Update_at. simpl.
    rewrite Hs. simpl. f_equal. apply alter_at.
    rewrite list_lookup_fmap, Hl. simpl. rewrite demote_not_Primary; [done|].
    rewrite Hs. done. }
  repeat split.
  - exact Hpromote.
  - intros Hs. rewrite (Update_first _ _ _ i v Hfirst). unfold Update_at. simpl.
    by destruct (Z.eqb_spec (kv_Status v) Active).
  - intros Hs. rewrite (Update_first _ _ _ i v Hfirst). unfold Update_at. simpl.
    rewrite Hs. simpl. f_equal. by apply alter_at.
  - intros Hs. rewrite (Update_first _ _ _ i v Hfirst). unfold Update_at. simpl.
    by destruct (Z.eqb_spec (kv_Status v) Inactive).
  - intros Hs. rewrite (Update_first _ _ _ i v Hfirst). unfold Update_at. simpl.
    rewrite Hs. simpl. f_equal. by apply alter_at.
  - intros Hs. rewrite (Update_first _ _ _ i v Hfirst). unfold Update_at. simpl.
    by destruct (Z.eqb_spec (kv_Status v) Active).
  - intros p vp Hs Hp Hvp Hothers. rewrite Hpromote by done.
    by rewrite (demote_single kvl p vp).
Qed.

(** C2. The rotation state machine of [KeyVersionList.Update].  With [v]
    the first version of the list whose id is [versionID], at index [i],
    and [status s w] the version [w] with the status [s] and its own id,
    data and creation time: the target Primary succeeds from Active, and
    the list returned holds [v] with the status Primary at [i] and, at
    every other place, the version that was there, with the status Active
    if it was Primary; it fails with [ErrInactiveToPrimary] from any other
    status.  The target Active succeeds from Inactive and the target
    Inactive from Active, the list returned being the old one but for [v],
    which has the new status; they fail with [ErrPrimaryToActive] and
    [ErrPrimaryToInactive] from any other status.  With no such version
    every target fails with [ErrKeyVersionNotFound].  In a list with a
    single Primary version the promotion changes that version and [v],
    and nothing else. *)
Theorem Update_state_machine (kvl : KeyVersionList) (versionID : Z) :
  let status (s : VersionStatus) (w : KeyVersion) :=
    mkKeyVersion (kv_ID w) (kv_Data w) s (kv_CreationTime w) in
  (none_of (λ v, kv_ID v =? versionID) kvl →
     ∀ s, Update kvl versionID s = Err ErrKeyVersionNotFound) ∧
  (∀ i v, first_at (λ v, kv_ID v =? versionID) kvl i v →
     (kv_Status v = Active →
        Update kvl versionID Primary
        = Ok (<[i := status Primary v]>
                (map (λ w, if kv_Status w =? Primary then status Active w else w) kvl))) ∧
     (kv_Status v ≠ Active → Update kvl versionID Primary = Err ErrInactiveToPrimary) ∧
     (kv_Status v = Inactive →
        Update kvl versionID Active = Ok (<[i := status Active v]> kvl)) ∧
     (kv_Status v ≠ Inactive → Update kvl versionID Active = Err ErrPrimaryToActive) ∧
     (kv_Status v = Active →
        Update kvl versionID Inactive = Ok (<[i := status Inactive v]> kvl)) ∧
     (kv_Status v ≠ Active → Update kvl versionID Inactive = Err ErrPrimaryToInactive) ∧
     (∀ p vp, kv_Status v = Active →
        kvl !! p = Some vp → kv_Status vp = Primary →
        (∀ j w, j ≠ p → kvl !! j = Some w → kv_Status w ≠ Primary) →
        Update kvl versionID Primary
        = Ok (<[i := status Primary v]> (<[p := status Active vp]> kvl)))).
Proof. exact (Update_cases_at kvl versionID). Qed.

(** The nine transitions on the list of the test suite: versions 1, 2, 3
    being Primary, Active and Inactive. *)
Example Update_nine_transitions :
  let d := [116; 101; 115; 116] in
  let v1 := mkKeyVersion 1 d Primary 10 in
  let v2 := mkKeyVersion 2 d Active 10 in
  let v3 := mkKeyVersion 3 d Inactive 10 in
  let kvl := [v1; v2; v3] in
  Update kvl 1 Primary = Err ErrInactiveToPrimary ∧
  Update kvl 1 Active = Err ErrPrimaryToActive ∧
  Update kvl 1 Inactive = Err ErrPrimaryToInactive ∧
  Update kvl 2 Primary
  = Ok [mkKeyVersion 1 d Active 10; mkKeyVersion 2 d Primary 10; mkKeyVersion 3 d Inactive 10] ∧
  Update kvl 2 Active = Err ErrPrimaryToActive ∧
  Update kvl 2 Inactive
  = Ok [mkKeyVersion 1 d Primary 10; mkKeyVersion 2 d Inactive 10; mkKeyVersion 3 d Inactive 10] ∧
  Update kvl 3 Primary = Err ErrInactiveToPrimary ∧
  Update kvl 3 Active
  = Ok [mkKeyVersion 1 d Primary 10; mkKeyVersion 2 d Active 10; mkKeyVersion 3 d Active 10] ∧
  Update kvl 3 Inactive = Err ErrPrimaryToInactive ∧
  Update kvl 2387498237 Active = Err ErrKeyVersionNotFound.
Proof. cbv zeta. repeat split; reflexivity. Qed.

(** A target outside the three statuses is accepted and changes nothing. *)
Lemma Update_other_target kvl versionID s i v :
  first_at (λ v, kv_ID v =? versionID) kvl i v →
  s ≠ Primary → s ≠ Active → s ≠ Inactive →
  Update kvl versionID s = Ok kvl.
Proof.
  intros Hfirst H0 H1 H2. rewrite (Update_first _ _ _ i v Hfirst). unfold Update_at.
  destruct (Z.eqb_spec s Primary); [done|].
  destruct (Z.eqb_spec s Active); [done|].
  by destruct (Z.eqb_spec s Inactive).
Qed.

(** ** [ACL.Add] *)

Lemma same_principal_spec b a : same_principal b a = true ↔ principal b = principal a.
Proof.
  unfold same_principal, principal. rewrite andb_true_iff, Z.eqb_eq, String.eqb_eq.
  split; [intros [-> ->]; done|]. intros H. by simplify_eq.
Qed.

Lemma same_principal_refl a : same_principal a a = true.
Proof. by apply same_principal_spec. Qed.

Lemma same_principal_false b a : same_principal b a = false ↔ principal b ≠ principal a.
Proof.
  rewrite <- same_principal_spec. destruct (same_principal b a); split; congruence.
Qed.

(** The loop started inside the slice acts as the loop on the suffix. *)
Lemma Add_range_app (pre rest : ACL) a :
  Add_range (pre ++ rest) a (length pre) rest = pre ++ Add_range rest a 0 rest.
Proof.
  revert pre. induction rest as [|b rest IH]; intros pre.
  - simpl. destruct (a_AccessType a =? None_); by rewrite ?app_nil_r.
  - cbn [Add_range]. destruct (same_principal b a) eqn:Hb.
    + destruct (a_AccessType a =? None_).
      * rewrite take_app_length.
        rewrite drop_app_ge by lia.
        replace (S (length pre) - length pre)%nat with 1%nat by lia. done.
      * rewrite insert_app_r_alt by lia. by rewrite Nat.sub_diag.
    + replace (pre ++ b :: rest) with ((pre ++ [b]) ++ rest) by (by rewrite <- app_assoc).
      replace (S (length pre)) with (length (pre ++ [b])) by (rewrite length_app; simpl; lia).
      rewrite IH. pose proof (IH [b]) as H1. simpl in H1. rewrite H1.
      by rewrite <- app_assoc.
Qed.

(** [Add] by recursion on the list. *)
Lemma Add_nil a : Add [] a = if a_AccessType a =? None_ then [] else [a].
Proof. done. Qed.

Lemma Add_cons b acl a :
  Add (b :: acl) a =
  if same_principal b a then (if a_AccessType a =? None_ then acl else a :: acl)
  else b :: Add acl a.
Proof.
  unfold Add. cbn [Add_range]. destruct (same_principal b a); [by case_match|].
  apply (Add_range_app [b] acl a).
Qed.

Lemma Add_first acl a i b :
  first_at (λ b, same_principal b a) acl i b →
  Add acl a = if a_AccessType a =? None_ then delete i acl else <[i := a]> acl.
Proof.
  revert i. induction acl as [|b0 acl IH]; intros i H.
  - by apply first_at_nil in H.
  - rewrite Add_cons. apply first_at_cons in H as [(Hb & -> & ->)|(Hb & i' & -> & H)].
    + rewrite Hb. done.
    + rewrite Hb. rewrite (IH i' H). by case_match.
Qed.

Lemma Add_none acl a :
  none_of (λ b, same_principal b a) acl →
  Add acl a = if a_AccessType a =? None_ then acl else acl ++ [a].
Proof.
  induction acl as [|b0 acl IH]; intros H; [done|].
  apply none_of_cons in H as [Hb H]. rewrite Add_cons, Hb, (IH H). by case_match.
Qed.

Lemma unique_none_of b acl a :
  unique_principals (b :: acl) → same_principal b a = true →
  none_of (λ b, same_principal b a) acl.
Proof.
  unfold unique_principals. rewrite fmap_cons. intros Hnd Hb x Hx.
  apply NoDup_cons in Hnd as [Hnotin _].
  apply same_principal_false. intros Heq. apply Hnotin.
  apply same_principal_spec in Hb. rewrite Hb, <- Heq.
  by apply list_elem_of_fmap_2.
Qed.

Lemma unique_tail b acl : unique_principals (b :: acl) → unique_principals acl.
Proof. unfold unique_principals. rewrite fmap_cons. by intros [_ ?]%NoDup_cons. Qed.

(** Adding an entry that grants an access twice is adding it once. *)
Lemma Add_twice_grant acl a :
  a_AccessType a ≠ None_ → Add (Add acl a) a = Add acl a.
Proof.
  intros Hne. apply Z.eqb_neq in Hne.
  induction acl as [|b acl IH].
  - rewrite Add_nil, Hne, Add_cons, same_principal_refl, Hne. done.
  - rewrite Add_cons, Hne. destruct (same_principal b a) eqn:Hb.
    + by rewrite Add_cons, same_principal_refl, Hne.
    + by rewrite Add_cons, Hb, IH.
Qed.

(** Removing twice is removing once, in an ACL without repeated principals. *)
Lemma Add_twice_None acl a :
  unique_principals acl → a_AccessType a = None_ → Add (Add acl a) a = Add acl a.
Proof.
  intros Hu Ha. apply Z.eqb_eq in Ha.
  induction acl as [|b acl IH].
  - by rewrite Add_nil, Ha, Add_nil, Ha.
  - rewrite Add_cons, Ha. destruct (same_principal b a) eqn:Hb.
    + rewrite Add_none by (by eapply unique_none_of). by rewrite Ha.
    + rewrite Add_cons, Hb, IH; [done|]. by eapply unique_tail.
Qed.

(** Removing a principal from an ACL without repeated principals leaves
    the entries of the other principals. *)
Lemma Add_None_filter acl a :
  unique_principals acl → a_AccessType a = None_ →
  Add acl a = List.filter (λ b, negb (same_principal b a)) acl.
Proof.
  intros Hu Ha. apply Z.eqb_eq in Ha.
  induction acl as [|b acl IH].
  - by rewrite Add_nil, Ha.
  - rewrite Add_cons, Ha. cbn [List.filter]. destruct (same_principal b a) eqn:Hb; simpl.
    + symmetry. apply forallb_filter_id. apply forallb_forall. intros x Hx.
      apply list_elem_of_In in Hx.
      rewrite (unique_none_of b acl a Hu Hb x Hx). done.
    + f_equal. apply IH. by eapply unique_tail.
Qed.

Lemma filter_none_of (acl : ACL) a :
  none_of (λ b, same_principal b a) (List.filter (λ b, negb (same_principal b a)) acl).
Proof.
  intros x Hx. apply list_elem_of_In, filter_In in Hx as [_ Hx]. by apply negb_true_iff.
Qed.

(** C6.  [Add] acts on the entry of the same (type, id), the first one if
    the list repeats it: it deletes it when the new access is None and
    replaces it by the new entry otherwise; with no such entry it appends
    the new entry, or leaves the ACL as it is when the access is None.
    Adding an entry twice is adding it once, on every ACL with one entry at
    most for each (type, id), which is what [ACL.Validate] requires of a
    stored ACL (and on any list at all when the entry grants an access).
    On such an ACL, removing [x] and then adding [x] with an access [r]
    leaves the entries of the other principals followed by [x] with [r],
    which is the only entry of [x]'s (type, id). *)
Theorem Add_cases (acl : ACL) (a : Access) :
  (∀ i b, first_at (λ b, same_principal b a) acl i b →
     (a_AccessType a = None_ → Add acl a = delete i acl) ∧
     (a_AccessType a ≠ None_ → Add acl a = <[i := a]> acl)) ∧
  (none_of (λ b, same_principal b a) acl →
     (a_AccessType a ≠ None_ → Add acl a = acl ++ [a]) ∧
     (a_AccessType a = None_ → Add acl a = acl)) ∧
  (a_AccessType a ≠ None_ ∨ unique_principals acl → Add (Add acl a) a = Add acl a) ∧
  (unique_principals acl → ∀ r, r ≠ None_ →
     let x0 := mkAccess (a_Type a) (a_ID a) None_ in
     let xr := mkAccess (a_Type a) (a_ID a) r in
     Add (Add acl x0) xr = List.filter (λ b, negb (same_principal b a)) acl ++ [xr] ∧
     xr ∈ Add (Add acl x0) xr ∧
     (∀ b, b ∈ Add (Add acl x0) xr → principal b = principal xr → b = xr) ∧
     unique_principals (Add (Add acl x0) xr)).
Proof.
  split; [|split; [|split]].
  - intros i b H. rewrite (Add_first acl a i b H). split; intros Ha.
    + rewrite Ha. done.
    + apply Z.eqb_neq in Ha. by rewrite Ha.
  - intros H. rewrite (Add_none acl a H). split; intros Ha.
    + apply Z.eqb_neq in Ha. by rewrite Ha.
    + by rewrite Ha.
  - intros [Ha|Hu]; [by apply Add_twice_grant|].
    destruct (decide (a_AccessType a = None_)) as [Ha|Ha].
    + by apply Add_twice_None.
    + by apply Add_twice_grant.
  - intros Hu r Hr x0 xr.
    assert (Hsame : ∀ b, same_principal b x0 = same_principal b a) by done.
    assert (Hsame' : ∀ b, same_principal b xr = same_principal b a) by done.
    assert (Heq : Add (Add acl x0) xr
                  = List.filter (λ b, negb (same_principal b a)) acl ++ [xr]).
    { rewrite (Add_None_filter acl x0 Hu eq_refl).
      rewrite Add_none.
      - simpl. apply Z.eqb_neq in Hr. by rewrite Hr.
      - intros b Hb. rewrite Hsame'. by apply (filter_none_of acl x0). }
    rewrite Heq. split; [done|]. split; [|split].
    + apply elem_of_app. right. by apply list_elem_of_singleton.
    + intros b Hb Hp. apply elem_of_app in Hb as [Hb|Hb].
      * apply (filter_none_of acl a) in Hb. simpl in Hb.
        apply same_principal_false in Hb. done.
      * by apply list_elem_of_singleton in Hb.
    + unfold unique_principals. rewrite fmap_app. apply NoDup_app. split; [|split].
      * unfold unique_principals in Hu. revert Hu. clear.
        induction acl as [|b acl IH]; [done|].
        rewrite fmap_cons. intros [Hnotin Hnd]%NoDup_cons. cbn [List.filter].
        destruct (negb (same_principal b a)); [|by apply IH].
        rewrite fmap_cons. apply NoDup_cons. split; [|by apply IH].
        intros Hin. apply Hnotin. apply list_elem_of_fmap in Hin as (y & -> & Hy).
        apply list_elem_of_fmap_2. apply list_elem_of_In, filter_In in Hy as [Hy _].
        by apply list_elem_of_In.
      * intros k Hk Hk'. apply list_elem_of_fmap in Hk as (y & -> & Hy).
        apply (filter_none_of acl a) in Hy. simpl in Hy.
        apply same_principal_false in Hy.
        simpl in Hk'. apply list_elem_of_singleton in Hk'. done.
      * simpl. apply NoDup_singleton.
Qed.

(** On a list that repeats a principal, which [ACL.Validate] rejects,
    [Add] stops at the first entry of the principal: removing [x] twice
    removes two entries, and an older entry of [x] can be left next to
    the new one. *)
Lemma Add_twice_repeated_principal :
  let xR := mkAccess Machine "x" Read in
  let xW := mkAccess Machine "x" Write in
  let xA := mkAccess Machine "x" Admin in
  let x0 := mkAccess Machine "x" None_ in
  Add [xR; xW] x0 = [xW] ∧
  Add (Add [xR; xW] x0) x0 = [] ∧
  Add (Add [xW; xA; xW] x0) xR = [xR; xW].
Proof. cbv zeta. repeat split; reflexivity. Qed.

(** The ACLs of the test suite. *)
Example Add_tests :
  let a1 := mkAccess Machine "testmachine" Admin in
  let a2 := mkAccess Machine "testmachine" Write in
  let a3 := mkAccess Machine "testmachine" None_ in
  let a4 := mkAccess Machine "testmachine2" Admin in
  Add [a1] a2 = [a2] ∧ Add [a1] a3 = [] ∧ Add [a1] a4 = [a1; a4] ∧
  Add (Add [a1] a4) a3 = [a4] ∧ Add (Add (Add [a1] a4) a3) a3 = [a4].
Proof. cbv zeta. repeat split; reflexivity. Qed.

(** ** [TempDB.Update] *)

Lemma TempDB_Update_range_app db key now (pre rest : list DBKey) (i : nat) :
  none_of (λ k, String.eqb (dbk_ID k) (dbk_ID key)) pre →
  TempDB_Update_range db key now i (pre ++ rest)
  = TempDB_Update_range db key now (i + length pre) rest.
Proof.
  revert i. induction pre as [|k pre IH]; intros i Hpre; simpl.
  - by rewrite Nat.add_0_r.
  - apply none_of_cons in Hpre as [Hk Hpre]. simpl in Hk. rewrite Hk.
    rewrite IH by done. f_equal. lia.
Qed.

Lemma TempDB_Update_first db key now i dbk :
  err db = None →
  first_at (λ k, String.eqb (dbk_ID k) (dbk_ID key)) (keys db) i dbk →
  TempDB_Update db key now =
  if dbk_DBVersion dbk =? dbk_DBVersion key
  then (Ok tt, mkTempDB (<[i := set_DBVersion now key]> (keys db)) None)
  else (Err ErrDBVersion, db).
Proof.
  intros Herr (Hl & Hk & Hbefore). unfold TempDB_Update. rewrite Herr.
  rewrite <- (take_drop_middle (keys db) i dbk Hl) at 1.
  rewrite TempDB_Update_range_app.
  - simpl. simpl in Hk. rewrite Hk.
    destruct (dbk_DBVersion dbk =? dbk_DBVersion key); simpl; [|done].
    rewrite Herr. do 3 f_equal.
    rewrite length_take. apply lookup_lt_Some in Hl. lia.
  - intros w Hw. apply list_elem_of_lookup in Hw as [j Hj].
    pose proof (lookup_lt_Some _ _ _ Hj) as Hlt. rewrite length_take in Hlt.
    rewrite lookup_take_lt in Hj by lia. apply (Hbefore j); [lia|done].
Qed.

Lemma TempDB_Update_none db key now :
  err db = None →
  none_of (λ k, String.eqb (dbk_ID k) (dbk_ID key)) (keys db) →
  TempDB_Update db key now = (Err ErrKeyIDNotFound, db).
Proof.
  intros Herr H. unfold TempDB_Update. rewrite Herr.
  rewrite <- (app_nil_r (keys db)). by rewrite TempDB_Update_range_app.
Qed.

(** C5, as amended.  With no error injected by [SetError], [Update]
    succeeds if and only if a record with the key's id is stored and the
    first such record carries the token of the passed key; it then replaces
    that record by the passed key stamped with the clock reading [now],
    which is a strictly newer token when the clock has advanced past the
    old one.  It fails with [ErrDBVersion] when the token differs, with
    [ErrKeyIDNotFound] when no record has the id, and with the injected
    error when there is one; a failed [Update] leaves the DB as it was. *)
Theorem TempDB_Update_cases (db : TempDB) (key : DBKey) (now : Z) :
  let same_id := λ k, String.eqb (dbk_ID k) (dbk_ID key) in
  (∀ e, err db = Some e → TempDB_Update db key now = (Err e, db)) ∧
  (err db = None →
     (∀ i dbk, first_at same_id (keys db) i dbk →
        (dbk_DBVersion dbk = dbk_DBVersion key →
           TempDB_Update db key now
           = (Ok tt, mkTempDB (<[i := set_DBVersion now key]> (keys db)) None) ∧
           (dbk_DBVersion dbk < now →
              ∀ k', (TempDB_Update db key now).2.(keys) !! i = Some k' →
                    dbk_DBVersion dbk < dbk_DBVersion k')) ∧
        (dbk_DBVersion dbk ≠ dbk_DBVersion key →
           TempDB_Update db key now = (Err ErrDBVersion, db))) ∧
     (none_of same_id (keys db) → TempDB_Update db key now = (Err ErrKeyIDNotFound, db))) ∧
  ((TempDB_Update db key now).1 = Ok tt ↔
     err db = None ∧
     ∃ i dbk, first_at same_id (keys db) i dbk ∧ dbk_DBVersion dbk = dbk_DBVersion key) ∧
  ((TempDB_Update db key now).1 ≠ Ok tt → (TempDB_Update db key now).2 = db).
Proof.
  intros same_id.
  assert (Hinj : ∀ e, err db = Some e → TempDB_Update db key now = (Err e, db)).
  { intros e He. unfold TempDB_Update. by rewrite He. }
  split; [exact Hinj|]. split; [|split].
  - intros Herr. split.
    + intros i dbk Hfirst. pose proof (TempDB_Update_first db key now i dbk Herr Hfirst) as HU.
      split.
      * intros Heq. rewrite HU. apply Z.eqb_eq in Heq. rewrite Heq. split; [done|].
        intros Hlt k'. simpl. destruct Hfirst as (Hl & _ & _).
        rewrite list_lookup_insert_eq by (by eapply lookup_lt_Some).
        intros [= <-]. done.
      * intros Hne. rewrite HU. apply Z.eqb_neq in Hne. by rewrite Hne.
    + by apply TempDB_Update_none.
  - destruct (err db) as [e|] eqn:Herr.
    + rewrite (Hinj e eq_refl). simpl. split; [done|]. by intros [? _].
    + destruct (first_at_or_none same_id (keys db)) as [(i & dbk & Hfirst)|Hnone].
      * rewrite (TempDB_Update_first db key now i dbk Herr Hfirst).
        destruct (Z.eqb_spec (dbk_DBVersion dbk) (dbk_DBVersion key)) as [Heq|Hne]; simpl.
        -- split; [|done]. intros _. split; [done|]. by exists i, dbk.
        -- split; [done|]. intros (_ & j & dbk' & Hfirst' & Heq).
           destruct (first_at_unique _ _ _ _ _ _ Hfirst Hfirst') as [_ ->]. done.
      * rewrite (TempDB_Update_none db key now Herr Hnone). simpl.
        split; [done|]. intros (_ & j & dbk' & Hfirst' & _).
        by apply first_at_not_none in Hfirst'.
  - destruct (err db) as [e|] eqn:Herr.
    + by rewrite (Hinj e eq_refl).
    + destruct (first_at_or_none same_id (keys db)) as [(i & dbk & Hfirst)|Hnone].
      * rewrite (TempDB_Update_first db key now i dbk Herr Hfirst).
        by destruct (dbk_DBVersion dbk =? dbk_DBVersion key).
      * by rewrite (TempDB_Update_none db key now Herr Hnone).
Qed.

(** C5, the claim as stated fails in two places: a stored record with a
    matching token is not updated when an error is injected, and the new
    token is the clock reading, which a clock that has not advanced leaves
    equal to the old token. *)
Lemma TempDB_Update_injected_error_and_stale_clock :
  let k := mkDBKey "id1" [] [] "" 5 in
  TempDB_Update (mkTempDB [k] (Some (LibError "injected"))) k 9
    = (Err (LibError "injected"), mkTempDB [k] (Some (LibError "injected"))) ∧
  TempDB_Update (mkTempDB [k] None) k 5 = (Ok tt, mkTempDB [k] None).
Proof. cbv zeta. split; reflexivity. Qed.

(** ** AES-GCM: test vectors and contract *)

(** FIPS 197, appendix C: the example vectors for the three key sizes. *)
Example AES_128_vector :
  AESGCM.Cipher (AESGCM.KeyExpansion (AESGCM.hex_bytes "000102030405060708090a0b0c0d0e0f"))
    (AESGCM.hex_bytes "00112233445566778899aabbccddeeff")
  = AESGCM.hex_bytes "69c4e0d86a7b0430d8cdb78070b4c55a".
Proof. vm_compute. reflexivity. Qed.

Example AES_192_vector :
  AESGCM.Cipher
    (AESGCM.KeyExpansion (AESGCM.hex_bytes "000102030405060708090a0b0c0d0e0f1011121314151617"))
    (AESGCM.hex_bytes "00112233445566778899aabbccddeeff")
  = AESGCM.hex_bytes "dda97ca4864cdfe06eaf70a0ec0d7191".
Proof. vm_compute. reflexivity. Qed.

Example AES_256_vector :
  AESGCM.Cipher
    (AESGCM.KeyExpansion
       (AESGCM.hex_bytes "000102030405060708090a0b0c0d0e0f101112131415161718191a1b1c1d1e1f"))
    (AESGCM.hex_bytes "00112233445566778899aabbccddeeff")
  = AESGCM.hex_bytes "8ea2b7ca516745bfeafc49904b496089".
Proof. vm_compute. reflexivity. Qed.

(** The GCM specification, test cases 1, 2 and 4: no data, one block of
    zeros, and 60 bytes with 20 bytes of associated data. *)
Example GCM_test_case_1 :
  AESGCM.seal (AESGCM.KeyExpansion (AESGCM.hex_bytes "00000000000000000000000000000000"))
    (AESGCM.hex_bytes "000000000000000000000000") [] []
  = AESGCM.hex_bytes "58e2fccefa7e3061367f1d57a4e7455a".
Proof. vm_compute. reflexivity. Qed.

Example GCM_test_case_2 :
  AESGCM.seal (AESGCM.KeyExpansion (AESGCM.hex_bytes "00000000000000000000000000000000"))
    (AESGCM.hex_bytes "000000000000000000000000")
    (AESGCM.hex_bytes "00000000000000000000000000000000") []
  = AESGCM.hex_bytes "0388dace60b6a392f328c2b971b2fe78ab6e47d42cec13bdf53a67b21257bddf".
Proof. vm_compute. reflexivity. Qed.

Example GCM_test_case_4 :
  AESGCM.seal (AESGCM.KeyExpansion (AESGCM.hex_bytes "feffe9928665731c6d6a8f9467308308"))
    (AESGCM.hex_bytes "cafebabefacedbaddecaf888")
    (AESGCM.hex_bytes
       "d9313225f88406e5a55909c5aff5269a86a7a9531534f7da2e4c303d8a318a721c3c0c95956809532fcf0e2449a6b525b16aedf5aa0de657ba637b39")
    (AESGCM.hex_bytes "feedfacedeadbeeffeedfacedeadbeefabaddad2")
  = AESGCM.hex_bytes
      "42831ec2217774244b7221b784d0d49ce3aa212f2c02a4e035c17e2329aca12e21d514b25466931c7d8f6a5aac84aa051ba30b396a0aac973d58e0915bc94fbc3221a5db94fae95ae7121a47".
Proof. vm_compute. reflexivity. Qed.

Lemma be_bytes_length n x : length (Sha256.be_bytes n x) = n.
Proof. induction n as [|n IH]; simpl; [done|]. by rewrite IH. Qed.

Lemma xor_twice (p s : list Z) :
  length s = length p → AESGCM.xor_bytes (AESGCM.xor_bytes p s) s = p.
Proof.
  unfold AESGCM.xor_bytes.
  revert s. induction p as [|x p IH]; intros [|y s] H; simpl in *; try done.
  f_equal; [|apply IH; lia].
  by rewrite Z.lxor_assoc, Z.lxor_nilpotent, Z.lxor_0_r.
Qed.

Lemma counters_length n cb : length (AESGCM.counters n cb) = n.
Proof. revert cb; induction n as [|n IH]; intros cb; simpl; [done|]. by rewrite IH. Qed.

Lemma block_stream_length ks cbs :
  length (flat_map (λ cb, Sha256.be_bytes 16 (AESGCM.E ks cb)) cbs) = (16 * length cbs)%nat.
Proof.
  induction cbs as [|cb cbs IH]; [done|].
  cbn [flat_map]. rewrite length_app, be_bytes_length, IH. simpl. lia.
Qed.

Lemma keystream_length ks icb n : length (AESGCM.keystream ks icb n) = n.
Proof.
  unfold AESGCM.keystream.
  rewrite length_take, block_stream_length, counters_length.
  pose proof (Nat.div_mod_eq n 16) as Hd.
  pose proof (Nat.mod_upper_bound n 16). lia.
Qed.

Lemma tag_length ks nonce ad body : length (AESGCM.tag ks nonce ad body) = 16%nat.
Proof. unfold AESGCM.tag. apply be_bytes_length. Qed.

(** Opening what was sealed, under the same round keys, nonce and
    associated data, gives back the plaintext. *)
Lemma open_seal ks nonce plaintext ad :
  AESGCM.open ks nonce (AESGCM.seal ks nonce plaintext ad) ad = Some plaintext.
Proof.
  unfold AESGCM.open, AESGCM.seal.
  set (body := AESGCM.xor_bytes plaintext _).
  assert (Hb : length body = length plaintext).
  { unfold body, AESGCM.xor_bytes. rewrite length_zip_with, keystream_length. lia. }
  rewrite length_app, tag_length, Hb. unfold AESGCM.tagSize.
  replace (length plaintext + 16 - 16)%nat with (length plaintext) by lia.
  destruct (Nat.ltb_spec (length plaintext + 16) 16); [lia|].
  rewrite take_app_length' by done. rewrite drop_app_length' by done.
  rewrite bool_decide_eq_true_2 by done.
  unfold body. by rewrite xor_twice by (by rewrite keystream_length).
Qed.

Lemma read_length (e e' : list Z) n bs : AESGCM.read e n = (Ok bs, e') → length bs = n.
Proof.
  unfold AESGCM.read. destruct (Nat.ltb_spec (length e) n); [done|].
  intros [= <- <-]. rewrite length_take. lia.
Qed.

Lemma AESGCM_laws : CryptoLaws AESGCM.crypto.
Proof.
  split.
  - intros g nonce plaintext ad Hn. simpl in *. unfold AESGCM.gcmOpen.
    rewrite Hn, Nat.eqb_refl. simpl. by rewrite open_seal.
  - intros e e' n bs. apply read_length.
Qed.

(** ** The cryptor *)
Section CryptorFacts.
Context {C : Crypto} {Laws : CryptoLaws C}.

Lemma decryptVersion_EncryptVersion c k dbk v e ev e' :
  dbk_ID dbk = k_ID k →
  EncryptVersion c k v e = (Ok ev, e') →
  decryptVersion c dbk ev = Ok v.
Proof.
  intros Hid. unfold EncryptVersion, decryptVersion.
  destruct (NewCipher (keyData c)) as [b|x|w]; try (intros [=]; fail).
  destruct (NewGCM b) as [gcm|x|w]; try (intros [=]; fail).
  destruct (RandRead e (NonceSize gcm)) as [[nonce|x|w] e1] eqn:HR; try (intros [=]; fail).
  intros [= <- <-]. simpl.
  rewrite Z.eqb_refl. simpl. rewrite Hid.
  rewrite Open_Seal by (by eapply RandRead_length).
  by destruct v.
Qed.

Lemma EncryptVersion_fields c k v e ev e' :
  EncryptVersion c k v e = (Ok ev, e') →
  ekv_ID ev = kv_ID v ∧ ekv_Status ev = kv_Status v ∧
  ekv_CreationTime ev = kv_CreationTime v.
Proof.
  unfold EncryptVersion.
  destruct (NewCipher (keyData c)) as [b|x|w]; try (intros [=]; fail).
  destruct (NewGCM b) as [gcm|x|w]; try (intros [=]; fail).
  destruct (RandRead e (NonceSize gcm)) as [[nonce|x|w] e1]; try (intros [=]; fail).
  by intros [= <- <-].
Qed.

Lemma Decrypt_range_Encrypt_range c k dbk l : ∀ e evs e',
  dbk_ID dbk = k_ID k →
  Encrypt_range c k l e = (Ok evs, e') →
  Decrypt_range c dbk evs = Ok l.
Proof.
  induction l as [|v l IH]; intros e evs e' Hid; simpl.
  - by intros [= <- <-].
  - destruct (EncryptVersion c k v e) as [[ev|x|w] e1] eqn:HE; try (intros [=]; fail).
    destruct (Encrypt_range c k l e1) as [[evs'|x|w] e2] eqn:HR; try (intros [=]; fail).
    intros [= <- <-]. simpl.
    rewrite (decryptVersion_EncryptVersion c k dbk v e ev e1 Hid HE).
    by rewrite (IH e1 evs' e2 Hid HR).
Qed.

Lemma Encrypt_range_fields c k l : ∀ e evs e',
  Encrypt_range c k l e = (Ok evs, e') →
  map ekv_ID evs = map kv_ID l ∧ map ekv_Status evs = map kv_Status l ∧
  map ekv_CreationTime evs = map kv_CreationTime l.
Proof.
  induction l as [|v l IH]; intros e evs e'; simpl.
  - by intros [= <- <-].
  - destruct (EncryptVersion c k v e) as [[ev|x|w] e1] eqn:HE; try (intros [=]; fail).
    destruct (Encrypt_range c k l e1) as [[evs'|x|w] e2] eqn:HR; try (intros [=]; fail).
    intros [= <- <-]. simpl.
    destruct (EncryptVersion_fields _ _ _ _ _ _ HE) as (-> & -> & ->).
    destruct (IH _ _ _ HR) as (-> & -> & ->). done.
Qed.

Lemma Encrypt_range_total c k b gcm l : ∀ e,
  NewCipher (keyData c) = Ok b → NewGCM b = Ok gcm →
  reads_ok gcm (length l) e →
  ∃ evs e', Encrypt_range c k l e = (Ok evs, e').
Proof.
  induction l as [|v l IH]; intros e Hb Hg Hr; simpl.
  - by eexists _, _.
  - simpl in Hr. destruct Hr as (nonce & e1 & HR & Hr).
    unfold EncryptVersion. rewrite Hb, Hg, HR.
    destruct (IH e1 Hb Hg Hr) as (evs & e2 & ->). by eexists _, _.
Qed.

(** Encryption followed by decryption, for any AEAD that keeps its
    contract. *)
Lemma Encrypt_Decrypt_lawful (c : aesGCMCryptor) (k : Key) (e : entropy) :
  (∀ dbk e', Encrypt c k e = (Ok dbk, e') →
     Decrypt c dbk = Ok (set_Path "" k) ∧
     (k_Path k = ""%string → Decrypt c dbk = Ok k) ∧
     dbk_ID dbk = k_ID k ∧ dbk_ACL dbk = k_ACL k ∧
     dbk_VersionHash dbk = k_VersionHash k ∧
     map ekv_ID (dbk_VersionList dbk) = map kv_ID (k_VersionList k) ∧
     map ekv_Status (dbk_VersionList dbk) = map kv_Status (k_VersionList k) ∧
     map ekv_CreationTime (dbk_VersionList dbk) = map kv_CreationTime (k_VersionList k)) ∧
  (∀ b gcm, NewCipher (keyData c) = Ok b → NewGCM b = Ok gcm →
     reads_ok gcm (length (k_VersionList k)) e →
     ∃ dbk e', Encrypt c k e = (Ok dbk, e')).
Proof.
  split.
  - intros dbk e'. unfold Encrypt.
    destruct (Encrypt_range c k (k_VersionList k) e) as [[evs|x|w] e1] eqn:HR;
      try (intros [=]; fail).
    intros [= <- <-]. simpl.
    assert (HD : Decrypt c (mkDBKey (k_ID k) (k_ACL k) evs (k_VersionHash k) 0)
                 = Ok (set_Path "" k)).
    { unfold Decrypt. simpl.
      by rewrite (Decrypt_range_Encrypt_range c k
                    (mkDBKey (k_ID k) (k_ACL k) evs (k_VersionHash k) 0) _ e evs e1 eq_refl HR). }
    split; [exact HD|]. split.
    + intros HP. rewrite HD. f_equal. destruct k; simpl in *. by rewrite HP.
    + destruct (Encrypt_range_fields _ _ _ _ _ _ HR) as (H1 & H2 & H3). done.
  - intros b gcm Hb Hg Hr. unfold Encrypt.
    destruct (Encrypt_range_total c k b gcm _ e Hb Hg Hr) as (evs & e1 & ->).
    by eexists _, _.
Qed.

(** Decryption under a cryptor with another scheme version byte fails
    with [ErrCryptorVersion]. *)
Lemma decryptVersion_other_version c c' k dbk v e ev e' :
  version c' ≠ version c →
  EncryptVersion c k v e = (Ok ev, e') →
  decryptVersion c' dbk ev = Err ErrCryptorVersion.
Proof.
  intros Hne. unfold EncryptVersion, decryptVersion.
  destruct (NewCipher (keyData c)) as [b|x|w]; try (intros [=]; fail).
  destruct (NewGCM b) as [gcm|x|w]; try (intros [=]; fail).
  destruct (RandRead e (NonceSize gcm)) as [[nonce|x|w] e1]; try (intros [=]; fail).
  intros [= <- <-]. simpl.
  destruct (Z.eqb_spec (version c) (version c')); [congruence|done].
Qed.

End CryptorFacts.

(** C3.  Encrypting a key and decrypting the result under the same AES-GCM
    cryptor gives back the key id, the ACL, the version hash and the
    version list: the versions in their order, each with its id, data,
    status and creation time.  The key returned is the original one with
    an empty [Path], the field the client's cache fills in and the
    storage form does not have: it is the original key itself when its
    [Path] is empty, as it is for every key the server builds.  Encryption
    succeeds when the cryptor's key has 16, 24 or 32 bytes and the random
    source gives a 12-byte nonce for every version. *)
Theorem Encrypt_then_Decrypt (c : aesGCMCryptor) (k : Key) (e : list Z) :
  let C := AESGCM.crypto in
  (∀ dbk e', Encrypt (C := C) c k e = (Ok dbk, e') →
     Decrypt (C := C) c dbk = Ok (set_Path "" k) ∧
     (k_Path k = ""%string → Decrypt (C := C) c dbk = Ok k) ∧
     dbk_ID dbk = k_ID k ∧ dbk_ACL dbk = k_ACL k ∧
     dbk_VersionHash dbk = k_VersionHash k ∧
     map ekv_ID (dbk_VersionList dbk) = map kv_ID (k_VersionList k) ∧
     map ekv_Status (dbk_VersionList dbk) = map kv_Status (k_VersionList k) ∧
     map ekv_CreationTime (dbk_VersionList dbk) = map kv_CreationTime (k_VersionList k)) ∧
  (length (keyData c) ∈ [16; 24; 32]%nat →
   (12 * length (k_VersionList k) ≤ length e)%nat →
   ∃ dbk e', Encrypt (C := C) c k e = (Ok dbk, e')).
Proof.
  intros C.
  destruct (Encrypt_Decrypt_lawful (C := C) (Laws := AESGCM_laws) c k e) as [H1 H2].
  split; [exact H1|].
  intros Hlen Htape.
  assert (Hc : NewCipher (Crypto := C) (keyData c) = Ok (AESGCM.KeyExpansion (keyData c))).
  { simpl. unfold AESGCM.newCipher.
    repeat (apply elem_of_cons in Hlen as [->|Hlen]; [done|]). by apply elem_of_nil in Hlen. }
  apply (H2 _ (AESGCM.KeyExpansion (keyData c)) Hc eq_refl).
  clear -Htape. revert e Htape.
  induction (k_VersionList k) as [|v l IH]; intros e Htape; simpl; [done|].
  simpl in Htape. unfold AESGCM.read, AESGCM.gcmStandardNonceSize.
  destruct (Nat.ltb_spec (length e) 12); [lia|].
  eexists _, _. split; [done|]. apply IH. rewrite length_drop. lia.
Qed.

(** The key of the sample, encrypted with a tape of twelve random bytes
    and decrypted. *)
Example Encrypt_then_Decrypt_sample :
  Encrypt (C := AESGCM.crypto) Sample.cryptor0 Sample.key0 Sample.tape0
  = (Ok (set_DBVersion 0 Sample.dbkey0), []) ∧
  Decrypt (C := AESGCM.crypto) Sample.cryptor0 (set_DBVersion 0 Sample.dbkey0)
  = Ok Sample.key0 ∧
  map ekv_EncData (dbk_VersionList Sample.dbkey0)
  = [AESGCM.hex_bytes "8b35662cea60b1438db3170b30f81c97cf27609d44"].
Proof. repeat split; vm_compute; reflexivity. Qed.

(** The [Path] of a key is not stored: a key read from the client's cache,
    which carries the path of its file, comes back from the storage form
    with an empty [Path].  (The server encrypts the keys it builds itself,
    whose [Path] is empty.) *)
Lemma Encrypt_then_Decrypt_drops_Path :
  Key_Validate Sample.key0_cached = None ∧
  match Encrypt (C := AESGCM.crypto) Sample.cryptor0 Sample.key0_cached Sample.tape0 with
  | (Ok dbk, _) =>
      Decrypt (C := AESGCM.crypto) Sample.cryptor0 dbk = Ok Sample.key0 ∧
      k_Path Sample.key0 = ""%string ∧
      k_Path Sample.key0_cached = "/var/lib/knox/v0/keys/testkey"%string ∧
      Decrypt (C := AESGCM.crypto) Sample.cryptor0 dbk ≠ Ok Sample.key0_cached
  | _ => False
  end.
Proof.
  split; [vm_compute; reflexivity|].
  assert (HE : Encrypt (C := AESGCM.crypto) Sample.cryptor0
                 Sample.key0_cached Sample.tape0
               = (Ok (set_DBVersion 0 Sample.dbkey0), [])) by (vm_compute; reflexivity).
  assert (HD : Decrypt (C := AESGCM.crypto) Sample.cryptor0
                 (set_DBVersion 0 Sample.dbkey0) = Ok Sample.key0)
    by (vm_compute; reflexivity).
  rewrite HE, HD. split; [reflexivity|]. split; [vm_compute; reflexivity|].
  split; [vm_compute; reflexivity|].
  intros H.
  apply (f_equal (λ r, match r with Ok k => k_Path k | _ => ""%string end)) in H.
  vm_compute in H. discriminate H.
Qed.

(** ** [keyManager.GetKey] *)
Import Server.

Lemma GetActive_filter kvl : GetActive kvl = List.filter is_live kvl.
Proof.
  induction kvl as [|v kvl IH]; simpl; [done|]. unfold is_live at 1.
  by destruct ((kv_Status v =? Active) || (kv_Status v =? Primary)); rewrite IH.
Qed.

Lemma GetPrimary_filter kvl : GetPrimary kvl = head (List.filter is_Primary kvl).
Proof.
  induction kvl as [|v kvl IH]; simpl; [done|]. unfold is_Primary at 1.
  by destruct (kv_Status v =? Primary).
Qed.

(** A list accepted by [KeyVersionList.Validate] has one Primary version. *)
Lemma KVL_Validate_range_count rest : ∀ primaryCount versionToData,
  KVL_Validate_range primaryCount versionToData rest = None →
  primaryCount + Z.of_nat (length (List.filter is_Primary rest)) = 1.
Proof.
  induction rest as [|kv rest IH]; intros c m; simpl.
  - destruct (Z.eqb_spec c 1); simpl; [lia|done].
  - destruct (m !! kv_ID kv); [done|]. intros H. apply IH in H.
    unfold is_Primary at 1. destruct (kv_Status kv =? Primary); simpl in *; lia.
Qed.

Lemma KVL_Validate_one_Primary kvl :
  KVL_Validate kvl = None → ∃ p, List.filter is_Primary kvl = [p].
Proof.
  intros H. apply KVL_Validate_range_count in H.
  destruct (List.filter is_Primary kvl) as [|p [|q l]]; simpl in H; try lia.
  by exists p.
Qed.

Section KeyManagerFacts.
Context {C : Crypto}.

(** [GetKey] by the status asked for. *)
Lemma GetKey_cases (m : keyManager) (id : string) (encK : DBKey) (k : Key) :
  TempDB_Get (db m) id = Ok encK →
  Decrypt (cryptor m) encK = Ok k →
  GetKey m id Inactive = Ok k ∧
  GetKey m id Active = Ok (set_VersionList (List.filter is_live (k_VersionList k)) k) ∧
  (∀ p rest, List.filter is_Primary (k_VersionList k) = p :: rest →
     GetKey m id Primary = Ok (set_VersionList [p] k)) ∧
  (KVL_Validate (k_VersionList k) = None →
     ∃ p, List.filter is_Primary (k_VersionList k) = [p] ∧
          GetKey m id Primary = Ok (set_VersionList [p] k)) ∧
  (∀ status, status ≠ Inactive → status ≠ Active → status ≠ Primary →
     GetKey m id status = Err ErrInvalidStatus).
Proof.
  intros HG HD.
  assert (HP : ∀ p rest, List.filter is_Primary (k_VersionList k) = p :: rest →
                 GetKey m id Primary = Ok (set_VersionList [p] k)).
  { intros p rest Hf. unfold GetKey. rewrite HG, HD. simpl.
    by rewrite GetPrimary_filter, Hf. }
  repeat split.
  - unfold GetKey. by rewrite HG, HD.
  - unfold GetKey. rewrite HG, HD. simpl. by rewrite GetActive_filter.
  - exact HP.
  - intros HV. destruct (KVL_Validate_one_Primary _ HV) as [p Hp].
    exists p. split; [done|]. by apply (HP p []).
  - intros status H2 H1 H0. unfold GetKey. rewrite HG, HD.
    destruct (Z.eqb_spec status Inactive); [done|].
    destruct (Z.eqb_spec status Active); [done|].
    by destruct (Z.eqb_spec status Primary).
Qed.

(** C4. [GetKey] on a stored key that decrypts to [k], [versions kvl]
    being the key with the id, ACL, version hash and path of [k] and the
    version list [kvl]: the key [k] itself, with every version, for the
    status Inactive; the key with the versions of [k] whose status is
    Primary or Active, in their order, and no other, for Active; the key
    with the first Primary version of [k] alone for Primary, which is the
    only Primary version of a key whose version list is valid;
    [ErrInvalidStatus], and no key, for any other status. *)
Theorem GetKey_filters (m : keyManager) (id : string) (encK : DBKey) (k : Key) :
  TempDB_Get (db m) id = Ok encK →
  Decrypt (cryptor m) encK = Ok k →
  let versions (kvl : KeyVersionList) :=
    mkKey (k_ID k) (k_ACL k) kvl (k_VersionHash k) (k_Path k) in
  let in_use (v : KeyVersion) := (kv_Status v =? Active) || (kv_Status v =? Primary) in
  let primary (v : KeyVersion) := kv_Status v =? Primary in
  GetKey m id Inactive = Ok k ∧
  GetKey m id Active = Ok (versions (List.filter in_use (k_VersionList k))) ∧
  (∀ p rest, List.filter primary (k_VersionList k) = p :: rest →
     GetKey m id Primary = Ok (versions [p])) ∧
  (KVL_Validate (k_VersionList k) = None →
     ∃ p, List.filter primary (k_VersionList k) = [p] ∧
          GetKey m id Primary = Ok (versions [p])) ∧
  (∀ status, status ≠ Inactive → status ≠ Active → status ≠ Primary →
     GetKey m id status = Err ErrInvalidStatus).
Proof. exact (GetKey_cases m id encK k). Qed.

(** On a stored key without a Primary version the Primary filter
    dereferences the nil pointer of [GetPrimary]. *)
Lemma GetKey_Primary_missing (m : keyManager) id encK k :
  TempDB_Get (db m) id = Ok encK → Decrypt (cryptor m) encK = Ok k →
  List.filter is_Primary (k_VersionList k) = [] →
  GetKey m id Primary = Panic "invalid memory address or nil pointer dereference".
Proof.
  intros HG HD Hf. unfold GetKey. rewrite HG, HD. simpl.
  by rewrite GetPrimary_filter, Hf.
Qed.

(** C10. In [AddVersion], once the key is loaded, decrypted and validated
    with the new version, an error of [EncryptVersion] is not returned: the
    call ends in the nil-pointer dereference of [*encV], and the DB is left
    as it was. *)
Theorem AddVersion_encryption_error (m : keyManager) (id : string) (v : KeyVersion)
    (e e' : entropy) (now : Z) (encK : DBKey) (k : Key) (x : error) :
  TempDB_Get (db m) id = Ok encK →
  Decrypt (cryptor m) encK = Ok k →
  let k' := mkKey (k_ID k) (k_ACL k) (Sort (k_VersionList k ++ [v]))
                  (Hash (k_VersionList k ++ [v])) (k_Path k) in
  Key_Validate k' = None →
  EncryptVersion (cryptor m) k' v e = (Err x, e') →
  AddVersion m id v e now
  = (Panic "invalid memory address or nil pointer dereference", db m, e') ∧
  (AddVersion m id v e now).1.1 ≠ Err x.
Proof.
  intros HG HD k' HV HE.
  assert (H : AddVersion m id v e now
              = (Panic "invalid memory address or nil pointer dereference", db m, e')).
  { unfold AddVersion. rewrite HG, HD. fold k'. rewrite HV, HE. done. }
  split; [exact H|]. rewrite H. done.
Qed.

End KeyManagerFacts.

(** C4, witness: the key manager of the sample and its key in rotation,
    with a Primary, an Active and an Inactive version: the three filters
    return three, two and one version. *)
Lemma GetKey_filters_witness :
  let versions kvl :=
    mkKey "rotated" [mkAccess User "test" Admin] kvl (k_VersionHash Sample.key2) "" in
  TempDB_Get (db Sample.m2) "rotated" = Ok Sample.dbkey2 ∧
  Decrypt (C := AESGCM.crypto) (cryptor Sample.m2) Sample.dbkey2 = Ok Sample.key2 ∧
  GetKey (C := AESGCM.crypto) Sample.m2 "rotated" Inactive
  = Ok (versions [Sample.v0; Sample.v1; Sample.v2]) ∧
  GetKey (C := AESGCM.crypto) Sample.m2 "rotated" Active
  = Ok (versions [Sample.v0; Sample.v1]) ∧
  GetKey (C := AESGCM.crypto) Sample.m2 "rotated" Primary
  = Ok (versions [Sample.v0]).
Proof.
  intros versions.
  assert (HG : TempDB_Get (db Sample.m2) "rotated" = Ok Sample.dbkey2)
    by (vm_compute; reflexivity).
  assert (HD : Decrypt (C := AESGCM.crypto) (cryptor Sample.m2) Sample.dbkey2
               = Ok Sample.key2) by (vm_compute; reflexivity).
  split; [exact HG|]. split; [exact HD|].
  destruct (GetKey_filters (C := AESGCM.crypto) Sample.m2 "rotated"
              Sample.dbkey2 Sample.key2 HG HD) as (HI & HA & HP & _).
  split; [exact HI|]. split; [exact HA|].
  exact (HP Sample.v0 [] eq_refl).
Defined.

(** C10, witness: the random source is exhausted when the new version is
    encrypted, and [AddVersion] panics. *)
Lemma AddVersion_encryption_error_witness :
  EncryptVersion (C := AESGCM.crypto) (cryptor Sample.m0)
    (mkKey (k_ID Sample.key0) (k_ACL Sample.key0)
       (Sort (k_VersionList Sample.key0 ++ [Sample.v1]))
       (Hash (k_VersionList Sample.key0 ++ [Sample.v1])) (k_Path Sample.key0))
    Sample.v1 [] = (Err AESGCM.ReadError, []) ∧
  AddVersion (C := AESGCM.crypto) Sample.m0 "testkey" Sample.v1 [] 7
  = (Panic "invalid memory address or nil pointer dereference", db Sample.m0, []).
Proof.
  assert (HG : TempDB_Get (db Sample.m0) "testkey" = Ok Sample.dbkey0)
    by (vm_compute; reflexivity).
  assert (HD : Decrypt (C := AESGCM.crypto) (cryptor Sample.m0) Sample.dbkey0
               = Ok Sample.key0) by (vm_compute; reflexivity).
  assert (HV : Key_Validate
                 (mkKey (k_ID Sample.key0) (k_ACL Sample.key0)
                    (Sort (k_VersionList Sample.key0 ++ [Sample.v1]))
                    (Hash (k_VersionList Sample.key0 ++ [Sample.v1]))
                    (k_Path Sample.key0)) = None) by (vm_compute; reflexivity).
  assert (HE : EncryptVersion (C := AESGCM.crypto) (cryptor Sample.m0)
                 (mkKey (k_ID Sample.key0) (k_ACL Sample.key0)
                    (Sort (k_VersionList Sample.key0 ++ [Sample.v1]))
                    (Hash (k_VersionList Sample.key0 ++ [Sample.v1]))
                    (k_Path Sample.key0))
                 Sample.v1 [] = (Err AESGCM.ReadError, []))
    by (vm_compute; reflexivity).
  split; [exact HE|].
  exact (proj1 (AddVersion_encryption_error (C := AESGCM.crypto) Sample.m0 "testkey"
                  Sample.v1 [] [] 7 Sample.dbkey0 Sample.key0 AESGCM.ReadError
                  HG HD HV HE)).
Defined.

(** ** [writeErr] *)

(** The envelope written by [writeErr] carries the message [HTTPErrMap]
    gives for the subcode, whatever the message of the error; the error
    is kept on the request, where the access logger takes its message. *)
Lemma writeErr_message_fixed (subcode : Z) (hostname : string) (now : Z)
    (w : ResponseWriter) (r : Request) (entry : httpErrResp) :
  HTTPErrMap !! subcode = Some entry →
  let resp := mkResponse "error" subcode hostname now (resp_Message entry) None in
  let w' := mkResponseWriter (Some (resp_Code entry)) (w_Body w ++ [resp]) in
  ∀ detail,
    writeErr (errF subcode detail) (Ok hostname) now w r
    = Ok (w', setAPIError r (errF subcode detail)) ∧
    Logger_entry (setAPIError r (errF subcode detail))
    = Ok (mkReqLog subcode (resp_Code entry) detail).
Proof.
  intros He resp w' detail. unfold writeErr, Logger_entry. simpl. by rewrite He.
Qed.

(** C7.  The message of the error is never what [writeErr] returns.  On
    the input of the repository's own test of [writeErr], an internal
    server error with an empty message, the envelope holds the text
    "Internal Server Error", where the test requires the empty message of
    the error; on a bad-request subcode the envelope holds the text of
    [HTTPErrMap], not the message of the error, which the claim says is
    returned.  In general the envelope written for a subcode is the same
    for every message: the subcode, the host, the time and the message
    that [HTTPErrMap] gives for the subcode. *)
Theorem writeErr_never_returns_error_message :
  let w0 := mkResponseWriter None [] in
  let r0 := mkRequest None in
  let testErr := errF InternalServerErrorCode "" in
  let badRequest := errF BadRequestDataCode "json: Invalid VersionStatus to convert" in
  writeErr testErr (Ok "host1"%string) 7 w0 r0
  = Ok (mkResponseWriter (Some 500)
          [mkResponse "error" 1 "host1" 7 "Internal Server Error" None],
        mkRequest (Some testErr)) ∧
  "Internal Server Error"%string ≠ Message testErr ∧
  bad_request (Subcode badRequest) = true ∧
  writeErr badRequest (Ok "host1"%string) 7 w0 r0
  = Ok (mkResponseWriter (Some 400)
          [mkResponse "error" 11 "host1" 7 "Bad request format" None],
        mkRequest (Some badRequest)) ∧
  "Bad request format"%string ≠ Message badRequest ∧
  (∀ subcode detail hostname now w r w' r',
     writeErr (errF subcode detail) (Ok hostname) now w r = Ok (w', r') →
     ∃ entry, HTTPErrMap !! subcode = Some entry ∧
       w_StatusCode w' = Some (resp_Code entry) ∧
       w_Body w' = w_Body w
                   ++ [mkResponse "error" subcode hostname now (resp_Message entry) None] ∧
       GetAPIError r' = Some (errF subcode detail)).
Proof.
  cbv zeta. split; [reflexivity|]. split; [discriminate|]. split; [reflexivity|].
  split; [reflexivity|]. split; [discriminate|].
  intros subcode detail hostname now w r w' r'. unfold writeErr. simpl.
  destruct (HTTPErrMap !! subcode) as [entry|]; [|done].
  intros [= <- <-]. by exists entry.
Qed.

(** The bad-request subcodes. *)
Lemma bad_request_subcodes (subcode : Z) :
  bad_request subcode = true ↔
  subcode ∈ [KeyIdentifierExistsCode; NoKeyIDCode; NoKeyDataCode; BadRequestDataCode;
             BadKeyFormatCode; BadPrincipalIdentifier].
Proof.
  unfold bad_request. split.
  - destruct (HTTPErrMap !! subcode) as [entry|] eqn:He; [|done].
    intros Hc. apply elem_of_list_to_map_2 in He.
    repeat (apply elem_of_cons in He as [He|He];
            [injection He as -> ->; first [discriminate Hc | set_solver]|]).
    by apply elem_of_nil in He.
  - intros H. repeat (apply elem_of_cons in H as [->|H]; [reflexivity|]).
    by apply elem_of_nil in H.
Qed.

(** ** Rounding in [float64] *)
Import Client.

Section Rounding.
Import Float64.

Lemma pow2_pos k : 0 < 2 ^ k ∨ (k < 0 ∧ 2 ^ k = 0).
Proof.
  destruct (Z.lt_ge_cases k 0) as [H|H].
  - right. split; [done|]. by apply Z.pow_neg_r.
  - left. by apply Z.pow_pos_nonneg.
Qed.

Lemma pow2_add a b : 0 ≤ a → 0 ≤ b → 2 ^ (a + b) = 2 ^ a * 2 ^ b.
Proof. intros. by apply Z.pow_add_r. Qed.

Lemma pow2_le a b : 0 ≤ a ≤ b → 2 ^ a ≤ 2 ^ b.
Proof. intros. apply Z.pow_le_mono_r; lia. Qed.

Lemma round_shift_cases m k :
  0 ≤ m → 0 < k →
  let q := m / 2 ^ k in
  (round_shift m k = q ∨ (round_shift m k = q + 1 ∧ m mod 2 ^ k ≠ 0)).
Proof.
  intros Hm Hk q. unfold round_shift. fold q.
  assert (0 < 2 ^ (k - 1)) by (apply Z.pow_pos_nonneg; lia).
  destruct ((2 ^ (k - 1) <? m mod 2 ^ k) || (m mod 2 ^ k =? 2 ^ (k - 1)) && Z.odd q) eqn:E;
    [|by left].
  right. split; [done|].
  apply orb_true_iff in E as [E|E].
  - apply Z.ltb_lt in E. lia.
  - apply andb_true_iff in E as [E _]. apply Z.eqb_eq in E. lia.
Qed.

(** The shape of a rounded number. *)
Lemma round_nonneg x :
  0 ≤ Fnum x →
  let k := Z.log2 (Fnum x) + 1 - prec in
  (k ≤ 0 ∧ round x = x) ∨
  (0 < k ∧ 2 ^ 52 ≤ Fnum x / 2 ^ k ∧
   ∃ q', round x = Float q' (Fexp x + k) ∧
         (q' = Fnum x / 2 ^ k ∨ (q' = Fnum x / 2 ^ k + 1 ∧ Fnum x mod 2 ^ k ≠ 0))).
Proof.
  intros Hm k. unfold round. rewrite Z.abs_eq by done. fold k.
  destruct (Z.leb_spec k 0) as [Hk|Hk]; [by left|]. right.
  assert (Hpos : 0 < Fnum x).
  { destruct (Z.eq_dec (Fnum x) 0) as [E|E]; [|lia].
    exfalso. unfold k, prec in Hk. rewrite E in Hk. simpl in Hk. lia. }
  split; [done|].
  pose proof (Z.log2_spec (Fnum x) Hpos) as [Hlo _].
  split.
  - apply Z.div_le_lower_bound; [apply Z.pow_pos_nonneg; lia|].
    rewrite Z.mul_comm, <- Z.pow_add_r by lia.
    replace (52 + k) with (Z.log2 (Fnum x)) by (unfold k, prec; lia). done.
  - exists (round_shift (Fnum x) k). split.
    + f_equal. rewrite Z.sgn_pos by done. lia.
    + by apply round_shift_cases.
Qed.

Lemma round_Fnum_nonneg x : 0 ≤ Fnum x → 0 ≤ Fnum (round x).
Proof.
  intros Hm. destruct (round_nonneg x Hm) as [[_ ->]|(Hk & Hq & q' & -> & Hq')]; [done|].
  simpl. lia.
Qed.

Lemma round_Fexp x e0 : 0 ≤ Fnum x → e0 ≤ Fexp x → e0 ≤ Fexp (round x).
Proof.
  intros Hm He. destruct (round_nonneg x Hm) as [[_ ->]|(Hk & Hq & q' & -> & Hq')]; [done|].
  simpl. lia.
Qed.

(** Rounding does not cross a number with 53 significant bits at most. *)
Lemma round_ge s x c j :
  0 ≤ Fnum x → 0 ≤ Fexp x + s → 0 ≤ c ≤ 2 ^ 53 → 0 ≤ j →
  c * 2 ^ j ≤ scaled s x → c * 2 ^ j ≤ scaled s (round x).
Proof.
  intros Hm He Hc Hj Hle.
  destruct (round_nonneg x Hm) as [[_ ->]|(Hk & Hq & q' & -> & Hq')]; [done|].
  unfold scaled in *. simpl.
  set (m := Fnum x) in *. set (k := Z.log2 m + 1 - prec) in *.
  set (E := Fexp x + s) in *.
  replace (Fexp x + k + s) with (E + k) by lia.
  assert (H2k : 0 < 2 ^ k) by (apply Z.pow_pos_nonneg; lia).
  assert (H2E : 0 < 2 ^ E) by (apply Z.pow_pos_nonneg; lia).
  assert (H2j : 0 < 2 ^ j) by (apply Z.pow_pos_nonneg; lia).
  assert (Hq'ge : m / 2 ^ k ≤ q') by lia.
  rewrite (pow2_add E k) by lia.
  destruct (Z.le_gt_cases (E + k) j) as [Hjk|Hjk].
  - replace j with ((j - E - k) + k + E) in Hle |- * by lia.
    rewrite !pow2_add in Hle |- * by lia.
    assert (H2d : 0 < 2 ^ (j - E - k)) by (apply Z.pow_pos_nonneg; lia).
    assert (Hdiv : c * 2 ^ (j - E - k) ≤ m / 2 ^ k).
    { apply Z.div_le_lower_bound; [done|]. nia. }
    nia.
  - assert (c * 2 ^ j ≤ 2 ^ 53 * 2 ^ j) by nia.
    assert (2 ^ 53 * 2 ^ j ≤ 2 ^ 52 * (2 ^ E * 2 ^ k)).
    { rewrite <- pow2_add by lia. rewrite <- !Z.pow_add_r by lia.
      apply pow2_le. lia. }
    nia.
Qed.

Lemma round_le s x c j :
  0 ≤ Fnum x → 0 ≤ Fexp x + s → 0 ≤ c ≤ 2 ^ 53 → 0 ≤ j →
  scaled s x ≤ c * 2 ^ j → scaled s (round x) ≤ c * 2 ^ j.
Proof.
  intros Hm He Hc Hj Hle.
  destruct (round_nonneg x Hm) as [[_ ->]|(Hk & Hq & q' & -> & Hq')]; [done|].
  unfold scaled in *. simpl.
  set (m := Fnum x) in *. set (k := Z.log2 m + 1 - prec) in *.
  set (E := Fexp x + s) in *.
  replace (Fexp x + k + s) with (E + k) by lia.
  assert (H2k : 0 < 2 ^ k) by (apply Z.pow_pos_nonneg; lia).
  assert (H2E : 0 < 2 ^ E) by (apply Z.pow_pos_nonneg; lia).
  assert (H2j : 0 < 2 ^ j) by (apply Z.pow_pos_nonneg; lia).
  pose proof (Z.div_mod m (2 ^ k) ltac:(lia)) as Hdm.
  pose proof (Z.mod_pos_bound m (2 ^ k) H2k) as Hr.
  rewrite (pow2_add E k) by lia.
  destruct (Z.le_gt_cases (E + k) j) as [Hjk|Hjk].
  - replace j with ((j - E - k) + k + E) in Hle |- * by lia.
    rewrite !pow2_add in Hle |- * by lia.
    assert (H2d : 0 < 2 ^ (j - E - k)) by (apply Z.pow_pos_nonneg; lia).
    set (K := c * 2 ^ (j - E - k)) in *.
    assert (HmK : m ≤ K * 2 ^ k) by nia.
    assert (Hq'K : q' ≤ K).
    { destruct Hq' as [->|[-> Hne]].
      - apply Z.div_le_upper_bound; [done|]. lia.
      - assert (m / 2 ^ k < K); [|lia].
        apply Z.div_lt_upper_bound; [done|].
        destruct (Z.eq_dec m (K * 2 ^ k)) as [Heq|Hneq]; [|lia].
        rewrite Heq, Z.mod_mul in Hne by lia. done. }
    nia.
  - assert (Hb : c * 2 ^ j ≤ 2 ^ 52 * (2 ^ E * 2 ^ k)).
    { assert (c * 2 ^ j ≤ 2 ^ 53 * 2 ^ j) by nia.
      assert (2 ^ 53 * 2 ^ j ≤ 2 ^ 52 * (2 ^ E * 2 ^ k)); [|lia].
      rewrite <- pow2_add by lia. rewrite <- !Z.pow_add_r by lia.
      apply pow2_le. lia. }
    assert (Hq2 : 2 ^ 52 * (2 ^ E * 2 ^ k) ≤ m / 2 ^ k * (2 ^ E * 2 ^ k))
      by (apply Z.mul_le_mono_nonneg_r; lia).
    assert (Hmq : m * 2 ^ E ≤ (m / 2 ^ k * 2 ^ k) * 2 ^ E) by lia.
    apply Z.mul_le_mono_pos_r in Hmq; [|done].
    assert (Hr0 : m mod 2 ^ k = 0) by lia.
    destruct Hq' as [->|[_ Hne]]; [nia|done].
Qed.

Lemma of_int_small n : 0 ≤ n < 2 ^ 53 → of_int n = Float n 0.
Proof.
  intros [H0 H1]. unfold of_int, round. simpl. rewrite Z.abs_eq by done.
  destruct (Z.eq_dec n 0) as [->|Hn]; [done|].
  assert (Z.log2 n < 53) by (apply Z.log2_lt_pow2; lia).
  destruct (Z.leb_spec (Z.log2 n + 1 - prec) 0) as [|Hk]; [done|]. unfold prec in Hk. lia.
Qed.

Lemma scaled_sum s x y :
  0 ≤ Fexp x + s → 0 ≤ Fexp y + s →
  let e := Z.min (Fexp x) (Fexp y) in
  scaled s (Float (align x e + align y e) e) = scaled s x + scaled s y.
Proof.
  intros Hx Hy e. unfold scaled, align. simpl.
  rewrite Z.mul_add_distr_r, <- !Z.mul_assoc, <- !Z.pow_add_r by lia.
  f_equal; do 2 f_equal; lia.
Qed.

Lemma scaled_product s x y :
  scaled s (Float (Fnum x * Fnum y) (Fexp x + Fexp y)) = Fnum x * Fnum y * 2 ^ (Fexp x + Fexp y + s).
Proof. done. Qed.

Lemma ltb_scaled s x y :
  0 ≤ Fexp x + s → 0 ≤ Fexp y + s → ltb x y = (scaled s x <? scaled s y).
Proof.
  intros Hx Hy. unfold ltb, scaled, align.
  set (e := Z.min (Fexp x) (Fexp y)).
  assert (He : 0 ≤ e + s) by lia.
  assert (H2 : 0 < 2 ^ (e + s)) by (apply Z.pow_pos_nonneg; lia).
  replace (Fexp x + s) with ((Fexp x - e) + (e + s)) by lia.
  replace (Fexp y + s) with ((Fexp y - e) + (e + s)) by lia.
  rewrite (Z.pow_add_r 2 (Fexp x - e)), (Z.pow_add_r 2 (Fexp y - e)) by lia.
  rewrite !Z.mul_assoc.
  set (a := Fnum x * 2 ^ (Fexp x - e)). set (b := Fnum y * 2 ^ (Fexp y - e)).
  destruct (Z.ltb_spec a b) as [Hab|Hab];
    destruct (Z.ltb_spec (a * 2 ^ (e + s)) (b * 2 ^ (e + s))) as [Hab'|Hab']; try done.
  - pose proof (proj1 (Z.mul_lt_mono_pos_r (2 ^ (e + s)) a b H2) Hab). lia.
  - pose proof (proj1 (Z.mul_le_mono_pos_r b a (2 ^ (e + s)) H2) Hab). lia.
Qed.

Lemma to_int_scaled s x :
  0 ≤ Fnum x → 0 ≤ s → 0 ≤ Fexp x + s → to_int x = scaled s x / 2 ^ s.
Proof.
  intros Hm Hs He. unfold to_int, scaled.
  assert (H2s : 0 < 2 ^ s) by (apply Z.pow_pos_nonneg; lia).
  destruct (Z.leb_spec 0 (Fexp x)) as [H|H].
  - rewrite Z.pow_add_r by lia. rewrite Z.mul_assoc, Z.div_mul by lia. done.
  - assert (H2e : 0 < 2 ^ (- Fexp x)) by (apply Z.pow_pos_nonneg; lia).
    rewrite Z.quot_div_nonneg by lia.
    assert (H2 : 0 < 2 ^ (Fexp x + s)) by (apply Z.pow_pos_nonneg; lia).
    replace (2 ^ s) with (2 ^ (- Fexp x) * 2 ^ (Fexp x + s))
      by (rewrite <- Z.pow_add_r by lia; f_equal; lia).
    rewrite Z.div_mul_cancel_r; [done|lia|lia].
Qed.

Lemma of_int_nonneg n : 0 ≤ n → 0 ≤ Fnum (of_int n) ∧ 0 ≤ Fexp (of_int n).
Proof.
  intros Hn. unfold of_int. split.
  - by apply round_Fnum_nonneg.
  - by apply round_Fexp.
Qed.

Lemma rand_Float64_units n :
  0 ≤ n →
  0 ≤ Fnum (rand_Float64 n) ∧ -63 ≤ Fexp (rand_Float64 n) ∧
  scaled 63 (rand_Float64 n) = to_int (of_int n).
Proof.
  intros Hn. destruct (of_int_nonneg n Hn) as [Hm He].
  unfold rand_Float64, div_pow2, scaled, to_int. simpl.
  split; [done|]. split; [lia|].
  destruct (Z.leb_spec 0 (Fexp (of_int n))); [|lia]. do 2 f_equal. lia.
Qed.

(** The duration before truncation, in units of [2^-63] ns: it is on the
    side of every number of 53 bits where the exact sum is. *)
Lemma GetBackoffDuration_units fused attempt n :
  0 ≤ attempt → 0 ≤ n →
  let T := to_int (of_int n) * to_int (of_int attempt) in
  ∃ D,
    GetBackoffDuration fused attempt n = (if maxBackoff * 2 ^ 63 <? D then maxBackoff else D / 2 ^ 63) ∧
    (∀ c, 0 ≤ c → c + baseBackoff ≤ 2 ^ 53 → c * 2 ^ 63 ≤ T →
          (c + baseBackoff) * 2 ^ 63 ≤ D) ∧
    (∀ c, 0 ≤ c → c + baseBackoff ≤ 2 ^ 53 → T ≤ c * 2 ^ 63 →
          D ≤ (c + baseBackoff) * 2 ^ 63).
Proof.
  intros Ha Hn T.
  destruct (rand_Float64_units n Hn) as (Hfm & Hfe & Hfu).
  destruct (of_int_nonneg attempt Ha) as [Ham Hae].
  set (f := rand_Float64 n) in *. set (A := of_int attempt) in *.
  assert (HbaseF : of_int baseBackoff = Float baseBackoff 0)
    by (apply of_int_small; vm_compute; split; [discriminate|reflexivity]).
  assert (HmaxF : of_int maxBackoff = Float maxBackoff 0)
    by (apply of_int_small; vm_compute; split; [discriminate|reflexivity]).
  assert (HA : to_int A = Fnum A * 2 ^ Fexp A).
  { unfold to_int. by destruct (Z.leb_spec 0 (Fexp A)); [|lia]. }
  set (X := Float (Fnum f * Fnum A) (Fexp f + Fexp A)).
  assert (HXm : 0 ≤ Fnum X) by (by apply Z.mul_nonneg_nonneg).
  assert (HXe : 0 ≤ Fexp X + 63) by (unfold X; cbn [Fexp Fnum]; lia).
  assert (HXu : scaled 63 X = T).
  { unfold T. rewrite <- Hfu, HA. unfold scaled, X. cbn [Fexp Fnum].
    replace (Fexp f + Fexp A + 63) with ((Fexp f + 63) + Fexp A) by lia.
    rewrite Z.pow_add_r by lia. ring. }
  set (basef := Float baseBackoff 0).
  assert (Hbu : scaled 63 basef = baseBackoff * 2 ^ 63) by done.
  set (S := if fused
            then Float (align X (Z.min (Fexp X) (Fexp basef))
                        + align basef (Z.min (Fexp X) (Fexp basef)))
                   (Z.min (Fexp X) (Fexp basef))
            else Float (align (round X) (Z.min (Fexp (round X)) (Fexp basef))
                        + align basef (Z.min (Fexp (round X)) (Fexp basef)))
                   (Z.min (Fexp (round X)) (Fexp basef))).
  assert (HPm : 0 ≤ Fnum (round X)) by (by apply round_Fnum_nonneg).
  assert (HPe : -63 ≤ Fexp (round X)) by (apply round_Fexp; [done|lia]).
  assert (HSm : 0 ≤ Fnum S).
  { unfold S, align. assert (0 ≤ baseBackoff) by (vm_compute; discriminate).
    destruct fused; cbn [Fexp Fnum];
      apply Z.add_nonneg_nonneg; apply Z.mul_nonneg_nonneg; try done;
      apply Z.pow_nonneg; lia. }
  assert (HSe : 0 ≤ Fexp S + 63).
  { unfold S, basef. destruct fused; cbn [Fexp Fnum]; lia. }
  assert (HSu : scaled 63 S = (if fused then T else scaled 63 (round X)) + baseBackoff * 2 ^ 63).
  { unfold S. destruct fused.
    - rewrite (scaled_sum 63 X basef) by (unfold basef; cbn [Fexp Fnum]; lia).
      by rewrite HXu, Hbu.
    - rewrite (scaled_sum 63 (round X) basef) by (unfold basef; cbn [Fexp Fnum]; lia).
      by rewrite Hbu. }
  assert (Hdur : GetBackoffDuration fused attempt n
                 = if ltb (Float maxBackoff 0) (round S) then maxBackoff else to_int (round S)).
  { unfold GetBackoffDuration. rewrite HbaseF, HmaxF. fold f A basef.
    destruct fused; reflexivity. }
  assert (HZm : 0 ≤ Fnum (round S)) by (by apply round_Fnum_nonneg).
  assert (HZe : -63 ≤ Fexp (round S)) by (apply round_Fexp; [done|lia]).
  assert (Hb0 : 0 ≤ baseBackoff) by (vm_compute; discriminate).
  exists (scaled 63 (round S)). split; [|split].
  - rewrite Hdur. rewrite (ltb_scaled 63) by (cbn [Fexp Fnum]; lia).
    rewrite (to_int_scaled 63) by lia. done.
  - intros c Hc0 Hc Hle.
    apply round_ge; [done|done|lia|lia|].
    rewrite HSu. destruct fused; [lia|].
    assert (c * 2 ^ 63 ≤ scaled 63 (round X)); [|lia].
    apply round_ge; [done|done|lia|lia|by rewrite HXu].
  - intros c Hc0 Hc Hle.
    apply round_le; [done|done|lia|lia|].
    rewrite HSu. destruct fused; [lia|].
    assert (scaled 63 (round X) ≤ c * 2 ^ 63); [|lia].
    apply round_le; [done|done|lia|lia|by rewrite HXu].
Qed.

Lemma GetBackoffDuration_bracket fused attempt n :
  0 ≤ attempt < 2 ^ 53 → 0 ≤ n →
  let jitter := attempt * to_int (of_int n) in
  Z.min maxBackoff (baseBackoff + jitter / 2 ^ 63) ≤ GetBackoffDuration fused attempt n ∧
  GetBackoffDuration fused attempt n
  ≤ Z.min maxBackoff (baseBackoff + (jitter + 2 ^ 63 - 1) / 2 ^ 63).
Proof.
  intros Ha Hn jitter.
  destruct (GetBackoffDuration_units fused attempt n) as (D & -> & Hlo & Hhi); [lia|done|].
  assert (HA : to_int (of_int attempt) = attempt).
  { rewrite of_int_small by done. unfold to_int. simpl. lia. }
  rewrite HA in Hlo, Hhi. rewrite (Z.mul_comm (to_int (of_int n))) in Hlo, Hhi.
  fold jitter in Hlo, Hhi.
  assert (HN : 0 ≤ to_int (of_int n)).
  { destruct (of_int_nonneg n Hn) as [Hm He]. unfold to_int.
    destruct (Z.leb_spec 0 (Fexp (of_int n))); [|lia].
    apply Z.mul_nonneg_nonneg; [done|]. apply Z.pow_nonneg. lia. }
  assert (Hj : 0 ≤ jitter) by (unfold jitter; apply Z.mul_nonneg_nonneg; lia).
  assert (Hbase : baseBackoff = 50000000) by reflexivity.
  assert (Hmax : maxBackoff = 3000000000) by reflexivity.
  assert (Hmax53 : maxBackoff ≤ 2 ^ 53) by (vm_compute; discriminate).
  set (P := 2 ^ 63) in *.
  assert (HP : 0 < P) by (unfold P; lia).
  pose proof (Z.div_mod jitter P ltac:(lia)) as Hdm.
  pose proof (Z.mod_pos_bound jitter P HP) as Hr.
  pose proof (Z.div_mod (jitter + P - 1) P ltac:(lia)) as Hdm'.
  pose proof (Z.mod_pos_bound (jitter + P - 1) P HP) as Hr'.
  assert (Hq : 0 ≤ jitter / P) by (apply Z.div_pos; lia).
  assert (Hq' : 0 ≤ (jitter + P - 1) / P) by (apply Z.div_pos; lia).
  split.
  - set (c := Z.min (jitter / P) (maxBackoff - baseBackoff)).
    assert (Hc : (c + baseBackoff) * P ≤ D).
    { apply Hlo; [lia|lia|]. assert (c * P ≤ jitter / P * P) by nia. lia. }
    destruct (Z.ltb_spec (maxBackoff * P) D) as [Hbig|Hsmall]; [lia|].
    assert (c + baseBackoff ≤ D / P) by (apply Z.div_le_lower_bound; lia).
    lia.
  - destruct (Z.ltb_spec (maxBackoff * P) D) as [Hbig|Hsmall].
    + apply Z.min_glb; [lia|].
      destruct (Z.le_gt_cases maxBackoff (baseBackoff + (jitter + P - 1) / P)); [done|].
      exfalso.
      assert (D ≤ ((jitter + P - 1) / P + baseBackoff) * P); [|nia].
      apply Hhi; [lia|lia|]. lia.
    + assert (D / P ≤ maxBackoff) by (apply Z.div_le_upper_bound; lia).
      apply Z.min_glb; [done|].
      destruct (Z.le_gt_cases maxBackoff (baseBackoff + (jitter + P - 1) / P)); [lia|].
      assert (D ≤ ((jitter + P - 1) / P + baseBackoff) * P) by (apply Hhi; lia).
      assert (D / P ≤ (jitter + P - 1) / P + baseBackoff); [|lia].
      apply Z.div_le_upper_bound; lia.
Qed.

Lemma GetBackoffDuration_bounds fused attempt n :
  0 ≤ attempt → 0 ≤ n → baseBackoff ≤ GetBackoffDuration fused attempt n ≤ maxBackoff.
Proof.
  intros Ha Hn.
  destruct (GetBackoffDuration_units fused attempt n Ha Hn) as (D & -> & Hlo & _).
  assert (Hbase : baseBackoff = 50000000) by reflexivity.
  assert (Hmax : maxBackoff = 3000000000) by reflexivity.
  assert (Hb53 : baseBackoff ≤ 2 ^ 53) by (vm_compute; discriminate).
  set (P := 2 ^ 63) in *.
  assert (HP : 0 < P) by (unfold P; lia).
  assert (HD : (0 + baseBackoff) * P ≤ D).
  { apply Hlo; [lia|lia|]. destruct (of_int_nonneg n Hn), (of_int_nonneg attempt Ha).
    unfold to_int.
    destruct (Z.leb_spec 0 (Fexp (of_int n))); [|lia].
    destruct (Z.leb_spec 0 (Fexp (of_int attempt))); [|lia].
    assert (0 ≤ 2 ^ Fexp (of_int n)) by (apply Z.pow_nonneg; lia).
    assert (0 ≤ 2 ^ Fexp (of_int attempt)) by (apply Z.pow_nonneg; lia).
    assert (0 ≤ Fnum (of_int n) * 2 ^ Fexp (of_int n)) by (by apply Z.mul_nonneg_nonneg).
    assert (0 ≤ Fnum (of_int attempt) * 2 ^ Fexp (of_int attempt))
      by (by apply Z.mul_nonneg_nonneg).
    nia. }
  destruct (Z.ltb_spec (maxBackoff * P) D) as [Hbig|Hsmall]; [lia|].
  split.
  - apply Z.div_le_lower_bound; lia.
  - apply Z.div_le_upper_bound; lia.
Qed.

(** A draw of [r.Int63()] gives a number that is 1 at most. *)
Lemma rand_Float64_le_1 n : 0 ≤ n < 2 ^ 63 → to_int (of_int n) ≤ 2 ^ 63.
Proof.
  intros [H0 H1].
  destruct (of_int_nonneg n H0) as [Hm He].
  rewrite (to_int_scaled 0) by lia. rewrite Z.div_1_r.
  replace (2 ^ 63) with (2 ^ 53 * 2 ^ 10) by reflexivity.
  apply round_le; [done|simpl; lia|lia|lia|]. unfold scaled. simpl. lia.
Qed.

Lemma round_shift_near m k :
  0 ≤ m → 0 < k →
  m - 2 ^ (k - 1) ≤ round_shift m k * 2 ^ k ≤ m + 2 ^ (k - 1).
Proof.
  intros Hm Hk. unfold round_shift.
  assert (Hh : 0 < 2 ^ (k - 1)) by (apply Z.pow_pos_nonneg; lia).
  assert (H2 : 2 ^ k = 2 * 2 ^ (k - 1)).
  { replace k with (1 + (k - 1)) at 1 by lia. rewrite Z.pow_add_r by lia. done. }
  pose proof (Z.div_mod m (2 ^ k) ltac:(lia)) as Hdm.
  pose proof (Z.mod_pos_bound m (2 ^ k) ltac:(lia)) as Hr.
  set (q := m / 2 ^ k) in *. set (r := m mod 2 ^ k) in *.
  destruct (Z.ltb_spec (2 ^ (k - 1)) r) as [H|H]; simpl.
  - nia.
  - destruct (Z.eqb_spec r (2 ^ (k - 1))) as [E|E]; simpl.
    + destruct (Z.odd q); nia.
    + nia.
Qed.

Lemma of_int_near n :
  0 ≤ n < 2 ^ 63 → n - 512 ≤ to_int (of_int n) ≤ n + 512.
Proof.
  intros [H0 H1]. unfold of_int, round. cbn [Fnum Fexp]. rewrite Z.abs_eq by done.
  set (k := Z.log2 n + 1 - prec).
  destruct (Z.leb_spec k 0) as [Hk|Hk].
  - unfold to_int. simpl. lia.
  - assert (Hpos : 0 < n).
    { destruct (Z.eq_dec n 0) as [E|E]; [|lia]. subst n. unfold k, prec in Hk. simpl in Hk. lia. }
    assert (Hlog : Z.log2 n < 63) by (apply Z.log2_lt_pow2; lia).
    assert (Hk10 : k ≤ 10) by (unfold k, prec; lia).
    unfold to_int. cbn [Fnum Fexp].
    destruct (Z.leb_spec 0 (0 + k)); [|lia].
    rewrite Z.sgn_pos by done. rewrite Z.add_0_l, Z.mul_1_l.
    pose proof (round_shift_near n k H0 Hk) as Hnear.
    assert (2 ^ (k - 1) ≤ 2 ^ 9) by (apply Z.pow_le_mono_r; lia).
    change (2 ^ 9) with 512 in *. lia.
Qed.

(** ** The client's retry loop *)

(** A format string without ['%'] is the text of the error. *)
Lemma doPrintf_plain (format : list ascii) : ∀ fuel,
  (length format ≤ fuel)%nat →
  (∀ c, In c format → c ≠ "%"%char) →
  Fmt.doPrintf fuel format = format.
Proof.
  induction format as [|c rest IH]; intros fuel Hlen Hplain.
  - by destruct fuel.
  - destruct fuel as [|fuel]; [simpl in Hlen; lia|]. simpl.
    destruct (Ascii.eqb_spec c "%") as [->|_].
    + exfalso. by apply (Hplain "%"%char); [left|].
    + f_equal. apply IH; [simpl in Hlen; lia|].
      intros c' Hc'. apply Hplain. by right.
Qed.

Lemma Sprintf_plain (format : string) :
  (∀ c, In c (list_ascii_of_string format) → c ≠ "%"%char) →
  Fmt.Sprintf format = format.
Proof.
  intros Hplain. unfold Fmt.Sprintf.
  rewrite doPrintf_plain by done. apply string_of_list_ascii_of_string.
Qed.

Lemma retry_last fused server draw :
  retry fused server draw [maxRetryAttempts]
  = (outcome (server maxRetryAttempts), [EvDo maxRetryAttempts]).
Proof.
  simpl. destruct (server maxRetryAttempts) as [e|e|status code message]; try done.
  simpl. destruct (String.eqb status "ok"); simpl; [done|].
  by rewrite orb_true_r.
Qed.

Lemma retry_step fused server draw i rest :
  i ≠ maxRetryAttempts →
  retry fused server draw (i :: rest) =
  if retryable (server i)
  then ((retry fused server draw rest).1,
        EvDo i :: EvSleep (GetBackoffDuration fused i (draw i))
          :: (retry fused server draw rest).2)
  else (outcome (server i), [EvDo i]).
Proof.
  intros Hi. apply Z.eqb_neq in Hi. simpl.
  destruct (server i) as [e|e|status code message]; try done.
  simpl. rewrite Hi, orb_false_r.
  destruct (String.eqb status "ok"); simpl; [done|].
  destruct (code =? InternalServerErrorCode); simpl; [|done].
  by destruct (retry fused server draw rest).
Qed.

(** C8. A call that passes the request and authentication checks makes the
    attempts 1, 2, 3 in order and stops at the first one that is not a
    decoded non-ok response with the internal server error code, or at the
    third; it returns what that attempt gave (nil for ok, the error made
    of the message for a non-ok response, the transport or decoding error)
    and sleeps [GetBackoffDuration i] between attempts [i] and [i + 1].  A
    call that fails the checks makes no attempt.  The backoff is linear
    in the attempt number with a random factor: for an attempt number
    [attempt] and a draw [n] of [r.Int63()], it is the smaller of 3 s and
    50 ms plus [attempt * N / 2^63] ns rounded down or up to a whole
    nanosecond, [N] being [n] as a float64 (within 512 of [n], and [n]
    itself below [2^53]); so it is 50 ms plus [attempt] ns at most, and
    every backoff lies between 50 ms and 3 s.  This holds whether or not
    the product and the sum are fused.  The rounding of float64 shows: a
    draw of [1 - 2^-53] at the attempt number 1 gives 50 ms and 1 ns, the
    sum being rounded up to it before the truncation.  The error of a
    non-ok response is [fmt.Errorf] of its message: the message itself
    when it holds no ['%'], and the message as [fmt] formats it when it
    does. *)
Theorem getHTTPData_retries (fused : bool) (newRequest : option error) (auth : string)
    (server : Z → attempt) (draw : Z → Z) :
  let d1 := GetBackoffDuration fused 1 (draw 1) in
  let d2 := GetBackoffDuration fused 2 (draw 2) in
  let run := getHTTPData fused newRequest auth server draw in
  (newRequest = None → auth ≠ ""%string →
     run =
     if retryable (server 1) then
       if retryable (server 2)
       then (outcome (server 3), [EvDo 1; EvSleep d1; EvDo 2; EvSleep d2; EvDo 3])
       else (outcome (server 2), [EvDo 1; EvSleep d1; EvDo 2])
     else (outcome (server 1), [EvDo 1])) ∧
  (∀ e, newRequest = Some e → run = (Some e, [])) ∧
  (newRequest = None → auth = ""%string → ∃ e, run = (Some e, [])) ∧
  (length (List.filter is_Do run.2) ≤ 3)%nat ∧
  (∀ a, retryable a = true ↔
        ∃ status message,
          a = Decoded status InternalServerErrorCode message ∧ status ≠ "ok"%string) ∧
  ((∀ i, 0 ≤ draw i < 2 ^ 63) →
     ∀ d, EvSleep d ∈ run.2 → 50 * 1000000 ≤ d ≤ 50 * 1000000 + 2) ∧
  (∀ attempt n, 0 ≤ attempt → 0 ≤ n →
     50 * 1000000 ≤ GetBackoffDuration fused attempt n ≤ 3 * 1000000000) ∧
  (∀ n, 0 ≤ n < 2 ^ 63 →
     n - 512 ≤ to_int (of_int n) ≤ n + 512 ∧
     to_int (of_int n) ≤ 2 ^ 63 ∧
     (n < 2 ^ 53 → to_int (of_int n) = n)) ∧
  (∀ attempt n, 0 ≤ attempt < 2 ^ 53 → 0 ≤ n →
     let jitter := attempt * to_int (of_int n) in
     Z.min (3 * 1000000000) (50 * 1000000 + jitter / 2 ^ 63)
     ≤ GetBackoffDuration fused attempt n ∧
     GetBackoffDuration fused attempt n
     ≤ Z.min (3 * 1000000000) (50 * 1000000 + (jitter + 2 ^ 63 - 1) / 2 ^ 63)) ∧
  (∀ attempt n, 0 ≤ attempt < 2 ^ 53 → 0 ≤ n < 2 ^ 63 →
     GetBackoffDuration fused attempt n ≤ 50 * 1000000 + attempt) ∧
  GetBackoffDuration fused 1 (2 ^ 63 - 1024) = 50 * 1000000 + 1 ∧
  (∀ message, (∀ c, In c (list_ascii_of_string message) → c ≠ "%"%char) →
     outcome (Decoded "error" NotFoundCode message) = Some (Errorf message)) ∧
  outcome (Decoded "error" NotFoundCode "100%") = Some (Errorf "100%!(NOVERB)").
Proof.
  intros d1 d2 run.
  assert (Hrun : retry fused server draw (seqZ 1 maxRetryAttempts) =
     if retryable (server 1) then
       if retryable (server 2)
       then (outcome (server 3), [EvDo 1; EvSleep d1; EvDo 2; EvSleep d2; EvDo 3])
       else (outcome (server 2), [EvDo 1; EvSleep d1; EvDo 2])
     else (outcome (server 1), [EvDo 1])).
  { change (seqZ 1 maxRetryAttempts) with [1; 2; maxRetryAttempts].
    rewrite retry_step by done. rewrite retry_step by done. rewrite retry_last.
    destruct (retryable (server 1)); [|done].
    by destruct (retryable (server 2)). }
  assert (Hb : ∀ attempt n, 0 ≤ attempt → 0 ≤ n →
             50 * 1000000 ≤ GetBackoffDuration fused attempt n ≤ 3 * 1000000000).
  { intros attempt n Ha Hn. apply (GetBackoffDuration_bounds fused attempt n Ha Hn). }
  assert (Hbr : ∀ attempt n, 0 ≤ attempt < 2 ^ 53 → 0 ≤ n →
     let jitter := attempt * to_int (of_int n) in
     Z.min (3 * 1000000000) (50 * 1000000 + jitter / 2 ^ 63)
     ≤ GetBackoffDuration fused attempt n ∧
     GetBackoffDuration fused attempt n
     ≤ Z.min (3 * 1000000000) (50 * 1000000 + (jitter + 2 ^ 63 - 1) / 2 ^ 63)).
  { intros attempt n Ha Hn. apply (GetBackoffDuration_bracket fused attempt n Ha Hn). }
  assert (Hup : ∀ attempt n, 0 ≤ attempt < 2 ^ 53 → 0 ≤ n < 2 ^ 63 →
     GetBackoffDuration fused attempt n ≤ 50 * 1000000 + attempt).
  { intros attempt n Ha Hn. destruct (Hbr attempt n Ha ltac:(lia)) as [_ Hle].
    cbv zeta in Hle.
    pose proof (rand_Float64_le_1 n Hn) as H1.
    assert (HN : 0 ≤ to_int (of_int n)).
    { pose proof (of_int_near n Hn). destruct (Z.le_gt_cases 512 n); [lia|].
      rewrite of_int_small by lia. unfold to_int. simpl. lia. }
    set (P := 2 ^ 63) in *. assert (HP : 0 < P) by (unfold P; lia).
    assert ((attempt * to_int (of_int n) + P - 1) / P < attempt + 1).
    { apply Z.div_lt_upper_bound; [done|]. nia. }
    lia. }
  assert (Hcases : run = retry fused server draw (seqZ 1 maxRetryAttempts)
                   ∨ ∃ e, run = (Some e, [])).
  { unfold run, getHTTPData. destruct newRequest as [e|]; [right; by exists e|].
    destruct (String.eqb auth ""); [right; by eexists|by left]. }
  split; [|split; [|split; [|split; [|split; [|split; [|split; [|split; [|split;
    [|split; [|split; [|split]]]]]]]]]]].
  - intros -> Hauth. unfold run, getHTTPData.
    apply String.eqb_neq in Hauth. rewrite Hauth. exact Hrun.
  - intros e ->. done.
  - intros -> ->. simpl. by eexists.
  - destruct Hcases as [->|[e ->]]; [|simpl; lia].
    rewrite Hrun. destruct (retryable (server 1)); [|simpl; lia].
    destruct (retryable (server 2)); simpl; lia.
  - intros a. split.
    + destruct a as [e|e|status code message]; simpl; try done.
      intros [Hs Hc]%andb_true_iff. apply Z.eqb_eq in Hc as ->.
      exists status, message. split; [done|].
      apply negb_true_iff in Hs. by apply String.eqb_neq.
    + intros (status & message & -> & Hs). simpl.
      apply String.eqb_neq in Hs. by rewrite Hs.
  - intros Hdraw d Hd. destruct Hcases as [H|[e H]]; rewrite H in Hd.
    + rewrite Hrun in Hd.
      assert (H1 : 50 * 1000000 ≤ d1 ≤ 50 * 1000000 + 2).
      { split; [apply Hb; [lia|apply Hdraw]|].
        pose proof (Hup 1 (draw 1) ltac:(lia) (Hdraw 1)). unfold d1. lia. }
      assert (H2 : 50 * 1000000 ≤ d2 ≤ 50 * 1000000 + 2).
      { split; [apply Hb; [lia|apply Hdraw]|].
        pose proof (Hup 2 (draw 2) ltac:(lia) (Hdraw 2)). unfold d2. lia. }
      destruct (retryable (server 1)); [destruct (retryable (server 2))|]; simpl in Hd;
        repeat (apply elem_of_cons in Hd as [Hd|Hd];
                [first [discriminate Hd | injection Hd as ->; assumption]|]);
        by apply elem_of_nil in Hd.
    + by apply elem_of_nil in Hd.
  - exact Hb.
  - intros n Hn. split; [by apply of_int_near|]. split; [by apply rand_Float64_le_1|].
    intros Hsmall. rewrite of_int_small by lia. unfold to_int. simpl. lia.
  - exact Hbr.
  - exact Hup.
  - destruct fused; vm_compute; reflexivity.
  - intros message Hplain. simpl. by rewrite Sprintf_plain.
  - vm_compute. reflexivity.
Qed.

(** A draw just below 1 and the attempt number 1: the sum [5e7 + 1 - 2^-53]
    rounds to [5e7 + 1], and the backoff is one nanosecond above 50 ms;
    the exact sum would be truncated to 50 ms. *)
Example GetBackoffDuration_rounds_up :
  rand_Float64 (2 ^ 63 - 1024) = Float (2 ^ 53 - 1) (-53) ∧
  GetBackoffDuration false 1 (2 ^ 63 - 1024) = 50000001 ∧
  GetBackoffDuration true 1 (2 ^ 63 - 1024) = 50000001 ∧
  GetBackoffDuration false 2 (2 ^ 62) = 50000001 ∧
  GetBackoffDuration false 1 0 = 50000000 ∧
  GetBackoffDuration false 6000000000 (2 ^ 62) = 3000000000.
Proof. repeat split; vm_compute; reflexivity. Qed.

(** Conversions of integers above [2^53]: to the nearest float64, a tie
    going to the even one. *)
Example of_int_ties :
  to_int (of_int (2 ^ 53 + 1)) = 2 ^ 53 ∧
  to_int (of_int (2 ^ 53 + 3)) = 2 ^ 53 + 4 ∧
  to_int (of_int (2 ^ 63 - 512)) = 2 ^ 63 ∧
  to_int (of_int (2 ^ 63 - 513)) = 2 ^ 63 - 1024.
Proof. repeat split; vm_compute; reflexivity. Qed.

(** Outside the attempt numbers the backoff can leave the interval: the
    bound needs a non-negative attempt number. *)
Lemma GetBackoffDuration_negative_attempt :
  GetBackoffDuration false (-100000000) (2 ^ 62) = 0 ∧
  GetBackoffDuration true (-100000000) (2 ^ 62) = 0.
Proof. split; vm_compute; reflexivity. Qed.

(** Three internal server errors and draws of one half: three attempts,
    sleeps of 50 ms and of 50 ms and 1 ns, and the message of the third
    response. *)
Example getHTTPData_three_attempts :
  getHTTPData false None "0utoken"
    (λ _, Decoded "error" InternalServerErrorCode "Internal Server Error") (λ _, 2 ^ 62)
  = (Some (Errorf "Internal Server Error"),
     [EvDo 1; EvSleep 50000000; EvDo 2; EvSleep 50000001; EvDo 3]).
Proof. vm_compute. reflexivity. Qed.

(** The message of the response is the format string of [fmt.Errorf]: a
    message with a ['%'] does not come back as it is. *)
Example getHTTPData_message_is_format :
  getHTTPData false None "0utoken" (λ _, Decoded "error" NotFoundCode "100% wrong %s") (λ _, 0)
  = (Some (Errorf "100%!w(MISSING)rong %!s(MISSING)"), [EvDo 1]) ∧
  Fmt.Sprintf "50%% done" = "50% done"%string ∧
  Fmt.Sprintf "done 100%" = "done 100%!(NOVERB)"%string ∧
  Fmt.Sprintf "%[1]d %*d" = "%!d(BADINDEX) %!(BADWIDTH)%!d(MISSING)"%string.
Proof. repeat split; vm_compute; reflexivity. Qed.

End Rounding.

(** ** The refresh daemon's update cycle *)
Import Daemon.

Lemma steps_refl st : steps st st [].
Proof. split; [by rewrite app_nil_r|done]. Qed.

Lemma steps_trans st1 st2 st3 evs1 evs2 :
  steps st1 st2 evs1 → steps st2 st3 evs2 → steps st1 st3 (evs1 ++ evs2).
Proof.
  intros [H1 F1] [H2 F2]. split.
  - by rewrite H2, H1, app_assoc.
  - by rewrite forallb_app, F1, F2.
Qed.

Lemma steps_emit ev st : is_lock_event ev = false → steps st (emit ev st) [ev].
Proof. intros H. split; [done|]. simpl. by rewrite H. Qed.

Lemma steps_same_trace st st' : trace st' = trace st → steps st st' [].
Proof. intros H. split; [by rewrite app_nil_r|done]. Qed.

Lemma Keys_Get_steps st : ∃ evs, steps st (Keys_Get st).2 evs.
Proof.
  exists [EvRegisterGet]. unfold Keys_Get.
  destruct (registerFile (emit EvRegisterGet st)); by apply steps_emit.
Qed.

Lemma Keys_Remove_steps keyID st : ∃ evs, steps st (Keys_Remove keyID st) evs.
Proof. exists [EvRegisterRemove keyID]. by split. Qed.

Lemma processKey_steps env keyID st : ∃ evs, steps st (processKey env keyID st).2 evs.
Proof.
  unfold processKey.
  pose proof (steps_emit (EvNetworkGetKey keyID) st eq_refl) as H0.
  destruct (env_NetworkGetKey env keyID) as [key|e|w]; simpl.
  - pose proof (steps_emit (EvWriteKeyFile keyID) (emit (EvNetworkGetKey keyID) st) eq_refl) as H1.
    destruct (env_WriteKeyFile env keyID); simpl.
    + eexists. eapply steps_trans; [exact H0|exact H1].
    + eexists. eapply steps_trans; [exact H0|].
      eapply steps_trans; [exact H1|]. by apply steps_same_trace.
  - destruct (_ || _).
    + destruct (Keys_Remove_steps keyID (emit (EvNetworkGetKey keyID) st)) as [evs H1].
      eexists. eapply steps_trans; [exact H0|exact H1].
    + by eexists.
  - by eexists.
Qed.

Lemma process_step_steps env st k : ∃ evs, steps st (process_step env st k) evs.
Proof.
  unfold process_step. destruct (processKey_steps env k st) as [evs H].
  destruct (processKey env k st) as [[e|] st']; simpl in H; [|by exists evs].
  exists (evs ++ []). eapply steps_trans; [exact H|]. by apply steps_same_trace.
Qed.

Lemma process_loop_steps env ks : ∀ st,
  ∃ evs, steps st (fold_left (process_step env) ks st) evs.
Proof.
  induction ks as [|k ks IH]; intros st; cbn [fold_left].
  - exists []. apply steps_refl.
  - destruct (process_step_steps env st k) as [evs1 H1].
    destruct (IH (process_step env st k)) as [evs2 H2].
    eexists. eapply steps_trans; [exact H1|exact H2].
Qed.

Lemma scan_step_steps keyMap st keyID : ∃ evs, steps st (scan_step (keyMap, st) keyID).2 evs.
Proof.
  unfold scan_step. destruct (keyMap !! keyID).
  - unfold CacheGetKey.
    destruct (keysDir (emit (EvCacheGetKey keyID) st) !! keyID); simpl;
      exists [EvCacheGetKey keyID]; by apply steps_emit.
  - exists [EvDeleteKey keyID]. by split.
Qed.

Lemma scan_loop_steps ks : ∀ keyMap st,
  ∃ evs, steps st (fold_left scan_step ks (keyMap, st)).2 evs.
Proof.
  induction ks as [|k ks IH]; intros keyMap st; cbn [fold_left].
  - exists []. apply steps_refl.
  - destruct (scan_step_steps keyMap st k) as [evs1 H1].
    destruct (scan_step (keyMap, st) k) as [keyMap' st'] eqn:E. simpl in H1.
    destruct (IH keyMap' st') as [evs2 H2].
    eexists. eapply steps_trans; [exact H1|exact H2].
Qed.

Lemma update_body_steps env st : ∃ evs, steps st (update_body env st).2 evs.
Proof.
  unfold update_body.
  destruct (Keys_Get_steps st) as [evs0 H0].
  destruct (Keys_Get st) as [[keyIDs|e|w] st0]; simpl in H0; try by exists evs0.
  pose proof (steps_emit EvReadDir st0 eq_refl) as H1.
  unfold currentRegisteredKeys.
  set (keyMap0 := fold_left _ keyIDs ∅).
  set (names := map fst _).
  destruct (scan_loop_steps names keyMap0 (emit EvReadDir st0)) as [evs2 H2].
  destruct (fold_left scan_step names (keyMap0, emit EvReadDir st0)) as [keyMap st2].
  simpl in H2.
  assert (H02 : steps st st2 (evs0 ++ [EvReadDir] ++ evs2)).
  { eapply steps_trans; [exact H0|]. eapply steps_trans; [exact H1|exact H2]. }
  destruct (0 <? size keyMap)%nat; [|by eexists].
  pose proof (steps_emit (EvGetKeys keyMap) st2 eq_refl) as H3.
  destruct (env_GetKeys env keyMap) as [updatedKeys|e|w]; simpl.
  - destruct (process_loop_steps env updatedKeys (emit (EvGetKeys keyMap) st2)) as [evs4 H4].
    eexists. eapply steps_trans; [exact H02|]. eapply steps_trans; [exact H3|exact H4].
  - eexists. eapply steps_trans; [exact H02|exact H3].
  - eexists. eapply steps_trans; [exact H02|exact H3].
Qed.

Lemma held_at_no_lock_events held evs :
  forallb (λ ev, negb (is_lock_event ev)) evs = true →
  held_at held evs = map (λ ev, (ev, held)) evs.
Proof.
  induction evs as [|ev evs IH]; simpl; [done|].
  intros [Hev Hevs]%andb_true_iff. rewrite <- (IH Hevs).
  by destruct ev.
Qed.

Lemma held_at_app held evs1 evs2 :
  forallb (λ ev, negb (is_lock_event ev)) evs1 = true →
  held_at held (evs1 ++ evs2) = held_at held evs1 ++ held_at held evs2.
Proof.
  induction evs1 as [|ev evs IH]; simpl; [done|].
  intros [Hev Hevs]%andb_true_iff. destruct ev; simpl in *; try done;
    by rewrite (IH Hevs).
Qed.

Lemma forallb_held body :
  forallb (λ p : Event * bool, negb (is_network p.1 && p.2)) (map (λ ev, (ev, true)) body)
  = forallb (λ ev, negb (is_network ev)) body.
Proof.
  induction body as [|ev body IH]; simpl; [done|]. by rewrite IH, andb_true_r.
Qed.

(** C9, as amended.  When the lock cannot be taken the cycle does nothing
    and returns the error.  Otherwise the events of the cycle are the lock,
    the events of the body and, last, the unlock deferred to the return:
    the lock is held at every event of the body, the list-changed request
    and every per-key fetch included, so a cycle keeps its network calls
    off the lock only by making none. *)
Theorem update_holds_lock (env : Env) (st : State) :
  (∀ e, env_Lock env = Some e → update env st = (Err e, st)) ∧
  (env_Lock env = None →
     ∃ body,
       trace (update env st).2 = trace st ++ EvLock :: body ++ [EvUnlock] ∧
       forallb (λ ev, negb (is_lock_event ev)) body = true ∧
       held_at false (EvLock :: body ++ [EvUnlock])
       = (EvLock, false) :: map (λ ev, (ev, true)) body ++ [(EvUnlock, true)] ∧
       locked (update env st).2 = false ∧
       (lock_free_network (EvLock :: body ++ [EvUnlock]) = true ↔
        forallb (λ ev, negb (is_network ev)) body = true)).
Proof.
  split.
  - intros e He. unfold update. by rewrite He.
  - intros HL. unfold update. rewrite HL.
    destruct (update_body_steps env (emit EvLock (set_locked true st))) as [body [Ht Hf]].
    destruct (update_body env (emit EvLock (set_locked true st))) as [r st'].
    simpl in Ht. exists body. simpl.
    assert (Hheld : held_at true (body ++ [EvUnlock])
                    = map (λ ev, (ev, true)) body ++ [(EvUnlock, true)]).
    { rewrite held_at_app by done. by rewrite held_at_no_lock_events. }
    split; [by rewrite Ht, <- !app_assoc|].
    split; [done|]. split; [by rewrite Hheld|]. split; [done|].
    unfold lock_free_network. simpl. rewrite Hheld, forallb_app. simpl.
    rewrite andb_true_r. by rewrite forallb_held.
Qed.

(** C9, the claim as stated fails on a cycle with one registered key that
    is not cached yet: the list-changed request and the fetch of the key
    both happen between the lock and the unlock. *)
Lemma update_network_under_lock :
  let env := mkEnv None (λ _, Ok ["testkey"%string]) (λ _, Ok Sample.key0) (λ _, None) in
  let st := mkState (Some ["testkey"%string]) ∅ false 0 [] in
  trace (update env st).2
  = [EvLock; EvRegisterGet; EvReadDir; EvGetKeys {["testkey"%string := ""%string]};
     EvNetworkGetKey "testkey"; EvWriteKeyFile "testkey"; EvUnlock] ∧
  map snd (held_at false (trace (update env st).2))
  = [false; true; true; true; true; true; true] ∧
  lock_free_network (trace (update env st).2) = false.
Proof. cbv zeta. repeat split; vm_compute; reflexivity. Qed.

(** * Further properties of the code *)

(** Case analysis on the first comparison of the goal. *)
Ltac case_Zeqb :=
  match goal with |- context [?x =? ?y] => destruct (Z.eqb_spec x y) end.
Ltac case_Seqb :=
  match goal with |- context [String.eqb ?x ?y] => destruct (String.eqb_spec x y) end.

(** ** The JSON names of the enumerations *)

(** X1. [VersionStatus] and [AccessType] are written to JSON and read back
    exactly: [MarshalJSON] gives the bytes [b] for a value [s] if and only
    if [UnmarshalJSON] reads [b] as [s].  So marshalling succeeds on the
    declared values only, unmarshalling on their quoted names only, and
    each undoes the other. *)
Theorem status_and_access_JSON_inverse :
  (∀ (s : VersionStatus) (b : string),
     VersionStatus_MarshalJSON s = Ok b ↔ VersionStatus_UnmarshalJSON b = Ok s) ∧
  (∀ (s : AccessType) (b : string),
     AccessType_MarshalJSON s = Ok b ↔ AccessType_UnmarshalJSON b = Ok s).
Proof.
  split; intros s b; split.
  - unfold VersionStatus_MarshalJSON.
    repeat (case_Zeqb; [subst s; intros [= <-]; reflexivity|]). done.
  - unfold VersionStatus_UnmarshalJSON.
    repeat (case_Seqb; [subst b; intros [= <-]; reflexivity|]). done.
  - unfold AccessType_MarshalJSON.
    repeat (case_Zeqb; [subst s; intros [= <-]; reflexivity|]). done.
  - unfold AccessType_UnmarshalJSON.
    repeat (case_Seqb; [subst b; intros [= <-]; reflexivity|]). done.
Qed.

(** X2. [PrincipalType] is read leniently and written strictly: what
    [MarshalJSON] writes is read back as the same type, every other input
    is read without error as [Unknown], and [Unknown] (like any type that
    is not declared) cannot be written: an ACL entry read with a type this
    version does not know is refused when it is marshalled again. *)
Theorem PrincipalType_JSON_lenient (b : string) :
  (∀ s, PrincipalType_MarshalJSON s = Ok b → PrincipalType_UnmarshalJSON b = s) ∧
  ((∀ s, PrincipalType_MarshalJSON s ≠ Ok b) →
     PrincipalType_UnmarshalJSON b = Unknown ∧
     PrincipalType_MarshalJSON (PrincipalType_UnmarshalJSON b)
     = Err (invalidTypeError "PrincipalType")).
Proof.
  split.
  - intros s. unfold PrincipalType_MarshalJSON.
    repeat (case_Zeqb; [subst s; intros [= <-]; reflexivity|]). done.
  - intros H. unfold PrincipalType_UnmarshalJSON.
    destruct (String.eqb_spec b (json_Marshal "User")) as [->|?];
      [by destruct (H User)|].
    destruct (String.eqb_spec b (json_Marshal "UserGroup")) as [->|?];
      [by destruct (H UserGroup)|].
    destruct (String.eqb_spec b (json_Marshal "Machine")) as [->|?];
      [by destruct (H Machine)|].
    destruct (String.eqb_spec b (json_Marshal "MachinePrefix")) as [->|?];
      [by destruct (H MachinePrefix)|].
    destruct (String.eqb_spec b (json_Marshal "Service")) as [->|?];
      [by destruct (H Service)|].
    done.
Qed.

(** ** [ACL.Validate] *)

Lemma has_duplicate_spec a : ∀ rest i j,
  has_duplicate i a j rest = true ↔
  ∃ k b, rest !! k = Some b ∧ (j + k)%nat ≠ i ∧ principal a = principal b.
Proof.
  induction rest as [|b rest IH]; intros i j; simpl.
  - split; [done|]. by intros (k & b & H & _).
  - destruct (negb (i =? j)%nat && String.eqb (a_ID a) (a_ID b) && (a_Type a =? a_Type b))
      eqn:Hc.
    + split; [intros _|done]. exists 0%nat, b.
      apply andb_true_iff in Hc as [Hc Ht]. apply andb_true_iff in Hc as [Hij Hid].
      apply negb_true_iff, Nat.eqb_neq in Hij. apply String.eqb_eq in Hid.
      apply Z.eqb_eq in Ht. split; [done|]. split; [lia|]. unfold principal. congruence.
    + rewrite IH. split.
      * intros (k & c & Hk & Hne & Hp). exists (S k), c. split; [done|]. split; [lia|done].
      * intros ([|k] & c & Hk & Hne & Hp); simpl in Hk.
        -- injection Hk as <-. unfold principal in Hp.
           assert (Ht : a_Type a = a_Type b) by congruence.
           assert (Hid : a_ID a = a_ID b) by congruence.
           rewrite Ht, Hid, String.eqb_refl, Z.eqb_refl, !andb_true_r in Hc.
           apply negb_false_iff, Nat.eqb_eq in Hc. lia.
        -- exists k, c. split; [done|]. split; [lia|done].
Qed.

Lemma ACL_Validate_range_None acl : ∀ rest i,
  ACL_Validate_range acl i rest = None ↔
  ∀ k a, rest !! k = Some a →
    a_AccessType a ≠ None_ ∧ has_duplicate (i + k) a 0 acl = false.
Proof.
  induction rest as [|a rest IH]; intros i; simpl.
  - split; [|done]. intros _ k a. by rewrite lookup_nil.
  - destruct (Z.eqb_spec (a_AccessType a) None_) as [Hn|Hn].
    + split; [done|]. intros H. by destruct (H 0%nat a eq_refl).
    + destruct (has_duplicate i a 0 acl) eqn:Hd.
      * split; [done|]. intros H. destruct (H 0%nat a eq_refl) as [_ H'].
        rewrite Nat.add_0_r in H'. congruence.
      * rewrite IH. split.
        -- intros H [|k] b Hk; simpl in Hk.
           ++ simplify_eq. by rewrite Nat.add_0_r.
           ++ replace (i + S k)%nat with (S i + k)%nat by lia. by apply H.
        -- intros H k b Hk. replace (S i + k)%nat with (i + S k)%nat by lia. by apply H.
Qed.

(** [ACL.Validate] accepts exactly the lists without a None access and
    without a repeated principal. *)
Lemma ACL_Validate_None_iff acl :
  ACL_Validate acl = None ↔
  (∀ a, a ∈ acl → a_AccessType a ≠ None_) ∧ unique_principals acl.
Proof.
  unfold ACL_Validate. rewrite ACL_Validate_range_None. split.
  - intros H. split.
    + intros a Ha. apply list_elem_of_lookup in Ha as [k Hk]. by destruct (H k a Hk).
    + apply NoDup_alt. intros i j p Hi Hj.
      rewrite list_lookup_fmap in Hi, Hj.
      destruct (acl !! i) as [a|] eqn:Hai; [|done].
      destruct (acl !! j) as [b|] eqn:Hbj; [|done]. simpl in *. simplify_eq.
      destruct (decide (i = j)) as [|Hne]; [done|]. exfalso.
      destruct (H i a Hai) as [_ Hd]. simpl in Hd.
      assert (has_duplicate i a 0 acl = true) as Ht; [|congruence].
      apply has_duplicate_spec. exists j, b. split; [done|]. split; [simpl; lia|]. unfold principal. congruence.
  - intros [Hn Hu] k a Hk. split; [apply Hn; by eapply list_elem_of_lookup_2|].
    simpl. destruct (has_duplicate k a 0 acl) eqn:Hd; [|done]. exfalso.
    apply has_duplicate_spec in Hd as (j & b & Hj & Hne & Hp). simpl in Hne.
    apply Hne. symmetry.
    apply (NoDup_lookup (principal <$> acl) k j (principal a)); [done| |].
    + by rewrite list_lookup_fmap, Hk.
    + by rewrite list_lookup_fmap, Hj, Hp.
Qed.

Lemma ACL_Validate_range_error acl : ∀ rest i e,
  ACL_Validate_range acl i rest = Some e →
  (e = ErrACLContainsNone ∧ ∃ a, a ∈ rest ∧ a_AccessType a = None_) ∨
  (e = ErrACLDuplicateEntries ∧ ∃ k a, rest !! k = Some a ∧ has_duplicate (i + k) a 0 acl = true).
Proof.
  induction rest as [|a rest IH]; intros i e; simpl; [done|].
  destruct (Z.eqb_spec (a_AccessType a) None_) as [Hn|Hn].
  - intros [= <-]. left. split; [done|]. exists a. split; [left|done].
  - destruct (has_duplicate i a 0 acl) eqn:Hd.
    + intros [= <-]. right. split; [done|]. exists 0%nat, a. by rewrite Nat.add_0_r.
    + intros H. apply IH in H as [(-> & b & Hb & Hbn)|(-> & k & b & Hk & Hkd)].
      * left. split; [done|]. exists b. split; [by right|done].
      * right. split; [done|]. exists (S k), b. split; [done|].
        by replace (i + S k)%nat with (S i + k)%nat by lia.
Qed.

(** X3. [ACL.Validate] returns nil exactly for the lists that hold no entry
    with the None access and no two entries for the same (type, id).  Its
    only errors are [ErrACLContainsNone], which it gives only when some
    entry has the None access, and [ErrACLDuplicateEntries], which it gives
    only when a principal is repeated. *)
Theorem ACL_Validate_accepts (acl : ACL) :
  (ACL_Validate acl = None ↔
     (∀ a, a ∈ acl → a_AccessType a ≠ None_) ∧ unique_principals acl) ∧
  (ACL_Validate acl = Some ErrACLContainsNone → ∃ a, a ∈ acl ∧ a_AccessType a = None_) ∧
  (ACL_Validate acl = Some ErrACLDuplicateEntries → ¬ unique_principals acl) ∧
  (∀ e, ACL_Validate acl = Some e → e = ErrACLContainsNone ∨ e = ErrACLDuplicateEntries).
Proof.
  split; [apply ACL_Validate_None_iff|]. unfold ACL_Validate. split; [|split].
  - intros H. apply ACL_Validate_range_error in H as [(_ & H)|([=] & _)]. done.
  - intros H Hu. apply ACL_Validate_range_error in H as [([=] & _)|(_ & k & a & Hk & Hd)].
    apply has_duplicate_spec in Hd as (j & b & Hj & Hne & Hp). simpl in Hne.
    apply Hne. symmetry.
    apply (NoDup_lookup (principal <$> acl) k j (principal a)); [done| |].
    + by rewrite list_lookup_fmap, Hk.
    + by rewrite list_lookup_fmap, Hj, Hp.
  - intros e H. apply ACL_Validate_range_error in H as [(-> & _)|(-> & _)]; auto.
Qed.

(** What [Add] leaves in the list: entries it held, and the new entry when
    it grants an access. *)
Lemma Add_elem acl a x :
  x ∈ Add acl a → x ∈ acl ∨ (x = a ∧ a_AccessType a ≠ None_).
Proof.
  induction acl as [|b acl IH].
  - rewrite Add_nil. destruct (Z.eqb_spec (a_AccessType a) None_); [by intros ?%elem_of_nil|].
    intros ->%list_elem_of_singleton. by right.
  - rewrite Add_cons. destruct (same_principal b a).
    + destruct (Z.eqb_spec (a_AccessType a) None_).
      * intros H. left. by right.
      * intros [->|H]%elem_of_cons; [by right|]. left. by right.
    + intros [->|H]%elem_of_cons; [left; left|].
      destruct (IH H) as [H'|H']; [left; by right|by right].
Qed.

Lemma Add_unique acl a : unique_principals acl → unique_principals (Add acl a).
Proof.
  unfold unique_principals. induction acl as [|b acl IH]; intros Hu.
  - rewrite Add_nil. destruct (a_AccessType a =? None_); [done|]. apply NoDup_singleton.
  - rewrite fmap_cons in Hu. apply NoDup_cons in Hu as [Hb Hu].
    rewrite Add_cons. destruct (same_principal b a) eqn:Hs.
    + destruct (a_AccessType a =? None_); [done|].
      rewrite fmap_cons. apply NoDup_cons. split; [|done].
      apply same_principal_spec in Hs. by rewrite <- Hs.
    + rewrite fmap_cons. apply NoDup_cons. split; [|by apply IH].
      intros (x & Hpx & Hx)%list_elem_of_fmap.
      apply Add_elem in Hx as [Hx|[-> _]].
      * apply Hb. rewrite Hpx. by apply list_elem_of_fmap_2.
      * apply same_principal_false in Hs. done.
Qed.

Lemma ACL_Validate_Add (acl : ACL) (a : Access) :
  ACL_Validate acl = None → ACL_Validate (Add acl a) = None.
Proof.
  rewrite !ACL_Validate_None_iff. intros [Hn Hu]. split; [|by apply Add_unique].
  intros x Hx. apply Add_elem in Hx as [Hx|[-> Hx]]; [by apply Hn|done].
Qed.

(** X4. [ACL.Add] keeps an ACL valid: applied to an ACL that
    [ACL.Validate] accepts, with any entry at all (granting, or None to
    revoke), it returns an ACL that [ACL.Validate] accepts.  The validation
    [UpdateAccess] runs after [Add] can fail only on an ACL that was stored
    invalid. *)
Theorem Add_keeps_ACL_valid (acl : ACL) (a : Access) :
  ACL_Validate acl = None → ACL_Validate (Add acl a) = None.
Proof. exact (ACL_Validate_Add acl a). Qed.

Lemma Add_keeps_ACL_valid_witness :
  ACL_Validate [mkAccess User "test" Admin] = None ∧
  ACL_Validate (Add [mkAccess User "test" Admin] (mkAccess Machine "host" Read)) = None.
Proof.
  split; [reflexivity|]. apply (Add_keeps_ACL_valid [mkAccess User "test" Admin]). reflexivity.
Defined.

(** ** [KeyVersionList.Validate] and [KeyVersionList.Update] *)

(** The loop of [Validate], from any count and any map of the ids seen. *)
Lemma KVL_Validate_range_spec rest : ∀ (c : Z) (m : gmap Z (list Z)),
  KVL_Validate_range c m rest =
  if decide (Forall (λ id, m !! id = None) (version_ids rest) ∧ NoDup (version_ids rest))
  then if decide (c + Z.of_nat (length (primaries rest)) = 1) then None
       else Some ErrMulitplePrimary
  else Some ErrSameVersionID.
Proof.
  induction rest as [|kv rest IH]; intros c m.
  - destruct (decide (Forall _ _ ∧ _)) as [_|Hn];
      [|destruct Hn; split; [constructor|apply NoDup_nil_2]].
    simpl. destruct (Z.eqb_spec c 1); destruct (decide _) as [Hd|Hd]; simpl in *; try done; lia.
  - cbn [KVL_Validate_range]. unfold version_ids, primaries in *.
    rewrite fmap_cons. cbn [List.filter]. unfold is_Primary at 1.
    destruct (m !! kv_ID kv) as [d|] eqn:Hm.
    + rewrite decide_False; [done|]. intros [HF _]. apply Forall_cons in HF as [HF _]. congruence.
    + rewrite IH.
      assert (Hiff :
        (Forall (λ id, <[kv_ID kv := kv_Data kv]> m !! id = None) (kv_ID <$> rest)
         ∧ NoDup (kv_ID <$> rest))
        ↔ (Forall (λ id, m !! id = None) (kv_ID kv :: (kv_ID <$> rest))
           ∧ NoDup (kv_ID kv :: (kv_ID <$> rest)))).
      { rewrite Forall_cons, NoDup_cons, !Forall_forall. split.
        - intros [HF Hnd]. split; [split; [done|]|split; [|done]].
          + intros x Hx. specialize (HF x Hx).
            by apply lookup_insert_None in HF as [? _].
          + intros Hin. specialize (HF _ Hin). by rewrite lookup_insert_eq in HF.
        - intros [[_ HF] [Hnotin Hnd]]. split; [|done].
          intros x Hx. apply lookup_insert_None. split; [by apply HF|].
          intros <-. done. }
      destruct (decide (Forall (λ id, <[kv_ID kv := kv_Data kv]> m !! id = None) (kv_ID <$> rest)
                        ∧ NoDup (kv_ID <$> rest))) as [Hy|Hn];
        destruct (decide (Forall (λ id, m !! id = None) (kv_ID kv :: (kv_ID <$> rest))
                          ∧ NoDup (kv_ID kv :: (kv_ID <$> rest)))) as [Hy'|Hn'];
        try tauto.
      repeat destruct (decide _); try done; exfalso;
        unfold is_Primary in *; destruct (kv_Status kv =? Primary); simpl in *; lia.
Qed.

Lemma KVL_Validate_None_iff kvl :
  KVL_Validate kvl = None ↔ NoDup (version_ids kvl) ∧ length (primaries kvl) = 1%nat.
Proof.
  unfold KVL_Validate. rewrite KVL_Validate_range_spec.
  assert (HF : Forall (λ id, (∅ : gmap Z (list Z)) !! id = None) (version_ids kvl)).
  { apply Forall_forall. intros x _. apply lookup_empty. }
  destruct (decide (_ ∧ NoDup (version_ids kvl))) as [[_ Hnd]|Hn].
  - destruct (decide (0 + Z.of_nat (length (primaries kvl)) = 1)).
    + split; [intros _; split; [done|lia]|done].
    + split; [done|]. intros [_ ?]. lia.
  - split; [done|]. intros [? _]. by destruct Hn.
Qed.

(** X5. [KeyVersionList.Validate] returns nil exactly for the lists whose
    version ids are pairwise distinct and that hold exactly one Primary
    version.  A repeated id gives [ErrSameVersionID], whatever the number
    of Primary versions; with distinct ids, a list with no Primary version
    is refused with the same error as a list with several,
    [ErrMulitplePrimary]. *)
Theorem KVL_Validate_accepts (kvl : KeyVersionList) :
  (KVL_Validate kvl = None ↔
     NoDup (version_ids kvl) ∧ length (primaries kvl) = 1%nat) ∧
  (KVL_Validate kvl = Some ErrSameVersionID ↔ ¬ NoDup (version_ids kvl)) ∧
  (KVL_Validate kvl = Some ErrMulitplePrimary ↔
     NoDup (version_ids kvl) ∧ length (primaries kvl) ≠ 1%nat).
Proof.
  split; [apply KVL_Validate_None_iff|].
  unfold KVL_Validate. rewrite KVL_Validate_range_spec.
  assert (HF : Forall (λ id, (∅ : gmap Z (list Z)) !! id = None) (version_ids kvl)).
  { apply Forall_forall. intros x _. apply lookup_empty. }
  destruct (decide (_ ∧ NoDup (version_ids kvl))) as [[_ Hnd]|Hn].
  - destruct (decide (0 + Z.of_nat (length (primaries kvl)) = 1)).
    + split; [split; [done|by intros ?]|]. split; [done|]. intros [_ ?]. lia.
    + split; [split; [done|by intros ?]|]. split; [intros _; split; [done|lia]|done].
  - split; [split; [intros _ ?; by destruct Hn|done]|]. split; [done|].
    intros [? _]. by destruct Hn.
Qed.

Lemma Update_Ok_first kvl versionID s kvl' :
  Update kvl versionID s = Ok kvl' →
  ∃ i v, first_at (λ v, kv_ID v =? versionID) kvl i v ∧ Update_at kvl i v s = Ok kvl'.
Proof.
  intros H. destruct (first_at_or_none (λ v, kv_ID v =? versionID) kvl) as [(i & v & Hf)|Hn].
  - exists i, v. split; [done|]. by rewrite <- (Update_first _ _ _ _ _ Hf).
  - by rewrite Update_none in H.
Qed.

Lemma set_Status_fields s v :
  kv_ID (set_Status s v) = kv_ID v ∧ kv_Data (set_Status s v) = kv_Data v ∧
  kv_CreationTime (set_Status s v) = kv_CreationTime v.
Proof. done. Qed.

Lemma demote_fields v :
  kv_ID (demote v) = kv_ID v ∧ kv_Data (demote v) = kv_Data v ∧
  kv_CreationTime (demote v) = kv_CreationTime v.
Proof. unfold demote. by destruct (kv_Status v =? Primary). Qed.

(** A projection that [f] keeps is kept by [alter f] and by [map f]. *)
Lemma map_alter_kept {A B : Type} (g : A → B) (f : A → A) (l : list A) i :
  (∀ x, g (f x) = g x) → map g (alter f i l) = map g l.
Proof.
  intros Hg. revert i. induction l as [|x l IH]; intros [|i]; simpl; [done..| |].
  - by rewrite Hg.
  - f_equal. apply IH.
Qed.

Lemma map_map_kept {A B : Type} (g : A → B) (f : A → A) (l : list A) :
  (∀ x, g (f x) = g x) → map g (map f l) = map g l.
Proof. intros Hg. rewrite map_map. apply map_ext. intros x. apply Hg. Qed.

(** [Update] changes statuses only. *)
Lemma Update_at_fields kvl i v s kvl' :
  Update_at kvl i v s = Ok kvl' →
  map kv_ID kvl' = map kv_ID kvl ∧ map kv_Data kvl' = map kv_Data kvl ∧
  map kv_CreationTime kvl' = map kv_CreationTime kvl.
Proof.
  unfold Update_at. intros H.
  repeat case_match; simplify_eq; rewrite ?map_alter_kept by done;
    rewrite ?map_map_kept by (intros x; apply demote_fields); done.
Qed.

Lemma filter_alter_same {A : Type} (p : A → bool) (f : A → A) (l : list A) i x :
  l !! i = Some x → p x = false → p (f x) = false →
  List.filter p (alter f i l) = List.filter p l.
Proof.
  revert i. induction l as [|y l IH]; intros [|i] Hi Hx Hfx; simpl in *; simplify_eq.
  - by rewrite Hx, Hfx.
  - destruct (p y); [f_equal|]; by apply IH.
Qed.

Lemma filter_alter_only {A : Type} (p : A → bool) (f : A → A) (l : list A) i x :
  l !! i = Some x → List.filter p l = [] → p (f x) = true →
  List.filter p (alter f i l) = [f x].
Proof.
  revert i. induction l as [|y l IH]; intros [|i] Hi Hl Hfx; simpl in *; simplify_eq.
  - destruct (p x); [done|]. by rewrite Hfx, Hl.
  - destruct (p y); [done|]. by apply IH.
Qed.

Lemma primaries_demote kvl : primaries (map demote kvl) = [].
Proof.
  unfold primaries. induction kvl as [|v kvl IH]; simpl; [done|].
  rewrite IH. unfold is_Primary, demote.
  destruct (Z.eqb_spec (kv_Status v) Primary) as [Hp|Hp]; simpl; [done|].
  by destruct (Z.eqb_spec (kv_Status v) Primary).
Qed.

(** The Primary versions of the list [Update] returns. *)
Lemma Update_at_primaries kvl i v s kvl' :
  kvl !! i = Some v → Update_at kvl i v s = Ok kvl' →
  primaries kvl' = if s =? Primary then [set_Status Primary v] else primaries kvl.
Proof.
  intros Hi. unfold Update_at.
  destruct (Z.eqb_spec s Primary) as [->|Hs1].
  - destruct (Z.eqb_spec (kv_Status v) Active) as [Hv|Hv]; simpl; [|done]. intros [= <-].
    unfold primaries.
    rewrite (filter_alter_only is_Primary (set_Status Primary) (map demote kvl) i (demote v)).
    + f_equal. unfold demote. rewrite Hv. done.
    + by rewrite list_lookup_fmap, Hi.
    + apply primaries_demote.
    + done.
  - destruct (Z.eqb_spec s Active) as [->|Hs2].
    + destruct (Z.eqb_spec (kv_Status v) Inactive) as [Hv|Hv]; simpl; [|done]. intros [= <-].
      apply (filter_alter_same _ _ _ _ v); [done| |done].
      unfold is_Primary. by rewrite Hv.
    + destruct (Z.eqb_spec s Inactive) as [->|Hs3].
      * destruct (Z.eqb_spec (kv_Status v) Active) as [Hv|Hv]; simpl; [|done]. intros [= <-].
        apply (filter_alter_same _ _ _ _ v); [done| |done].
        unfold is_Primary. by rewrite Hv.
      * by intros [= <-].
Qed.

Lemma KVL_Validate_Update (kvl : KeyVersionList) (versionID : Z) (s : VersionStatus)
    (kvl' : KeyVersionList) :
  KVL_Validate kvl = None →
  Update kvl versionID s = Ok kvl' →
  KVL_Validate kvl' = None ∧
  version_ids kvl' = version_ids kvl ∧
  map kv_Data kvl' = map kv_Data kvl ∧
  map kv_CreationTime kvl' = map kv_CreationTime kvl.
Proof.
  intros Hv HU. apply Update_Ok_first in HU as (i & v & (Hi & _ & _) & HU).
  destruct (Update_at_fields _ _ _ _ _ HU) as (Hids & Hdata & Htimes).
  split; [|by split]. apply KVL_Validate_None_iff in Hv as [Hnd H1].
  apply KVL_Validate_None_iff. unfold version_ids in *.
  change (map kv_ID kvl' = map kv_ID kvl) with (kv_ID <$> kvl' = kv_ID <$> kvl) in Hids.
  split; [by rewrite Hids|].
  rewrite (Update_at_primaries _ _ _ _ _ Hi HU). by destruct (s =? Primary).
Qed.

(** X6. [KeyVersionList.Update] keeps a version list valid and changes
    statuses only: when it succeeds on a list that
    [KeyVersionList.Validate] accepts, the list it returns is accepted too
    (distinct ids, exactly one Primary version), and it has the same ids,
    data and creation times in the same order. *)
Theorem Update_keeps_KVL_valid (kvl : KeyVersionList) (versionID : Z) (s : VersionStatus)
    (kvl' : KeyVersionList) :
  KVL_Validate kvl = None →
  Update kvl versionID s = Ok kvl' →
  KVL_Validate kvl' = None ∧
  version_ids kvl' = version_ids kvl ∧
  map kv_Data kvl' = map kv_Data kvl ∧
  map kv_CreationTime kvl' = map kv_CreationTime kvl.
Proof. exact (KVL_Validate_Update kvl versionID s kvl'). Qed.

Lemma Update_keeps_KVL_valid_witness :
  let kvl := [mkKeyVersion 1 [1] Primary 10; mkKeyVersion 2 [2] Active 20;
              mkKeyVersion 3 [3] Inactive 30] in
  let kvl' := [mkKeyVersion 1 [1] Active 10; mkKeyVersion 2 [2] Primary 20;
               mkKeyVersion 3 [3] Inactive 30] in
  KVL_Validate kvl = None ∧ Update kvl 2 Primary = Ok kvl' ∧ KVL_Validate kvl' = None.
Proof.
  split; [reflexivity|]. split; [reflexivity|].
  apply (Update_keeps_KVL_valid
           [mkKeyVersion 1 [1] Primary 10; mkKeyVersion 2 [2] Active 20;
            mkKeyVersion 3 [3] Inactive 30] 2 Primary); reflexivity.
Defined.

(** A promotion, in terms of [set_Status]. *)
Lemma Update_Primary_spec (kvl : KeyVersionList) (versionID : Z)
    (kvl' : KeyVersionList) :
  Update kvl versionID Primary = Ok kvl' →
  ∃ i v, first_at (λ v, kv_ID v =? versionID) kvl i v ∧
         kv_Status v = Active ∧
         kvl' !! i = Some (set_Status Primary v) ∧
         primaries kvl' = [set_Status Primary v] ∧
         GetPrimary kvl' = Some (set_Status Primary v).
Proof.
  intros HU. apply Update_Ok_first in HU as (i & v & Hf & HU).
  exists i, v. split; [done|]. destruct Hf as (Hi & _ & _).
  pose proof (Update_at_primaries _ _ _ _ _ Hi HU) as Hp. rewrite Z.eqb_refl in Hp.
  unfold Update_at in HU. rewrite Z.eqb_refl in HU.
  destruct (Z.eqb_spec (kv_Status v) Active) as [Hv|Hv]; simpl in HU; [|done].
  injection HU as <-. split; [done|]. split.
  - rewrite list_lookup_alter, list_lookup_fmap, Hi. simpl.
    unfold demote. rewrite Hv. destruct (decide (i = i)); [reflexivity|done].
  - split; [done|]. rewrite GetPrimary_filter. unfold primaries in Hp. by rewrite Hp.
Qed.

(** X7. A promotion leaves exactly one Primary version, the promoted one,
    whatever the list held before: when [Update(versionID, Primary)]
    succeeds, the first version with that id was Active, it is now the only
    Primary version of the list, and [GetPrimary] returns it - also on a
    list that held no Primary version, or several. *)
Theorem Update_Primary_then_GetPrimary (kvl : KeyVersionList) (versionID : Z)
    (kvl' : KeyVersionList) :
  Update kvl versionID Primary = Ok kvl' →
  let promoted (v : KeyVersion) :=
    mkKeyVersion (kv_ID v) (kv_Data v) Primary (kv_CreationTime v) in
  ∃ i v, first_at (λ v, kv_ID v =? versionID) kvl i v ∧
         kv_Status v = Active ∧
         kvl' !! i = Some (promoted v) ∧
         primaries kvl' = [promoted v] ∧
         GetPrimary kvl' = Some (promoted v).
Proof. exact (Update_Primary_spec kvl versionID kvl'). Qed.

Lemma Update_Primary_then_GetPrimary_witness :
  let kvl := [mkKeyVersion 1 [1] Primary 10; mkKeyVersion 2 [2] Active 20;
              mkKeyVersion 3 [3] Primary 30] in
  let kvl' := [mkKeyVersion 1 [1] Active 10; mkKeyVersion 2 [2] Primary 20;
               mkKeyVersion 3 [3] Active 30] in
  Update kvl 2 Primary = Ok kvl' ∧
  ∃ i v, first_at (λ v, kv_ID v =? 2) kvl i v ∧
         kv_Status v = Active ∧
         kvl' !! i = Some (mkKeyVersion (kv_ID v) (kv_Data v) Primary (kv_CreationTime v)) ∧
         primaries kvl' = [mkKeyVersion (kv_ID v) (kv_Data v) Primary (kv_CreationTime v)] ∧
         GetPrimary kvl' = Some (mkKeyVersion (kv_ID v) (kv_Data v) Primary (kv_CreationTime v)).
Proof.
  split; [reflexivity|].
  apply (Update_Primary_then_GetPrimary
           [mkKeyVersion 1 [1] Primary 10; mkKeyVersion 2 [2] Active 20;
            mkKeyVersion 3 [3] Primary 30] 2). reflexivity.
Defined.

(** ** Principals and what an ACL grants them *)

(** The three loops of [CanAccess] look for one entry that lets the
    principal in. *)
Lemma Principal_CanAccess_existsb p acl t :
  Principal_CanAccess p acl t = existsb (grants p t) acl.
Proof.
  destruct p as [ID groups|m|domain id]; simpl;
    (induction acl as [|a acl IH]; simpl; [done|]); rewrite IH; clear IH.
  - destruct (Z.eqb_spec (a_Type a) User) as [H1|H1];
      destruct (Z.eqb_spec (a_Type a) UserGroup) as [H2|H2];
      try (exfalso; unfold User, UserGroup in *; lia);
      destruct (String.eqb (a_ID a) ID), (memberOf groups (a_ID a)),
        (CanAccess (a_AccessType a) t); done.
  - destruct (Z.eqb_spec (a_Type a) Machine) as [H1|H1];
      destruct (Z.eqb_spec (a_Type a) MachinePrefix) as [H2|H2];
      try (exfalso; unfold Machine, MachinePrefix in *; lia);
      destruct (String.eqb (a_ID a) m), (HasPrefix m (a_ID a)),
        (CanAccess (a_AccessType a) t); done.
  - destruct (a_Type a =? Service),
      (String.eqb (a_ID a) ("spiffe://" ++ domain ++ "/" ++ id)),
      (CanAccess (a_AccessType a) t); done.
Qed.

Lemma CanAccess_le (s t t' : AccessType) :
  t' ≤ t → CanAccess s t = true → CanAccess s t' = true.
Proof. unfold CanAccess. rewrite !Z.leb_le. lia. Qed.

Lemma grants_le p t t' a : t' ≤ t → grants p t a = true → grants p t' a = true.
Proof.
  intros Hle. destruct p; simpl; rewrite !andb_true_iff;
    intros [? Hc]; (split; [done|]); by eapply CanAccess_le.
Qed.

(** X8. Access levels are cumulative for every kind of principal: a user,
    machine or service that an ACL lets in at a level is let in at every
    lower level (Admin implies Write, Write implies Read). *)
Theorem Principal_CanAccess_lower_level (p : Principal) (acl : ACL) (t t' : AccessType) :
  t' ≤ t →
  Principal_CanAccess p acl t = true →
  Principal_CanAccess p acl t' = true.
Proof.
  intros Hle. rewrite !Principal_CanAccess_existsb, !existsb_exists.
  intros (a & Ha & Hg). exists a. split; [done|]. by eapply grants_le.
Qed.

Lemma Principal_CanAccess_lower_level_witness :
  let acl := [mkAccess UserGroup "admins" Admin; mkAccess Machine "host1" Read] in
  let p := NewUser "test" ["admins"; "dev"]%string in
  Read ≤ Admin ∧ Principal_CanAccess p acl Admin = true ∧
  Principal_CanAccess p acl Read = true.
Proof.
  split; [unfold Read, Admin; lia|]. split; [reflexivity|].
  apply (Principal_CanAccess_lower_level
           (NewUser "test" ["admins"; "dev"]%string)
           [mkAccess UserGroup "admins" Admin; mkAccess Machine "host1" Read] Admin Read).
  - unfold Read, Admin; lia.
  - reflexivity.
Defined.

(** An entry [Add] has put in the list or left there. *)
Lemma Add_grant_elem acl a : a_AccessType a ≠ None_ → a ∈ Add acl a.
Proof.
  intros Hn%Z.eqb_neq. induction acl as [|b acl IH].
  - rewrite Add_nil, Hn. left.
  - rewrite Add_cons, Hn. destruct (same_principal b a); [left|by right].
Qed.

Lemma Add_other_elem acl a b :
  b ∈ acl → same_principal b a = false → b ∈ Add acl a.
Proof.
  intros Hb Hs. induction acl as [|c acl IH]; [by apply elem_of_nil in Hb|].
  rewrite Add_cons. apply elem_of_cons in Hb as [->|Hb].
  - rewrite Hs. left.
  - destruct (same_principal c a) eqn:Hc.
    + destruct (a_AccessType a =? None_); [done|by right].
    + right. by apply IH.
Qed.

(** X9. Granting works through [ACL.Add] and [CanAccess] together: after
    [Add] of an entry that names the principal (its user id or one of its
    groups, its hostname or a prefix of it, its SPIFFE id) with an access
    that is not None, the principal is let in at every level up to the
    granted one, whatever the ACL held for it before; and a principal that
    was let in through an entry of another (type, id) still is. *)
Theorem Add_grants_access (p : Principal) (acl : ACL) (a : Access) (t : AccessType) :
  a_AccessType a ≠ None_ →
  grants p t a = true →
  Principal_CanAccess p (Add acl a) t = true ∧
  (∀ (q : Principal) (b : Access) (t' : AccessType),
     b ∈ acl → same_principal b a = false → grants q t' b = true →
     Principal_CanAccess q (Add acl a) t' = true).
Proof.
  intros Hn Hg. split.
  - rewrite Principal_CanAccess_existsb, existsb_exists. exists a.
    split; [|done]. apply list_elem_of_In. by apply Add_grant_elem.
  - intros q b t' Hb Hs Hq.
    rewrite Principal_CanAccess_existsb, existsb_exists. exists b.
    split; [|done]. apply list_elem_of_In. by apply Add_other_elem.
Qed.

Lemma Add_grants_access_witness :
  let acl := [mkAccess User "test" Read; mkAccess MachinePrefix "web" Read] in
  let a := mkAccess User "test" Write in
  a_AccessType a ≠ None_ ∧ grants (NewUser "test" []) Write a = true ∧
  Principal_CanAccess (NewUser "test" []) acl Write = false ∧
  Principal_CanAccess (NewUser "test" []) (Add acl a) Write = true.
Proof.
  split; [done|]. split; [reflexivity|]. split; [reflexivity|].
  apply (Add_grants_access (NewUser "test" [])
           [mkAccess User "test" Read; mkAccess MachinePrefix "web" Read]
           (mkAccess User "test" Write) Write); [done|reflexivity].
Defined.



Lemma HasPrefix_app (prefix rest : string) : HasPrefix (prefix ++ rest) prefix = true.
Proof.
  induction prefix as [|c prefix IH]; simpl; [by destruct rest|]. by rewrite Ascii.eqb_refl.
Qed.

(** X11. A MachinePrefix entry lets in every machine whose hostname starts
    with the id of the entry, at every level up to the entry's access; the
    prefix is not required to be non-empty, and an entry with the empty id
    lets in every machine. *)
Theorem MachinePrefix_grants (acl : ACL) (a : Access) (t : AccessType) :
  a ∈ acl →
  a_Type a = MachinePrefix →
  t ≤ a_AccessType a →
  (∀ rest, Principal_CanAccess (machine (a_ID a ++ rest)) acl t = true) ∧
  (a_ID a = ""%string → ∀ m, Principal_CanAccess (machine m) acl t = true).
Proof.
  intros Ha HT Ht.
  assert (H : ∀ rest, Principal_CanAccess (machine (a_ID a ++ rest)) acl t = true).
  { intros rest. rewrite Principal_CanAccess_existsb, existsb_exists. exists a.
    split; [by apply list_elem_of_In|]. simpl.
    rewrite HT, HasPrefix_app.
    replace (CanAccess (a_AccessType a) t) with true
      by (symmetry; unfold CanAccess; by apply Z.leb_le).
    reflexivity. }
  split; [exact H|]. intros Hid m. specialize (H m). by rewrite Hid in H.
Qed.

Lemma MachinePrefix_grants_witness :
  let a := mkAccess MachinePrefix "" Admin in
  let acl := [mkAccess User "test" Admin; a] in
  a ∈ acl ∧ a_Type a = MachinePrefix ∧ Admin ≤ a_AccessType a ∧
  ∀ m, Principal_CanAccess (machine m) acl Admin = true.
Proof.
  assert (Hin : mkAccess MachinePrefix "" Admin
                ∈ [mkAccess User "test" Admin; mkAccess MachinePrefix "" Admin]).
  { right. left. }
  split; [exact Hin|]. split; [reflexivity|]. split; [reflexivity|].
  destruct (MachinePrefix_grants
              [mkAccess User "test" Admin; mkAccess MachinePrefix "" Admin]
              (mkAccess MachinePrefix "" Admin) Admin Hin eq_refl) as [_ H].
  - reflexivity.
  - by apply H.
Defined.

(** ** The SPIFFE provider *)

Lemma string_drop_app (pre s : string) : string_drop (String.length pre) (pre ++ s) = s.
Proof. induction pre as [|c pre IH]; simpl; [by destruct s|done]. Qed.

Lemma string_length_app (s1 s2 : string) :
  String.length (s1 ++ s2) = (String.length s1 + String.length s2)%nat.
Proof. induction s1 as [|c s1 IH]; simpl; [done|]. by rewrite IH. Qed.

Lemma cut_slash_app (domain path : string) :
  (∀ c, In c (list_ascii_of_string domain) → c ≠ "/"%char) →
  cut_slash (domain ++ String "/" path) = Some (domain, path).
Proof.
  induction domain as [|c domain IH]; intros Hn; simpl; [done|].
  destruct (Ascii.eqb_spec c "/") as [->|_].
  - exfalso. apply (Hn "/"%char); [by left|done].
  - rewrite IH; [done|]. intros d Hd. apply Hn. by right.
Qed.

(** X12. The SPIFFE provider takes the service identity from the one URI
    name of the verified certificate by dropping its first nine bytes and
    cutting the rest at the first slash.  It does not look at the nine
    bytes: for every nine-byte prefix, a name [prefix ++ domain ++ "/" ++
    path] with no slash in [domain] gives the service principal whose id is
    ["spiffe://" ++ domain ++ "/" ++ path].  A certificate with no URI name
    at all makes [Authenticate] panic on [spiffeURIs[0]] instead of
    returning an error. *)
Theorem SpiffeProvider_Authenticate_identity (prefix domain path : string) :
  String.length prefix = 9%nat →
  (∀ c, In c (list_ascii_of_string domain) → c ≠ "/"%char) →
  (∃ p, SpiffeProvider_Authenticate None (Ok [(prefix ++ domain ++ String "/" path)%string]) = Ok p ∧
        IsService p = true ∧
        GetID p = ("spiffe://" ++ domain ++ String "/" path)%string) ∧
  SpiffeProvider_Authenticate None (Ok []) = Panic "index out of range".
Proof.
  intros Hlen Hdom. split; [|done].
  exists (service domain path). split; [|done].
  unfold SpiffeProvider_Authenticate. cbn [length Nat.ltb Nat.leb].
  destruct (Nat.leb_spec (String.length (prefix ++ domain ++ String "/" path)) 8) as [Hlt|_].
  { rewrite string_length_app in Hlt. lia. }
  rewrite <- Hlen, string_drop_app. unfold SplitN_slash_2.
  rewrite cut_slash_app by done. reflexivity.
Qed.

Lemma SpiffeProvider_Authenticate_identity_witness :
  String.length "https:///" = 9%nat ∧
  (∀ c, In c (list_ascii_of_string "example.com") → c ≠ "/"%char) ∧
  ∃ p, SpiffeProvider_Authenticate None (Ok ["https:///example.com/service/a"%string]) = Ok p ∧
       IsService p = true ∧
       GetID p = "spiffe://example.com/service/a"%string.
Proof.
  assert (Hd : ∀ c, In c (list_ascii_of_string "example.com") → c ≠ "/"%char).
  { intros c Hc. simpl in Hc. intuition (subst; discriminate). }
  split; [reflexivity|]. split; [exact Hd|].
  destruct (SpiffeProvider_Authenticate_identity "https:///" "example.com" "service/a"
              eq_refl Hd) as [H _].
  exact H.
Defined.

(** ** The in-memory DB: [Get], [Add], [Update] and [Remove] together *)

Lemma id_stored_spec id stored : id_stored id stored = true ↔ id ∈ dbk_ID <$> stored.
Proof.
  induction stored as [|k stored IH]; cbn [id_stored].
  - split; [done|]. by intros ?%elem_of_nil.
  - rewrite fmap_cons, elem_of_cons. destruct (String.eqb_spec (dbk_ID k) id) as [->|Hne].
    + split; [by left|done].
    + rewrite IH. split; [by right|]. intros [?|?]; [congruence|done].
Qed.

Lemma TempDB_Add_exists_spec stored ks :
  TempDB_Add_exists stored ks = true ↔ ∃ key, key ∈ ks ∧ dbk_ID key ∈ dbk_ID <$> stored.
Proof.
  induction ks as [|key ks IH]; simpl.
  - split; [done|]. by intros (? & ?%elem_of_nil & _).
  - destruct (id_stored (dbk_ID key) stored) eqn:Hs.
    + split; [intros _|done]. exists key. split; [left|by apply id_stored_spec].
    + rewrite IH. split.
      * intros (k & Hk & Hin). exists k. split; [by right|done].
      * intros (k & [->|Hk]%elem_of_cons & Hin).
        -- apply id_stored_spec in Hin. congruence.
        -- by exists k.
Qed.

Lemma TempDB_Add_append_spec ks now : ∀ stored i,
  TempDB_Add_append stored ks now i
  = stored ++ imap (λ j key, set_DBVersion (now (i + j)%nat) key) ks.
Proof.
  induction ks as [|key ks IH]; intros stored i; simpl.
  - by rewrite app_nil_r.
  - rewrite IH, <- app_assoc. simpl. rewrite Nat.add_0_r. do 2 f_equal.
    apply imap_ext. intros j k _. simpl. f_equal. f_equal. lia.
Qed.

Lemma TempDB_Get_range_first id l i k :
  first_at (λ k, String.eqb (dbk_ID k) id) l i k → TempDB_Get_range id l = Ok k.
Proof.
  revert i. induction l as [|k0 l IH]; intros i H.
  - by apply first_at_nil in H.
  - simpl. apply first_at_cons in H as [(Hk & -> & ->)|(Hk & i' & -> & H)].
    + by rewrite Hk.
    + rewrite Hk. by eapply IH.
Qed.

Lemma TempDB_Get_range_none id l :
  TempDB_Get_range id l = Err ErrKeyIDNotFound ↔ id ∉ dbk_ID <$> l.
Proof.
  induction l as [|k l IH]; cbn [TempDB_Get_range].
  - split; [intros _ ?%elem_of_nil; done|done].
  - rewrite fmap_cons, not_elem_of_cons.
    destruct (String.eqb_spec (dbk_ID k) id) as [->|Hne].
    + split; [done|]. by intros [? _].
    + rewrite IH. split; [by split|by intros [_ ?]].
Qed.

Lemma TempDB_Get_range_Ok id l k :
  TempDB_Get_range id l = Ok k →
  ∃ i, first_at (λ k, String.eqb (dbk_ID k) id) l i k.
Proof.
  induction l as [|k0 l IH]; simpl; [done|].
  destruct (String.eqb (dbk_ID k0) id) eqn:Hk.
  - intros [= <-]. exists 0%nat. by apply first_at_here.
  - intros H. destruct (IH H) as [i Hi]. exists (S i). by apply first_at_later.
Qed.

Lemma TempDB_Get_range_app id l1 l2 :
  TempDB_Get_range id (l1 ++ l2) =
  match TempDB_Get_range id l1 with
  | Ok k => Ok k
  | _ => TempDB_Get_range id l2
  end.
Proof.
  induction l1 as [|k l1 IH]; simpl; [done|]. by destruct (String.eqb (dbk_ID k) id).
Qed.

(** Replacing the first record of an id by a record of the same id. *)
Lemma TempDB_Get_range_insert l i old new id :
  l !! i = Some old → dbk_ID new = dbk_ID old →
  TempDB_Get_range id (<[i := new]> l) =
  match TempDB_Get_range id (take i l) with
  | Ok k => Ok k
  | _ => if String.eqb (dbk_ID old) id then Ok new else TempDB_Get_range id (drop (S i) l)
  end.
Proof.
  intros Hi Hid. rewrite <- (take_drop_middle l i old Hi) at 1.
  assert (Hlen : length (take i l) = i).
  { rewrite length_take. apply lookup_lt_Some in Hi. lia. }
  rewrite <- Hlen at 1. rewrite insert_app_r_alt by lia.
  rewrite Nat.sub_diag. simpl. rewrite TempDB_Get_range_app. simpl. by rewrite Hid.
Qed.

Lemma TempDB_Get_range_split l i old id :
  l !! i = Some old →
  TempDB_Get_range id l =
  match TempDB_Get_range id (take i l) with
  | Ok k => Ok k
  | _ => if String.eqb (dbk_ID old) id then Ok old else TempDB_Get_range id (drop (S i) l)
  end.
Proof.
  intros Hi. rewrite <- (take_drop_middle l i old Hi) at 1.
  by rewrite TempDB_Get_range_app.
Qed.

Lemma TempDB_Get_range_delete l i old id :
  l !! i = Some old →
  TempDB_Get_range id (take i l ++ drop (S i) l) =
  match TempDB_Get_range id (take i l) with
  | Ok k => Ok k
  | _ => TempDB_Get_range id (drop (S i) l)
  end.
Proof. intros _. apply TempDB_Get_range_app. Qed.

Lemma TempDB_Remove_range_app db id (pre rest : list DBKey) (i : nat) :
  none_of (λ k, String.eqb (dbk_ID k) id) pre →
  TempDB_Remove_range db id i (pre ++ rest)
  = TempDB_Remove_range db id (i + length pre) rest.
Proof.
  revert i. induction pre as [|k pre IH]; intros i Hpre; simpl.
  - by rewrite Nat.add_0_r.
  - apply none_of_cons in Hpre as [Hk Hpre]. simpl in Hk. rewrite Hk.
    rewrite IH by done. f_equal. lia.
Qed.

Lemma first_at_take {A : Type} (p : A → bool) (l : list A) i x :
  first_at p l i x → none_of p (take i l).
Proof.
  intros (Hl & _ & Hbefore) y Hy. apply list_elem_of_lookup in Hy as [j Hj].
  pose proof (lookup_lt_Some _ _ _ Hj) as Hlt. rewrite length_take in Hlt.
  rewrite lookup_take_lt in Hj by lia. apply (Hbefore j); [lia|done].
Qed.

Lemma TempDB_Remove_first db id i k :
  err db = None →
  first_at (λ k, String.eqb (dbk_ID k) id) (keys db) i k →
  TempDB_Remove db id = (Ok tt, mkTempDB (take i (keys db) ++ drop (S i) (keys db)) None).
Proof.
  intros Herr Hf. pose proof Hf as (Hl & Hk & _). unfold TempDB_Remove. rewrite Herr.
  rewrite <- (take_drop_middle (keys db) i k Hl) at 1.
  rewrite TempDB_Remove_range_app by (by eapply first_at_take).
  simpl. simpl in Hk. rewrite Hk. rewrite Herr.
  assert (Hlen : length (take i (keys db)) = i).
  { rewrite length_take. apply lookup_lt_Some in Hl. lia. }
  rewrite Hlen. reflexivity.
Qed.

Lemma TempDB_Remove_none db id :
  err db = None →
  none_of (λ k, String.eqb (dbk_ID k) id) (keys db) →
  TempDB_Remove db id = (Err ErrKeyIDNotFound, db).
Proof.
  intros Herr H. unfold TempDB_Remove. rewrite Herr.
  rewrite <- (app_nil_r (keys db)). by rewrite TempDB_Remove_range_app.
Qed.

Lemma none_of_ids id (l : list DBKey) :
  none_of (λ k, String.eqb (dbk_ID k) id) l ↔ id ∉ dbk_ID <$> l.
Proof.
  unfold none_of. split.
  - intros H (k & -> & Hk)%list_elem_of_fmap. specialize (H k Hk). simpl in H.
    by rewrite String.eqb_refl in H.
  - intros H k Hk. simpl. apply String.eqb_neq. intros <-. apply H.
    by apply list_elem_of_fmap_2.
Qed.

Lemma first_at_imap {A : Type} (p : A → bool) (f : nat → A → A) (l : list A) i x :
  (∀ j y, p (f j y) = p y) → first_at p l i x → first_at p (imap f l) i (f i x).
Proof.
  intros Hp (Hl & Hx & Hbefore). split; [|split].
  - by rewrite list_lookup_imap, Hl.
  - by rewrite Hp.
  - intros j y Hj. rewrite list_lookup_imap.
    destruct (l !! j) as [z|] eqn:Hz; simpl; [|done]. intros [= <-].
    rewrite Hp. by eapply Hbefore.
Qed.

Lemma TempDB_Add_spec (db : TempDB) (ks : list DBKey) (now : nat → Z) :
  err db = None →
  ((∃ key, key ∈ ks ∧ dbk_ID key ∈ stored_ids db) →
     TempDB_Add db ks now = (Err ErrKeyExists, db)) ∧
  ((∀ key, key ∈ ks → dbk_ID key ∉ stored_ids db) →
     ∃ db', TempDB_Add db ks now = (Ok tt, db') ∧
       keys db' = keys db ++ imap (λ i key, set_DBVersion (now i) key) ks ∧
       (∀ id k, TempDB_Get db id = Ok k → TempDB_Get db' id = Ok k) ∧
       (∀ i key, first_at (λ k, String.eqb (dbk_ID k) (dbk_ID key)) ks i key →
          TempDB_Get db' (dbk_ID key) = Ok (set_DBVersion (now i) key))).
Proof.
  intros Herr. unfold TempDB_Add, stored_ids. rewrite Herr. split.
  - intros H. apply TempDB_Add_exists_spec in H. by rewrite H.
  - intros H. destruct (TempDB_Add_exists (keys db) ks) eqn:He.
    { apply TempDB_Add_exists_spec in He as (key & Hk & Hin). by destruct (H key Hk). }
    eexists. split; [done|]. simpl. rewrite TempDB_Add_append_spec. simpl.
    split; [done|]. unfold TempDB_Get. simpl. rewrite Herr. split.
    + intros id k Hg. by rewrite TempDB_Get_range_app, Hg.
    + intros i key Hf. rewrite TempDB_Get_range_app.
      assert (Hnone : TempDB_Get_range (dbk_ID key) (keys db) = Err ErrKeyIDNotFound).
      { apply TempDB_Get_range_none. apply H. destruct Hf as (Hl & _ & _).
        by eapply list_elem_of_lookup_2. }
      rewrite Hnone.
      apply (TempDB_Get_range_first _ _ i).
      by apply (first_at_imap _ (λ i key, set_DBVersion (now i) key)).
Qed.

(** X13. [TempDB.Add] is all or nothing and is keyed by id: with no
    injected error it fails with [ErrKeyExists], storing nothing, as soon as
    one key to add has the id of a stored key; otherwise it appends a copy
    of every key, each stamped with the clock reading taken for it.  After a
    successful [Add], [Get] still returns every key stored before, and
    [Get] of the id of an added key returns the first key given with that
    id, stamped. *)
Theorem TempDB_Add_then_Get (db : TempDB) (ks : list DBKey) (now : nat → Z) :
  let stamped (t : Z) (key : DBKey) :=
    mkDBKey (dbk_ID key) (dbk_ACL key) (dbk_VersionList key) (dbk_VersionHash key) t in
  err db = None →
  ((∃ key, key ∈ ks ∧ dbk_ID key ∈ stored_ids db) →
     TempDB_Add db ks now = (Err ErrKeyExists, db)) ∧
  ((∀ key, key ∈ ks → dbk_ID key ∉ stored_ids db) →
     ∃ db', TempDB_Add db ks now = (Ok tt, db') ∧
       keys db' = keys db ++ imap (λ i key, stamped (now i) key) ks ∧
       (∀ id k, TempDB_Get db id = Ok k → TempDB_Get db' id = Ok k) ∧
       (∀ i key, first_at (λ k, String.eqb (dbk_ID k) (dbk_ID key)) ks i key →
          TempDB_Get db' (dbk_ID key) = Ok (stamped (now i) key))).
Proof. exact (TempDB_Add_spec db ks now). Qed.

Lemma TempDB_Add_then_Get_witness :
  let k1 := mkDBKey "id1" [] [] "h1" 0 in
  let k2 := mkDBKey "id2" [] [] "h2" 0 in
  let db := mkTempDB [set_DBVersion 5 k1] None in
  err db = None ∧
  TempDB_Add db [k2; k1] (λ i, 10 + Z.of_nat i) = (Err ErrKeyExists, db).
Proof.
  split; [reflexivity|].
  apply (TempDB_Add_then_Get (mkTempDB [set_DBVersion 5 (mkDBKey "id1" [] [] "h1" 0)] None));
    [reflexivity|].
  exists (mkDBKey "id1" [] [] "h1" 0). split; [right; left|left].
Defined.

Lemma TempDB_Remove_spec (db : TempDB) (id : string) :
  err db = None →
  (id ∉ stored_ids db → TempDB_Remove db id = (Err ErrKeyIDNotFound, db)) ∧
  (id ∈ stored_ids db →
     ∃ db', TempDB_Remove db id = (Ok tt, db') ∧
       (∀ id', id' ≠ id → TempDB_Get db' id' = TempDB_Get db id') ∧
       (NoDup (stored_ids db) →
          TempDB_Get db' id = Err ErrKeyIDNotFound ∧ NoDup (stored_ids db'))).
Proof.
  intros Herr. unfold stored_ids. split.
  - intros H. apply TempDB_Remove_none; [done|]. by apply none_of_ids.
  - intros H.
    destruct (first_at_or_none (λ k, String.eqb (dbk_ID k) id) (keys db))
      as [(i & k & Hf)|Hn]; [|by apply none_of_ids in Hn].
    pose proof Hf as (Hl & Hk & _). simpl in Hk. apply String.eqb_eq in Hk.
    eexists. split; [by eapply TempDB_Remove_first|]. unfold TempDB_Get. simpl. rewrite Herr.
    split.
    + intros id' Hne. rewrite TempDB_Get_range_app.
      rewrite (TempDB_Get_range_split (keys db) i k id' Hl).
      destruct (String.eqb_spec (dbk_ID k) id'); [congruence|done].
    + intros Hnd. rewrite <- (take_drop_middle (keys db) i k Hl) in Hnd.
      rewrite fmap_app, fmap_cons in Hnd.
      apply NoDup_app in Hnd as (Hnd1 & Hdisj & Hnd2).
      apply NoDup_cons in Hnd2 as [Hnotin Hnd2]. rewrite Hk in *. split.
      * apply TempDB_Get_range_none. rewrite fmap_app, elem_of_app.
        intros [Hin|Hin]; [|done]. apply (Hdisj _ Hin). left.
      * rewrite fmap_app. apply NoDup_app. split; [done|]. split; [|done].
        intros x Hx Hx'. apply (Hdisj _ Hx). by right.
Qed.



(** Adding one key twice in a call, in terms of [set_DBVersion]. *)
Lemma TempDB_Add_twice_spec (db : TempDB) (key : DBKey) (now : nat → Z) :
  err db = None →
  dbk_ID key ∉ stored_ids db →
  ∃ db1 db2,
    TempDB_Add db [key; key] now = (Ok tt, db1) ∧
    keys db1 = keys db ++ [set_DBVersion (now 0%nat) key; set_DBVersion (now 1%nat) key] ∧
    TempDB_Get db1 (dbk_ID key) = Ok (set_DBVersion (now 0%nat) key) ∧
    TempDB_Remove db1 (dbk_ID key) = (Ok tt, db2) ∧
    TempDB_Get db2 (dbk_ID key) = Ok (set_DBVersion (now 1%nat) key).
Proof.
  intros Herr Hnotin. unfold stored_ids in Hnotin.
  assert (Hs : id_stored (dbk_ID key) (keys db) = false).
  { apply not_true_is_false. by rewrite id_stored_spec. }
  assert (Hg : TempDB_Get_range (dbk_ID key) (keys db) = Err ErrKeyIDNotFound).
  { by apply TempDB_Get_range_none. }
  set (db1 := mkTempDB (keys db ++ [set_DBVersion (now 0%nat) key; set_DBVersion (now 1%nat) key])
                None).
  assert (Hf : first_at (λ k, String.eqb (dbk_ID k) (dbk_ID key)) (keys db1)
                 (length (keys db)) (set_DBVersion (now 0%nat) key)).
  { split; [|split].
    - simpl. rewrite lookup_app_r by lia. by rewrite Nat.sub_diag.
    - simpl. apply String.eqb_refl.
    - intros j y Hj Hy. simpl in Hy. rewrite lookup_app_l in Hy by lia.
      apply none_of_ids in Hnotin. apply Hnotin. by eapply list_elem_of_lookup_2. }
  exists db1, (mkTempDB (take (length (keys db)) (keys db1)
                         ++ drop (S (length (keys db))) (keys db1)) None).
  split; [|split; [done|split; [|split]]].
  - unfold TempDB_Add. rewrite Herr. simpl. rewrite Hs. simpl.
    unfold db1. by rewrite <- !app_assoc.
  - unfold TempDB_Get. simpl. by apply (TempDB_Get_range_first _ _ _ _ Hf).
  - by apply (TempDB_Remove_first db1 _ _ _ eq_refl Hf).
  - unfold TempDB_Get. simpl.
    rewrite take_app_length, drop_app_ge by lia.
    replace (S (length (keys db)) - length (keys db))%nat with 1%nat by lia. simpl.
    rewrite TempDB_Get_range_app, Hg. simpl. by rewrite String.eqb_refl.
Qed.

(** X15. [TempDB.Add] compares the ids of the keys to add with the stored
    ids only, not with one another: a call that gives the same new id twice
    succeeds and stores both keys.  One [Remove] of the id then leaves the
    second copy, which [Get] returns. *)
Theorem TempDB_Add_same_id_twice (db : TempDB) (key : DBKey) (now : nat → Z) :
  let stamped (t : Z) :=
    mkDBKey (dbk_ID key) (dbk_ACL key) (dbk_VersionList key) (dbk_VersionHash key) t in
  err db = None →
  dbk_ID key ∉ stored_ids db →
  ∃ db1 db2,
    TempDB_Add db [key; key] now = (Ok tt, db1) ∧
    keys db1 = keys db ++ [stamped (now 0%nat); stamped (now 1%nat)] ∧
    TempDB_Get db1 (dbk_ID key) = Ok (stamped (now 0%nat)) ∧
    TempDB_Remove db1 (dbk_ID key) = (Ok tt, db2) ∧
    TempDB_Get db2 (dbk_ID key) = Ok (stamped (now 1%nat)).
Proof. exact (TempDB_Add_twice_spec db key now). Qed.

Lemma TempDB_Add_same_id_twice_witness :
  let key := mkDBKey "id1" [] [] "h1" 0 in
  let db := mkTempDB [] None in
  err db = None ∧ (dbk_ID key ∉ stored_ids db) ∧
  ∃ db1 db2,
    TempDB_Add db [key; key] (λ i, 10 + Z.of_nat i) = (Ok tt, db1) ∧
    keys db1 = keys db ++ [set_DBVersion 10 key; set_DBVersion 11 key] ∧
    TempDB_Get db1 (dbk_ID key) = Ok (set_DBVersion 10 key) ∧
    TempDB_Remove db1 (dbk_ID key) = (Ok tt, db2) ∧
    TempDB_Get db2 (dbk_ID key) = Ok (set_DBVersion 11 key).
Proof.
  assert (Hn : dbk_ID (mkDBKey "id1" [] [] "h1" 0) ∉ stored_ids (mkTempDB [] None)).
  { apply not_elem_of_nil. }
  split; [reflexivity|]. split; [exact Hn|].
  exact (TempDB_Add_same_id_twice (mkTempDB [] None) (mkDBKey "id1" [] [] "h1" 0)
           (λ i, 10 + Z.of_nat i) eq_refl Hn).
Defined.

Lemma TempDB_Update_Ok_spec (db : TempDB) (key : DBKey) (now : Z) (db' : TempDB) :
  TempDB_Update db key now = (Ok tt, db') →
  TempDB_Get db' (dbk_ID key) = Ok (set_DBVersion now key) ∧
  (∀ id, id ≠ dbk_ID key → TempDB_Get db' id = TempDB_Get db id) ∧
  (now ≠ dbk_DBVersion key →
     ∀ now', TempDB_Update db' key now' = (Err ErrDBVersion, db')).
Proof.
  intros HU.
  destruct (err db) as [e|] eqn:Herr; [by unfold TempDB_Update in HU; rewrite Herr in HU|].
  destruct (first_at_or_none (λ k, String.eqb (dbk_ID k) (dbk_ID key)) (keys db))
    as [(i & dbk & Hf)|Hn]; [|by rewrite TempDB_Update_none in HU].
  rewrite (TempDB_Update_first db key now i dbk Herr Hf) in HU.
  destruct (Z.eqb_spec (dbk_DBVersion dbk) (dbk_DBVersion key)) as [Hv|Hv]; [|done].
  injection HU as <-. pose proof Hf as (Hl & Hk & Hbefore). simpl in Hk.
  apply String.eqb_eq in Hk.
  assert (Htake : ∀ id, id = dbk_ID key →
            TempDB_Get_range id (take i (keys db)) = Err ErrKeyIDNotFound).
  { intros id ->. apply TempDB_Get_range_none. apply none_of_ids. by eapply first_at_take. }
  assert (Hf' : first_at (λ k, String.eqb (dbk_ID k) (dbk_ID key))
                  (<[i := set_DBVersion now key]> (keys db)) i (set_DBVersion now key)).
  { split; [|split].
    - apply list_lookup_insert_eq. by eapply lookup_lt_Some.
    - simpl. apply String.eqb_refl.
    - intros j y Hj Hy. rewrite list_lookup_insert_ne in Hy by lia. by eapply Hbefore. }
  split; [|split].
  - unfold TempDB_Get. simpl. by apply (TempDB_Get_range_first _ _ _ _ Hf').
  - intros id Hne. unfold TempDB_Get. simpl. rewrite Herr.
    rewrite (TempDB_Get_range_insert (keys db) i dbk (set_DBVersion now key) id Hl)
      by (by rewrite Hk).
    rewrite (TempDB_Get_range_split (keys db) i dbk id Hl).
    destruct (String.eqb_spec (dbk_ID dbk) id); [congruence|done].
  - intros Hnow now'.
    rewrite (TempDB_Update_first (mkTempDB (<[i := set_DBVersion now key]> (keys db)) None)
               key now' i (set_DBVersion now key) eq_refl Hf').
    simpl. by destruct (Z.eqb_spec now (dbk_DBVersion key)).
Qed.

(** X16. [TempDB.Update] and [Get] together give the optimistic lock: after
    a successful [Update] of a key, [Get] of its id returns the key that
    was passed, stamped with the clock reading [now], and [Get] of every
    other id answers as before; and when the clock reading differs from the
    token the caller held, a second [Update] with that stale token fails
    with [ErrDBVersion] and changes nothing. *)
Theorem TempDB_Update_then_Get (db : TempDB) (key : DBKey) (now : Z) (db' : TempDB) :
  TempDB_Update db key now = (Ok tt, db') →
  TempDB_Get db' (dbk_ID key) = Ok (mkDBKey (dbk_ID key) (dbk_ACL key) (dbk_VersionList key) (dbk_VersionHash key) now) ∧
  (∀ id, id ≠ dbk_ID key → TempDB_Get db' id = TempDB_Get db id) ∧
  (now ≠ dbk_DBVersion key →
     ∀ now', TempDB_Update db' key now' = (Err ErrDBVersion, db')).
Proof. exact (TempDB_Update_Ok_spec db key now db'). Qed.

Lemma TempDB_Update_then_Get_witness :
  let k1 := mkDBKey "id1" [] [] "h1" 1 in
  let db := mkTempDB [k1] None in
  let key := mkDBKey "id1" [mkAccess User "test" Admin] [] "h1" 1 in
  TempDB_Update db key 7 = (Ok tt, mkTempDB [set_DBVersion 7 key] None) ∧
  TempDB_Get (mkTempDB [set_DBVersion 7 key] None) "id1" = Ok (set_DBVersion 7 key) ∧
  TempDB_Update (mkTempDB [set_DBVersion 7 key] None) key 9
  = (Err ErrDBVersion, mkTempDB [set_DBVersion 7 key] None).
Proof.
  split; [reflexivity|].
  destruct (TempDB_Update_then_Get
              (mkTempDB [mkDBKey "id1" [] [] "h1" 1] None)
              (mkDBKey "id1" [mkAccess User "test" Admin] [] "h1" 1) 7
              (mkTempDB [set_DBVersion 7 (mkDBKey "id1" [mkAccess User "test" Admin] [] "h1" 1)]
                 None) eq_refl) as (H1 & _ & H3).
  split; [exact H1|]. apply H3. done.
Defined.

(** ** The cryptor: associated data and scheme version *)

Lemma lor_0x80 a : 0 ≤ a < 128 → Z.lor a 0x80 = a + 128.
Proof.
  intros Ha. assert (Hl : Z.land a 128 = 0).
  { apply Z.bits_inj'. intros n Hn. rewrite Z.land_spec, Z.bits_0.
    change 128 with (2 ^ 7). rewrite Z.pow2_bits_eqb by lia.
    destruct (Z.eqb_spec 7 n) as [<-|]; [|by rewrite andb_false_r].
    rewrite andb_true_r. destruct (Z.eq_dec a 0) as [->|]; [done|].
    apply Z.bits_above_log2; [lia|]. apply Z.log2_lt_pow2; lia. }
  rewrite <- Z.lxor_lor by done. symmetry. by apply Z.add_nocarry_lxor.
Qed.

Lemma uvarint_step f x :
  0 ≤ x →
  uvarint (S f) x = if x <? 0x80 then [x] else (x mod 128 + 128) :: uvarint f (x / 128).
Proof.
  intros Hx. simpl. destruct (x <? 128); [done|]. f_equal.
  - change 127 with (Z.ones 7). rewrite Z.land_ones by lia.
    change (2 ^ 7) with 128. apply lor_0x80. apply Z.mod_pos_bound. lia.
  - by rewrite Z.shiftr_div_pow2 by lia.
Qed.

(** The variable-length encoding can be read back: an encoded number
    followed by anything determines the number and what follows. *)
Lemma uvarint_inj f : ∀ x y (p q : list Z),
  0 ≤ x < 2 ^ (7 * Z.of_nat f) → 0 ≤ y < 2 ^ (7 * Z.of_nat f) →
  uvarint f x ++ p = uvarint f y ++ q → x = y ∧ p = q.
Proof.
  induction f as [|f IH]; intros x y p q Hx Hy.
  - simpl. intros ->. split; [|done]. change (2 ^ (7 * Z.of_nat 0)) with 1 in *. lia.
  - rewrite !uvarint_step by lia.
    assert (Hpow : 2 ^ (7 * Z.of_nat (S f)) = 128 * 2 ^ (7 * Z.of_nat f)).
    { replace (7 * Z.of_nat (S f)) with (7 + 7 * Z.of_nat f) by lia.
      rewrite Z.pow_add_r by lia. done. }
    assert (Hxm := Z.mod_pos_bound x 128 ltac:(lia)).
    assert (Hym := Z.mod_pos_bound y 128 ltac:(lia)).
    destruct (Z.ltb_spec x 128), (Z.ltb_spec y 128); simpl; intros [= H1 H2].
    + done.
    + lia.
    + lia.
    + destruct (IH (x / 128) (y / 128) p q) as [Hd ->]; [| |done|].
      * split; [apply Z.div_pos; lia|]. apply Z.div_lt_upper_bound; lia.
      * split; [apply Z.div_pos; lia|]. apply Z.div_lt_upper_bound; lia.
      * split; [|done].
        rewrite (Z.div_mod x 128), (Z.div_mod y 128) by lia. lia.
Qed.

Lemma PutUvarint_inj x y (p q : list Z) :
  0 ≤ x < 2 ^ 64 → 0 ≤ y < 2 ^ 64 →
  PutUvarint x ++ p = PutUvarint y ++ q → x = y ∧ p = q.
Proof.
  intros Hx Hy. unfold PutUvarint. cbv zeta. rewrite <- !app_assoc. intros H.
  apply uvarint_inj in H as [-> H].
  - split; [done|]. by apply app_inv_head in H.
  - change (2 ^ (7 * Z.of_nat MaxVarintLen64)) with (2 ^ 70). lia.
  - change (2 ^ (7 * Z.of_nat MaxVarintLen64)) with (2 ^ 70). lia.
Qed.

Lemma string_bytes_inj s1 s2 : string_bytes s1 = string_bytes s2 → s1 = s2.
Proof.
  unfold string_bytes, Sha256.bytes_of_string. intros H.
  rewrite <- (string_of_list_ascii_of_string s1), <- (string_of_list_ascii_of_string s2).
  f_equal. revert H. generalize (list_ascii_of_string s1) (list_ascii_of_string s2).
  induction l as [|c l IH]; intros [|d l']; simpl; try done.
  intros [= Hc Hl]. f_equal; [|by apply IH].
  apply N2Z.inj in Hc.
  rewrite <- (ascii_N_embedding c), <- (ascii_N_embedding d). by rewrite Hc.
Qed.

(** X17. The associated data of a version binds it to its key and its
    identity: [generateAD] gives different bytes for different triples of
    key id, version id (a uint64) and creation time (an int64).  A
    ciphertext is therefore authenticated for one key id, one version id
    and one creation time only. *)
Theorem generateAD_injective (kid kid' : string) (vid vid' creation creation' : Z) :
  0 ≤ vid < 2 ^ 64 → 0 ≤ vid' < 2 ^ 64 →
  - 2 ^ 63 ≤ creation < 2 ^ 63 → - 2 ^ 63 ≤ creation' < 2 ^ 63 →
  generateAD kid vid creation = generateAD kid' vid' creation' →
  kid = kid' ∧ vid = vid' ∧ creation = creation'.
Proof.
  intros Hv Hv' Hc Hc'. unfold generateAD, PutVarint. intros H.
  apply PutUvarint_inj in H as [-> H]; [|done..].
  apply PutUvarint_inj in H as [Hz H].
  - apply string_bytes_inj in H as ->. split; [done|]. split; [done|].
    destruct (Z.ltb_spec creation 0), (Z.ltb_spec creation' 0); lia.
  - destruct (Z.ltb_spec creation 0); lia.
  - destruct (Z.ltb_spec creation' 0); lia.
Qed.

Lemma generateAD_injective_witness :
  generateAD "testkey" 12345 1 = generateAD "testkey" 12345 1 ∧
  ("testkey"%string = "testkey"%string ∧ 12345 = 12345 ∧ 1 = 1).
Proof.
  split; [reflexivity|].
  apply (generateAD_injective "testkey" "testkey" 12345 12345 1 1); try lia. reflexivity.
Defined.

(** ** The cryptor and the key manager over the DB *)

Section CryptorMore.
Context {C : Crypto}.

Lemma Encrypt_range_cons c k v l e evs e' :
  Encrypt_range c k (v :: l) e = (Ok evs, e') →
  ∃ ev e1 evs', EncryptVersion c k v e = (Ok ev, e1) ∧
                Encrypt_range c k l e1 = (Ok evs', e') ∧ evs = ev :: evs'.
Proof.
  simpl. destruct (EncryptVersion c k v e) as [[ev|x|w] e1] eqn:HE; try (intros [=]; fail).
  destruct (Encrypt_range c k l e1) as [[evs'|x|w] e2] eqn:HR; try (intros [=]; fail).
  intros [= <- <-]. by eexists _, _, _.
Qed.

(** [Decrypt] reads the id and the versions of the stored key, and copies
    its ACL and hash. *)
Lemma Decrypt_range_ID c k1 k2 l :
  dbk_ID k1 = dbk_ID k2 → Decrypt_range c k1 l = Decrypt_range c k2 l.
Proof.
  intros Hid. induction l as [|v l IH]; simpl; [done|].
  unfold decryptVersion. rewrite Hid, IH. done.
Qed.

Lemma Decrypt_fields c dbk k :
  Decrypt c dbk = Ok k →
  Decrypt_range c dbk (dbk_VersionList dbk) = Ok (k_VersionList k) ∧
  k_ID k = dbk_ID dbk ∧ k_ACL k = dbk_ACL dbk ∧ k_VersionHash k = dbk_VersionHash dbk ∧
  k_Path k = ""%string.
Proof.
  unfold Decrypt. destruct (Decrypt_range c dbk (dbk_VersionList dbk)); [|done..].
  by intros [= <-].
Qed.

Lemma Decrypt_of_range c dbk versions :
  Decrypt_range c dbk (dbk_VersionList dbk) = Ok versions →
  Decrypt c dbk = Ok (mkKey (dbk_ID dbk) (dbk_ACL dbk) versions (dbk_VersionHash dbk) "").
Proof. unfold Decrypt. by intros ->. Qed.

(** Decryption under another scheme version, in terms of [set_Path]. *)
Lemma Decrypt_other_version_spec (c c' : aesGCMCryptor) (k : Key) (e e' : entropy) (dbk : DBKey) :
  version c' ≠ version c →
  Encrypt c k e = (Ok dbk, e') →
  Decrypt c' dbk =
  match k_VersionList k with
  | [] => Ok (set_Path "" k)
  | _ :: _ => Err ErrCryptorVersion
  end.
Proof.
  intros Hne. unfold Encrypt.
  destruct (Encrypt_range c k (k_VersionList k) e) as [[evs|x|w] e1] eqn:HR;
    try (intros [=]; fail).
  intros [= <- <-]. unfold Decrypt, set_Path. simpl.
  destruct (k_VersionList k) as [|v l].
  - simpl in HR. by injection HR as <- <-.
  - apply Encrypt_range_cons in HR as (ev & e2 & evs' & HE & _ & ->). simpl.
    by rewrite (decryptVersion_other_version c c' k _ v e ev e2 Hne HE).
Qed.

(** X18. A key encrypted under one scheme version byte is refused by a
    cryptor with another: [Decrypt] fails with [ErrCryptorVersion] at the
    first version it looks at, before any cipher is built, as soon as the
    key has a version.  A key with no version at all holds nothing
    encrypted, and decrypts under any cryptor. *)
Theorem Decrypt_other_version (c c' : aesGCMCryptor) (k : Key) (e e' : entropy) (dbk : DBKey) :
  version c' ≠ version c →
  Encrypt c k e = (Ok dbk, e') →
  Decrypt c' dbk =
  match k_VersionList k with
  | [] => Ok (mkKey (k_ID k) (k_ACL k) [] (k_VersionHash k) "")
  | _ :: _ => Err ErrCryptorVersion
  end.
Proof.
  intros Hv HE. rewrite (Decrypt_other_version_spec c c' k e e' dbk Hv HE).
  by destruct k as [? ? [|? ?] ? ?].
Qed.

End CryptorMore.

Lemma Decrypt_other_version_witness :
  let c' := mkCryptor (string_bytes "testtesttesttest") 1 in
  version c' ≠ version Sample.cryptor0 ∧
  Encrypt (C := AESGCM.crypto) Sample.cryptor0 Sample.key0 Sample.tape0
  = (Ok (set_DBVersion 0 Sample.dbkey0), []) ∧
  Decrypt (C := AESGCM.crypto) c' (set_DBVersion 0 Sample.dbkey0) = Err ErrCryptorVersion.
Proof.
  assert (HE : Encrypt (C := AESGCM.crypto) Sample.cryptor0 Sample.key0 Sample.tape0
               = (Ok (set_DBVersion 0 Sample.dbkey0), [])) by (vm_compute; reflexivity).
  split; [done|]. split; [exact HE|].
  apply (Decrypt_other_version (C := AESGCM.crypto) Sample.cryptor0
           (mkCryptor (string_bytes "testtesttesttest") 1) Sample.key0
           Sample.tape0 [] (set_DBVersion 0 Sample.dbkey0)); [done|exact HE].
Defined.

Section KeyManagerMore.
Context {C : Crypto} {Laws : CryptoLaws C}.

(** [GetKey] once the stored key is found and decrypted. *)
Lemma GetKey_unfold (m : keyManager) id status encK k :
  TempDB_Get (db m) id = Ok encK →
  Decrypt (cryptor m) encK = Ok k →
  GetKey m id status =
  if status =? Inactive then Ok k
  else if status =? Active then Ok (set_VersionList (GetActive (k_VersionList k)) k)
  else if status =? Primary then
    match GetPrimary (k_VersionList k) with
    | Some p => Ok (set_VersionList [p] k)
    | None => Panic "invalid memory address or nil pointer dereference"
    end
  else Err ErrInvalidStatus.
Proof. intros HG HD. unfold GetKey. by rewrite HG, HD. Qed.

Lemma GetKey_other (m m' : keyManager) id status :
  cryptor m' = cryptor m →
  TempDB_Get (db m') id = TempDB_Get (db m) id →
  GetKey m' id status = GetKey m id status.
Proof. intros Hc HG. unfold GetKey. by rewrite HG, Hc. Qed.

Lemma TempDB_Get_range_cases id l :
  (∃ k, TempDB_Get_range id l = Ok k) ∨ TempDB_Get_range id l = Err ErrKeyIDNotFound.
Proof.
  induction l as [|k l IH]; simpl; [by right|].
  destruct (String.eqb (dbk_ID k) id); [left; by eexists|done].
Qed.

Lemma TempDB_Get_ID db id k : TempDB_Get db id = Ok k → dbk_ID k = id.
Proof.
  unfold TempDB_Get. destruct (err db); [done|].
  intros (i & _ & Hk & _)%TempDB_Get_range_Ok. simpl in Hk. by apply String.eqb_eq.
Qed.

Lemma TempDB_Get_first db id k :
  TempDB_Get db id = Ok k →
  err db = None ∧ ∃ i, first_at (λ k, String.eqb (dbk_ID k) id) (keys db) i k.
Proof.
  unfold TempDB_Get. destruct (err db); [done|]. intros H. split; [done|].
  by apply TempDB_Get_range_Ok.
Qed.

Lemma Decrypt_set_DBVersion c t dbk : Decrypt c (set_DBVersion t dbk) = Decrypt c dbk.
Proof.
  unfold Decrypt. simpl.
  by rewrite (Decrypt_range_ID c (set_DBVersion t dbk) dbk).
Qed.

(** X19. A key added is a key served: when [AddNewKey] succeeds on a DB
    that did not hold the id and has no injected error, [GetKey] with
    status Inactive returns the key that was added - its id, ACL, hash and
    every version with its data - with the versions in the sorted order
    that the validation left them in, and with an empty path; [GetKey] for
    every other id answers as before.  [AddNewKey] does succeed whenever
    the key validates, the cipher accepts the cryptor's key and the random
    source gives a nonce for every version. *)
Theorem AddNewKey_then_GetKey (m : keyManager) (k : Key) (e : entropy) (now : Z) :
  err (db m) = None →
  k_ID k ∉ stored_ids (db m) →
  Key_Validate k = None →
  (∀ b gcm, NewCipher (keyData (cryptor m)) = Ok b → NewGCM b = Ok gcm →
     reads_ok gcm (length (k_VersionList k)) e →
     ∃ db' e', AddNewKey m k e now = (Ok tt, db', e')) ∧
  (∀ db' e', AddNewKey m k e now = (Ok tt, db', e') →
     let m' := mkKeyManager (cryptor m) db' in
     GetKey m' (k_ID k) Inactive
     = Ok (mkKey (k_ID k) (k_ACL k) (Sort (k_VersionList k)) (k_VersionHash k) "") ∧
     (∀ id status, id ≠ k_ID k → GetKey m' id status = GetKey m id status)).
Proof.
  intros Herr Hfresh Hval.
  set (k' := set_VersionList (Sort (k_VersionList k)) k).
  assert (Hadd : ∀ dbk, dbk_ID dbk = k_ID k →
            TempDB_Add (db m) [dbk] (λ _, now)
            = (Ok tt, mkTempDB (keys (db m) ++ [set_DBVersion now dbk]) None)).
  { intros dbk Hid. unfold TempDB_Add. rewrite Herr. simpl.
    assert (Hs : id_stored (dbk_ID dbk) (keys (db m)) = false).
    { apply not_true_is_false. rewrite id_stored_spec, Hid. exact Hfresh. }
    by rewrite Hs. }
  split.
  - intros b gcm Hb Hg Hr. unfold AddNewKey. rewrite Hval. fold k'.
    destruct (Encrypt_Decrypt_lawful (cryptor m) k' e) as [Hfields Htotal].
    destruct (Htotal b gcm Hb Hg) as (dbk & e' & HE).
    { simpl. by rewrite (Permutation_length (Sort_Permutation (k_VersionList k))). }
    rewrite HE. destruct (Hfields dbk e' HE) as (_ & _ & Hid & _).
    rewrite (Hadd dbk Hid). by eexists _, _.
  - intros db' e'. unfold AddNewKey. rewrite Hval. fold k'.
    destruct (Encrypt (cryptor m) k' e) as [[dbk|x|w] e1] eqn:HE; try (intros [=]; fail).
    destruct (Encrypt_Decrypt_lawful (cryptor m) k' e) as [Hfields _].
    destruct (Hfields dbk e1 HE) as (HD & _ & Hid & _).
    rewrite (Hadd dbk Hid). intros [= <- <-]. simpl. split.
    + assert (HG : TempDB_Get (mkTempDB (keys (db m) ++ [set_DBVersion now dbk]) None) (k_ID k)
                   = Ok (set_DBVersion now dbk)).
      { unfold TempDB_Get. simpl. rewrite TempDB_Get_range_app.
        assert (Hn : TempDB_Get_range (k_ID k) (keys (db m)) = Err ErrKeyIDNotFound)
          by (by apply TempDB_Get_range_none).
        rewrite Hn. simpl. simpl in Hid. by rewrite Hid, String.eqb_refl. }
      rewrite (GetKey_unfold
                 (mkKeyManager (cryptor m)
                    (mkTempDB (keys (db m) ++ [set_DBVersion now dbk]) None))
                 (k_ID k) Inactive (set_DBVersion now dbk) (set_Path "" k'));
        [done|exact HG|]. simpl. by rewrite Decrypt_set_DBVersion.
    + intros id status Hne. apply GetKey_other; [done|]. simpl.
      unfold TempDB_Get. simpl. rewrite Herr, TempDB_Get_range_app.
      destruct (TempDB_Get_range_cases id (keys (db m))) as [[k0 ->]| ->]; [done|].
      simpl. simpl in Hid. rewrite Hid.
      by destruct (String.eqb_spec (k_ID k) id); [congruence|].
Qed.

(** [Decrypt] does not look at the ACL. *)
Lemma Decrypt_set_ACL c acl dbk k :
  Decrypt c dbk = Ok k →
  Decrypt c (set_ACL acl dbk)
  = Ok (mkKey (k_ID k) acl (k_VersionList k) (k_VersionHash k) (k_Path k)).
Proof.
  unfold Decrypt. simpl. rewrite (Decrypt_range_ID c (set_ACL acl dbk) dbk) by done.
  destruct (Decrypt_range c dbk (dbk_VersionList dbk)); [|done..]. by intros [= <-].
Qed.

(** Writing back a key that was read in the same call. *)
Lemma TempDB_Update_after_Get db id encK newEncK now :
  TempDB_Get db id = Ok encK →
  dbk_ID newEncK = dbk_ID encK → dbk_DBVersion newEncK = dbk_DBVersion encK →
  ∃ db', TempDB_Update db newEncK now = (Ok tt, db') ∧
         TempDB_Get db' id = Ok (set_DBVersion now newEncK) ∧
         (∀ id', id' ≠ id → TempDB_Get db' id' = TempDB_Get db id').
Proof.
  intros HG Hid Hv. pose proof (TempDB_Get_ID _ _ _ HG) as Hid'.
  apply TempDB_Get_first in HG as (Herr & i & Hf).
  assert (Hf' : first_at (λ k, String.eqb (dbk_ID k) (dbk_ID newEncK)) (keys db) i encK)
    by (by rewrite Hid, Hid').
  pose proof (TempDB_Update_first db newEncK now i encK Herr Hf') as HU.
  rewrite Hv, Z.eqb_refl in HU.
  eexists. split; [exact HU|].
  destruct (TempDB_Update_Ok_spec _ _ _ _ HU) as (H1 & H2 & _).
  rewrite Hid, Hid' in H1, H2. by split.
Qed.

(** [UpdateAccess], in terms of [set_ACL] and [set_DBVersion]. *)
Lemma UpdateAccess_spec (m : keyManager) (id : string) (a : Access) (now : Z)
    (encK : DBKey) :
  TempDB_Get (db m) id = Ok encK →
  ACL_Validate (dbk_ACL encK) = None →
  ∃ db',
    UpdateAccess m id a now = (Ok tt, db') ∧
    TempDB_Get db' id = Ok (set_DBVersion now (set_ACL (Add (dbk_ACL encK) a) encK)) ∧
    (∀ status k, GetKey m id status = Ok k →
       GetKey (mkKeyManager (cryptor m) db') id status
       = Ok (mkKey (k_ID k) (Add (k_ACL k) a) (k_VersionList k) (k_VersionHash k) (k_Path k))) ∧
    (∀ id' status, id' ≠ id →
       GetKey (mkKeyManager (cryptor m) db') id' status = GetKey m id' status).
Proof.
  intros HG Hval. unfold UpdateAccess. rewrite HG. cbv zeta.
  change (dbk_ACL (set_ACL (Add (dbk_ACL (Copy encK)) a) (Copy encK)))
    with (Add (dbk_ACL encK) a).
  rewrite (ACL_Validate_Add _ a Hval).
  change (set_ACL (Add (dbk_ACL (Copy encK)) a) (Copy encK))
    with (set_ACL (Add (dbk_ACL encK) a) encK).
  destruct (TempDB_Update_after_Get (db m) id encK (set_ACL (Add (dbk_ACL encK) a) encK) now
              HG eq_refl eq_refl) as (db' & HU & HG' & Hother).
  exists db'. split; [exact HU|]. split; [exact HG'|]. split.
  - intros status k. unfold GetKey at 1. rewrite HG.
    destruct (Decrypt (cryptor m) encK) as [k0|x|w] eqn:HD; [|done..].
    pose proof (Decrypt_fields _ _ _ HD) as (_ & _ & HACL & _).
    assert (HD' : Decrypt (cryptor m) (set_DBVersion now (set_ACL (Add (dbk_ACL encK) a) encK))
                  = Ok (mkKey (k_ID k0) (Add (k_ACL k0) a) (k_VersionList k0)
                          (k_VersionHash k0) (k_Path k0))).
    { rewrite Decrypt_set_DBVersion, (Decrypt_set_ACL _ _ _ _ HD). by rewrite HACL. }
    rewrite (GetKey_unfold (mkKeyManager (cryptor m) db') id status _ _ HG' HD'). simpl.
    destruct (status =? Inactive); [by intros [= <-]|].
    destruct (status =? Active); [by intros [= <-]|].
    destruct (status =? Primary); [|done].
    destruct (GetPrimary (k_VersionList k0)); [by intros [= <-]|done].
  - intros id' status Hne. apply GetKey_other; [done|]. by apply Hother.
Qed.

(** X20. [UpdateAccess] changes the ACL of one key and nothing else: on a
    stored key whose ACL validates it always succeeds (the DB token it
    writes with is the one it has just read), the stored ACL becomes
    [Add] of the old ACL and the entry, the stored versions and hash are
    kept, and [GetKey] afterwards returns, for every status, the key it
    returned before with the new ACL; [GetKey] for every other id answers
    as before. *)
Theorem UpdateAccess_then_GetKey (m : keyManager) (id : string) (a : Access) (now : Z)
    (encK : DBKey) :
  TempDB_Get (db m) id = Ok encK →
  ACL_Validate (dbk_ACL encK) = None →
  ∃ db',
    UpdateAccess m id a now = (Ok tt, db') ∧
    TempDB_Get db' id = Ok (mkDBKey (dbk_ID encK) (Add (dbk_ACL encK) a) (dbk_VersionList encK)
                             (dbk_VersionHash encK) now) ∧
    (∀ status k, GetKey m id status = Ok k →
       GetKey (mkKeyManager (cryptor m) db') id status
       = Ok (mkKey (k_ID k) (Add (k_ACL k) a) (k_VersionList k) (k_VersionHash k) (k_Path k))) ∧
    (∀ id' status, id' ≠ id →
       GetKey (mkKeyManager (cryptor m) db') id' status = GetKey m id' status).
Proof. exact (UpdateAccess_spec m id a now encK). Qed.

(** [decryptVersion] copies the status it finds. *)
Lemma decryptVersion_set_Status c dbk ev v s :
  decryptVersion c dbk ev = Ok v →
  decryptVersion c dbk (set_ekv_Status s ev) = Ok (set_Status s v).
Proof.
  unfold decryptVersion. simpl. destruct (ekv_CryptoMetadata ev) as [|mv mn]; [done|].
  destruct (negb (mv =? version c)); [done|].
  destruct (NewCipher (keyData c)) as [b|x|w]; [|done..].
  destruct (NewGCM b) as [gcm|x|w]; [|done..].
  destruct (Open gcm mn (ekv_EncData ev) _) as [pt|x|w]; [|done..].
  by intros [= <-].
Qed.

Lemma decryptVersion_ID c dbk ev v :
  decryptVersion c dbk ev = Ok v →
  kv_ID v = ekv_ID ev ∧ kv_CreationTime v = ekv_CreationTime ev.
Proof.
  unfold decryptVersion. destruct (ekv_CryptoMetadata ev) as [|mv mn]; [done|].
  destruct (negb (mv =? version c)); [done|].
  destruct (NewCipher (keyData c)) as [b|x|w]; [|done..].
  destruct (NewGCM b) as [gcm|x|w]; [|done..].
  destruct (Open gcm mn (ekv_EncData ev) _) as [pt|x|w]; [|done..].
  by intros [= <-].
Qed.

Lemma sync_Status_fold (l : KeyVersionList) (ev acc : EncKeyVersion) :
  (∀ nv, nv ∈ l → kv_ID nv ≠ ekv_ID ev) →
  fold_left (λ acc nv, if ekv_ID ev =? kv_ID nv then set_ekv_Status (kv_Status nv) acc else acc)
    l acc = acc.
Proof.
  revert acc. induction l as [|x l IH]; intros acc Hn; simpl; [done|].
  destruct (Z.eqb_spec (ekv_ID ev) (kv_ID x)) as [Heq|_].
  - exfalso. apply (Hn x); [left|done].
  - apply IH. intros nv Hnv. apply Hn. by right.
Qed.

(** With distinct ids, the inner loop of [UpdateVersion] gives a stored
    version the status of the one version that has its id. *)
Lemma sync_Status_unique (l : KeyVersionList) (ev : EncKeyVersion) (nv : KeyVersion) :
  NoDup (kv_ID <$> l) → nv ∈ l → kv_ID nv = ekv_ID ev →
  sync_Status l ev = set_ekv_Status (kv_Status nv) ev.
Proof.
  unfold sync_Status. intros Hnd Hin Hid.
  assert (Hgen : ∀ acc, (∀ s, set_ekv_Status s acc = set_ekv_Status s ev) →
            fold_left (λ acc nv, if ekv_ID ev =? kv_ID nv
                                 then set_ekv_Status (kv_Status nv) acc else acc) l acc
            = set_ekv_Status (kv_Status nv) ev); [|by apply Hgen].
  induction l as [|x l IH]; intros acc Hacc; [by apply elem_of_nil in Hin|].
  rewrite fmap_cons in Hnd. apply NoDup_cons in Hnd as [Hx Hnd]. simpl.
  apply elem_of_cons in Hin as [<-|Hin].
  - rewrite Hid, Z.eqb_refl. rewrite sync_Status_fold; [apply Hacc|].
    intros y Hy Heq. apply Hx. rewrite Hid, <- Heq. by apply list_elem_of_fmap_2.
  - destruct (Z.eqb_spec (ekv_ID ev) (kv_ID x)) as [Heq|_].
    + exfalso. apply Hx. rewrite <- Heq, <- Hid. by apply list_elem_of_fmap_2.
    + by apply IH.
Qed.

Lemma Decrypt_range_sync c dbk dbk' (L : KeyVersionList) :
  dbk_ID dbk' = dbk_ID dbk → NoDup (kv_ID <$> L) →
  ∀ evs vl kvl,
    Decrypt_range c dbk evs = Ok vl →
    map kv_ID kvl = map kv_ID vl → map kv_Data kvl = map kv_Data vl →
    map kv_CreationTime kvl = map kv_CreationTime vl →
    (∀ nv, nv ∈ kvl → nv ∈ L) →
    Decrypt_range c dbk' (map (sync_Status L) evs) = Ok kvl ∧
    map ekv_EncData (map (sync_Status L) evs) = map ekv_EncData evs ∧
    map ekv_CryptoMetadata (map (sync_Status L) evs) = map ekv_CryptoMetadata evs.
Proof.
  intros Hid Hnd. induction evs as [|ev evs IH]; intros vl kvl; simpl.
  - intros [= <-]. by destruct kvl.
  - destruct (decryptVersion c dbk ev) as [v|x|w] eqn:Hv; [|done..].
    destruct (Decrypt_range c dbk evs) as [vl'|x|w] eqn:Hr; [|done..].
    intros [= <-]. destruct kvl as [|nv kvl]; [done|].
    simpl. intros [= Hi1 Hi2] [= Hd1 Hd2] [= Ht1 Ht2] Hin.
    destruct (decryptVersion_ID _ _ _ _ Hv) as [HvID HvT].
    assert (HnvL : nv ∈ L) by (apply Hin; left).
    assert (HnvID : kv_ID nv = ekv_ID ev) by (by rewrite Hi1).
    rewrite (sync_Status_unique L ev nv Hnd HnvL HnvID).
    destruct (IH vl' kvl eq_refl Hi2 Hd2 Ht2) as (-> & -> & ->).
    { intros y Hy. apply Hin. by right. }
    split; [|done].
    assert (Hv' : decryptVersion c dbk' (set_ekv_Status (kv_Status nv) ev)
                  = Ok (set_Status (kv_Status nv) v)).
    { apply decryptVersion_set_Status. unfold decryptVersion in *. by rewrite Hid. }
    rewrite Hv'. do 2 f_equal. destruct nv, v; unfold set_Status; simpl in *. congruence.
Qed.

Lemma KVL_Validate_Sort kvl : KVL_Validate kvl = None → KVL_Validate (Sort kvl) = None.
Proof.
  rewrite !KVL_Validate_None_iff. unfold version_ids, primaries. intros [Hnd H1]. split.
  - by rewrite (fmap_Permutation kv_ID _ _ (Sort_Permutation kvl)).
  - by rewrite (Permutation_length (Permutation_filter is_Primary _ _ (Sort_Permutation kvl))).
Qed.

Lemma Hash_Sort kvl : Hash (Sort kvl) = Hash kvl.
Proof.
  apply Hash_determined.
  - apply Permutation_length, Sort_Permutation.
  - apply used_keys_Sort_Permutation.
Qed.

(** A key that validates still does once [Update] has changed a status and
    the hash is recomputed, with the versions in any of the two orders. *)
Lemma Key_Validate_Update k versionID s kvl path :
  Key_Validate k = None →
  Update (k_VersionList k) versionID s = Ok kvl →
  Key_Validate (mkKey (k_ID k) (k_ACL k) (Sort kvl) (Hash kvl) path) = None.
Proof.
  unfold Key_Validate. simpl. intros Hv HU.
  destruct (MatchKeyID (k_ID k)); [|done]. simpl in *.
  destruct (ACL_Validate (k_ACL k)); [done|].
  destruct (KVL_Validate (k_VersionList k)) eqn:Hk; [done|].
  destruct (KVL_Validate_Update _ _ _ _ Hk HU) as (Hk' & _).
  rewrite (KVL_Validate_Sort _ Hk'), Hash_Sort, String.eqb_refl. done.
Qed.

(** X21. [UpdateVersion] changes statuses and the hash of one key and
    nothing else: on a stored key that decrypts to a valid key, it succeeds
    whenever [KeyVersionList.Update] accepts the change, and [GetKey]
    with status Inactive then returns the key with the version list that
    [Update] gave (same versions and data, same order) and the hash of that
    list.  No version is encrypted again: the stored ciphertexts and crypto
    metadata are the ones stored before.  [GetKey] for every other id
    answers as before. *)
Theorem UpdateVersion_then_GetKey (m : keyManager) (keyID : string) (versionID : Z)
    (s : VersionStatus) (now : Z) (encK : DBKey) (k : Key) (kvl : KeyVersionList) :
  TempDB_Get (db m) keyID = Ok encK →
  Decrypt (cryptor m) encK = Ok k →
  Key_Validate k = None →
  Update (k_VersionList k) versionID s = Ok kvl →
  ∃ db' encK',
    UpdateVersion m keyID versionID s now = (Ok tt, db') ∧
    TempDB_Get db' keyID = Ok encK' ∧
    map ekv_EncData (dbk_VersionList encK') = map ekv_EncData (dbk_VersionList encK) ∧
    map ekv_CryptoMetadata (dbk_VersionList encK')
    = map ekv_CryptoMetadata (dbk_VersionList encK) ∧
    GetKey (mkKeyManager (cryptor m) db') keyID Inactive
    = Ok (mkKey (k_ID k) (k_ACL k) kvl (Hash kvl) "") ∧
    (∀ id' status, id' ≠ keyID →
       GetKey (mkKeyManager (cryptor m) db') id' status = GetKey m id' status).
Proof.
  intros HG HD Hval HU. unfold UpdateVersion. rewrite HG, HD, HU. cbv zeta.
  rewrite (Key_Validate_Update k versionID s kvl (k_Path k) Hval HU).
  set (newEncK := mkDBKey (dbk_ID (Copy encK)) (dbk_ACL (Copy encK))
                    (map (sync_Status (Sort kvl)) (dbk_VersionList (Copy encK)))
                    (k_VersionHash (mkKey (k_ID k) (k_ACL k) (Sort kvl) (Hash kvl) (k_Path k)))
                    (dbk_DBVersion (Copy encK))).
  destruct (TempDB_Update_after_Get (db m) keyID encK newEncK now HG eq_refl eq_refl)
    as (db' & HU' & HG' & Hother).
  exists db', (set_DBVersion now newEncK). split; [exact HU'|]. split; [exact HG'|].
  pose proof (Decrypt_fields _ _ _ HD) as (HR & HID & HACL & _ & _).
  destruct (Update_Ok_first _ _ _ _ HU) as (i & v & _ & HUat).
  destruct (Update_at_fields _ _ _ _ _ HUat) as (Hids & Hdata & Htimes).
  assert (Hnd : NoDup (kv_ID <$> Sort kvl)).
  { unfold Key_Validate in Hval.
    destruct (MatchKeyID (k_ID k)); [|done]. simpl in Hval.
    destruct (ACL_Validate (k_ACL k)); [done|].
    destruct (KVL_Validate (k_VersionList k)) eqn:Hk; [done|].
    destruct (KVL_Validate_Update _ _ _ _ Hk HU) as (Hk' & _).
    apply KVL_Validate_Sort, KVL_Validate_None_iff in Hk'. by destruct Hk'. }
  destruct (Decrypt_range_sync (cryptor m) encK (set_DBVersion now newEncK) (Sort kvl)
              eq_refl Hnd (dbk_VersionList encK) (k_VersionList k) kvl HR Hids Hdata Htimes)
    as (HR' & HE & HM).
  { intros nv Hnv. by rewrite (Sort_Permutation kvl). }
  split; [exact HE|]. split; [exact HM|]. split.
  - rewrite (GetKey_unfold (mkKeyManager (cryptor m) db') keyID Inactive
               (set_DBVersion now newEncK)
               (mkKey (k_ID k) (k_ACL k) kvl (Hash kvl) "") HG'); [done|].
    simpl. rewrite (Decrypt_of_range _ _ kvl); [|exact HR']. simpl.
    by rewrite HID, HACL.
  - intros id' status Hne. apply GetKey_other; [done|]. by apply Hother.
Qed.

Lemma Decrypt_range_app c dbk evs1 evs2 vl1 vl2 :
  Decrypt_range c dbk evs1 = Ok vl1 → Decrypt_range c dbk evs2 = Ok vl2 →
  Decrypt_range c dbk (evs1 ++ evs2) = Ok (vl1 ++ vl2).
Proof.
  revert vl1. induction evs1 as [|ev evs1 IH]; intros vl1; simpl.
  - by intros [= <-].
  - destruct (decryptVersion c dbk ev) as [v|x|w]; [|done..].
    destruct (Decrypt_range c dbk evs1) as [vl|x|w]; [|done..].
    intros [= <-] H2. by rewrite (IH vl eq_refl H2).
Qed.

Lemma EncryptVersion_ID c k1 k2 v e :
  k_ID k1 = k_ID k2 → EncryptVersion c k1 v e = EncryptVersion c k2 v e.
Proof. intros Hid. unfold EncryptVersion. by rewrite Hid. Qed.

(** A valid version list stays valid with one more version, of a new id
    and not Primary. *)
Lemma KVL_Validate_snoc kvl v :
  KVL_Validate kvl = None → kv_ID v ∉ version_ids kvl → kv_Status v ≠ Primary →
  KVL_Validate (kvl ++ [v]) = None.
Proof.
  rewrite !KVL_Validate_None_iff. unfold version_ids, primaries.
  intros [Hnd H1] Hid Hs. split.
  - rewrite fmap_app. apply NoDup_app. split; [done|]. split; [|apply NoDup_singleton].
    intros x Hx Hx'. apply list_elem_of_singleton in Hx'. by subst.
  - rewrite List.filter_app, length_app, H1. simpl. unfold is_Primary.
    by destruct (Z.eqb_spec (kv_Status v) Primary).
Qed.

(** X22. A version added is a version served: on a stored key that
    decrypts to a valid key, for a new version with an id the key does not
    hold and a status that is not Primary, [AddVersion] succeeds whenever
    the encryption of the version does, and [GetKey] with status Inactive
    then returns the key with the new version after the versions it held,
    and the hash of that list; [GetKey] for every other id answers as
    before. *)
Theorem AddVersion_then_GetKey (m : keyManager) (id : string) (v : KeyVersion)
    (e e' : entropy) (now : Z) (encK : DBKey) (k : Key) (encV : EncKeyVersion) :
  TempDB_Get (db m) id = Ok encK →
  Decrypt (cryptor m) encK = Ok k →
  Key_Validate k = None →
  kv_ID v ∉ version_ids (k_VersionList k) →
  kv_Status v ≠ Primary →
  EncryptVersion (cryptor m) k v e = (Ok encV, e') →
  ∃ db',
    AddVersion m id v e now = (Ok tt, db', e') ∧
    GetKey (mkKeyManager (cryptor m) db') id Inactive
    = Ok (mkKey (k_ID k) (k_ACL k) (k_VersionList k ++ [v])
            (Hash (k_VersionList k ++ [v])) "") ∧
    (∀ id' status, id' ≠ id →
       GetKey (mkKeyManager (cryptor m) db') id' status = GetKey m id' status).
Proof.
  intros HG HD Hval Hfresh Hs HE. unfold AddVersion. rewrite HG, HD. cbv zeta.
  set (VL := k_VersionList k ++ [v]).
  set (k' := mkKey (k_ID k) (k_ACL k) (Sort VL) (Hash VL) (k_Path k)).
  assert (Hval' : Key_Validate k' = None).
  { unfold k', VL. unfold Key_Validate in *. simpl.
    destruct (MatchKeyID (k_ID k)); [|done]. simpl in *.
    destruct (ACL_Validate (k_ACL k)); [done|].
    destruct (KVL_Validate (k_VersionList k)) eqn:Hk; [done|].
    rewrite (KVL_Validate_Sort _ (KVL_Validate_snoc _ _ Hk Hfresh Hs)).
    by rewrite Hash_Sort, String.eqb_refl. }
  rewrite Hval'. rewrite (EncryptVersion_ID (cryptor m) k' k v e eq_refl), HE.
  set (newEncK := mkDBKey (dbk_ID (Copy encK)) (dbk_ACL (Copy encK))
                    (dbk_VersionList (Copy encK) ++ [encV])
                    (Hash (k_VersionList k')) (dbk_DBVersion (Copy encK))).
  destruct (TempDB_Update_after_Get (db m) id encK newEncK now HG eq_refl eq_refl)
    as (db' & HU' & HG' & Hother).
  rewrite HU'. exists db'. split; [done|].
  pose proof (Decrypt_fields _ _ _ HD) as (HR & HID & HACL & _ & _). split.
  - rewrite (GetKey_unfold (mkKeyManager (cryptor m) db') id Inactive
               (set_DBVersion now newEncK)
               (mkKey (k_ID k) (k_ACL k) VL (Hash VL) "") HG'); [done|].
    simpl. rewrite (Decrypt_of_range _ _ VL).
    + simpl. by rewrite HID, HACL, Hash_Sort.
    + simpl. apply Decrypt_range_app.
      * by rewrite (Decrypt_range_ID _ _ encK).
      * simpl. by rewrite (decryptVersion_EncryptVersion (cryptor m) k _ v e encV e').
  - intros id' status Hne. apply GetKey_other; [done|]. by apply Hother.
Qed.

(** X23. [GetAllKeyIDs] lists the id of every stored key, in the order of
    the DB, and [GetUpdatedKeyIDs] lists, in that order, the ids of the
    stored keys the caller names with another hash than the stored one: an
    id is not reported when its hash matches, and neither when the caller
    did not name it or when it is not stored.  Both return the injected
    error of the DB, if there is one. *)
Theorem GetUpdatedKeyIDs_reports (m : keyManager) (versions : gmap string string) :
  (∀ x, err (db m) = Some x → GetAllKeyIDs m = Err x ∧ GetUpdatedKeyIDs m versions = Err x) ∧
  (err (db m) = None →
     GetAllKeyIDs m = Ok (stored_ids (db m)) ∧
     GetUpdatedKeyIDs m versions
     = Ok (dbk_ID <$> List.filter
             (λ k, match versions !! dbk_ID k with
                   | Some v => negb (String.eqb (dbk_VersionHash k) v)
                   | None => false
                   end) (keys (db m))) ∧
     ∀ ids, GetUpdatedKeyIDs m versions = Ok ids →
       ∀ id, id ∈ ids ↔
         ∃ k v, k ∈ keys (db m) ∧ dbk_ID k = id ∧ versions !! id = Some v ∧
                dbk_VersionHash k ≠ v).
Proof.
  unfold GetAllKeyIDs, GetUpdatedKeyIDs, TempDB_GetAll, stored_ids. split.
  - by intros x ->.
  - intros ->.
    assert (H1 : ∀ (l : list DBKey) acc,
              fold_left (λ output k, output ++ [dbk_ID k]) l acc = acc ++ (dbk_ID <$> l)).
    { induction l as [|k l IH]; intros acc; simpl; [by rewrite app_nil_r|].
      by rewrite IH, <- app_assoc. }
    assert (H2 : ∀ (l : list DBKey) acc,
              fold_left (λ output k,
                 match versions !! dbk_ID k with
                 | Some v => if negb (String.eqb (dbk_VersionHash k) v)
                             then output ++ [dbk_ID k] else output
                 | None => output
                 end) l acc
              = acc ++ (dbk_ID <$> List.filter
                          (λ k, match versions !! dbk_ID k with
                                | Some v => negb (String.eqb (dbk_VersionHash k) v)
                                | None => false
                                end) l)).
    { induction l as [|k l IH]; intros acc; simpl; [by rewrite app_nil_r|].
      rewrite IH. destruct (versions !! dbk_ID k) as [v|]; [|done].
      destruct (negb (String.eqb (dbk_VersionHash k) v)); [|done].
      simpl. by rewrite <- app_assoc. }
    rewrite H1, H2. simpl. split; [done|]. split; [done|].
    intros ids [= <-] id. rewrite list_elem_of_fmap. split.
    + intros (k & -> & Hk). apply list_elem_of_In, filter_In in Hk as [Hk Hv].
      destruct (versions !! dbk_ID k) as [v|] eqn:Hver; [|done].
      exists k, v. split; [by apply list_elem_of_In|]. split; [done|]. split; [done|].
      apply negb_true_iff in Hv. by apply String.eqb_neq.
    + intros (k & v & Hk & <- & Hver & Hne). exists k. split; [done|].
      apply list_elem_of_In, filter_In. split; [by apply list_elem_of_In|].
      rewrite Hver. apply negb_true_iff. by apply String.eqb_neq.
Qed.

End KeyManagerMore.

Lemma AddNewKey_then_GetKey_witness :
  let m := mkKeyManager Sample.cryptor0 (mkTempDB [] None) in
  err (db m) = None ∧ (k_ID Sample.key0 ∉ stored_ids (db m)) ∧
  Key_Validate Sample.key0 = None ∧
  AddNewKey (C := AESGCM.crypto) m Sample.key0 Sample.tape0 1 = (Ok tt, Sample.db0, []) ∧
  GetKey (C := AESGCM.crypto) (mkKeyManager (cryptor m) Sample.db0) (k_ID Sample.key0) Inactive
  = Ok (mkKey (k_ID Sample.key0) (k_ACL Sample.key0) (Sort (k_VersionList Sample.key0))
          (k_VersionHash Sample.key0) "").
Proof.
  assert (H2 : k_ID Sample.key0 ∉ stored_ids (mkTempDB [] None)) by apply not_elem_of_nil.
  assert (H3 : Key_Validate Sample.key0 = None) by (vm_compute; reflexivity).
  assert (HA : AddNewKey (C := AESGCM.crypto)
                 (mkKeyManager Sample.cryptor0 (mkTempDB [] None)) Sample.key0 Sample.tape0 1
               = (Ok tt, Sample.db0, [])) by (vm_compute; reflexivity).
  split; [reflexivity|]. split; [exact H2|]. split; [exact H3|]. split; [exact HA|].
  destruct (AddNewKey_then_GetKey (C := AESGCM.crypto) (Laws := AESGCM_laws)
              (mkKeyManager Sample.cryptor0 (mkTempDB [] None)) Sample.key0 Sample.tape0 1
              eq_refl H2 H3) as [_ H].
  destruct (H Sample.db0 [] HA) as [HG _]. exact HG.
Defined.

Lemma UpdateAccess_then_GetKey_witness :
  let a := mkAccess Machine "host1" Read in
  TempDB_Get (db Sample.m0) "testkey" = Ok Sample.dbkey0 ∧
  ACL_Validate (dbk_ACL Sample.dbkey0) = None ∧
  ∃ db',
    UpdateAccess Sample.m0 "testkey" a 2 = (Ok tt, db') ∧
    TempDB_Get db' "testkey"
    = Ok (set_DBVersion 2 (set_ACL (Add (dbk_ACL Sample.dbkey0) a) Sample.dbkey0)) ∧
    (∀ status k, GetKey (C := AESGCM.crypto) Sample.m0 "testkey" status = Ok k →
       GetKey (C := AESGCM.crypto) (mkKeyManager (cryptor Sample.m0) db') "testkey" status
       = Ok (mkKey (k_ID k) (Add (k_ACL k) a) (k_VersionList k) (k_VersionHash k) (k_Path k))) ∧
    (∀ id' status, id' ≠ "testkey"%string →
       GetKey (C := AESGCM.crypto) (mkKeyManager (cryptor Sample.m0) db') id' status
       = GetKey (C := AESGCM.crypto) Sample.m0 id' status).
Proof.
  assert (H1 : TempDB_Get (db Sample.m0) "testkey" = Ok Sample.dbkey0)
    by (vm_compute; reflexivity).
  assert (H2 : ACL_Validate (dbk_ACL Sample.dbkey0) = None) by (vm_compute; reflexivity).
  split; [exact H1|]. split; [exact H2|].
  exact (UpdateAccess_then_GetKey (C := AESGCM.crypto) Sample.m0 "testkey"
           (mkAccess Machine "host1" Read) 2 Sample.dbkey0 H1 H2).
Defined.

Lemma UpdateVersion_then_GetKey_witness :
  let kvl := [set_Status Active Sample.v0; set_Status Primary Sample.v1] in
  TempDB_Get (db Sample.m1) "testkey" = Ok Sample.dbkey1 ∧
  Decrypt (C := AESGCM.crypto) (cryptor Sample.m1) Sample.dbkey1 = Ok Sample.key1 ∧
  Key_Validate Sample.key1 = None ∧
  Update (k_VersionList Sample.key1) 2 Primary = Ok kvl ∧
  ∃ db' encK',
    UpdateVersion (C := AESGCM.crypto) Sample.m1 "testkey" 2 Primary 3 = (Ok tt, db') ∧
    TempDB_Get db' "testkey" = Ok encK' ∧
    map ekv_EncData (dbk_VersionList encK') = map ekv_EncData (dbk_VersionList Sample.dbkey1) ∧
    map ekv_CryptoMetadata (dbk_VersionList encK')
    = map ekv_CryptoMetadata (dbk_VersionList Sample.dbkey1) ∧
    GetKey (C := AESGCM.crypto) (mkKeyManager (cryptor Sample.m1) db') "testkey" Inactive
    = Ok (mkKey (k_ID Sample.key1) (k_ACL Sample.key1) kvl (Hash kvl) "") ∧
    (∀ id' status, id' ≠ "testkey"%string →
       GetKey (C := AESGCM.crypto) (mkKeyManager (cryptor Sample.m1) db') id' status
       = GetKey (C := AESGCM.crypto) Sample.m1 id' status).
Proof.
  assert (H1 : TempDB_Get (db Sample.m1) "testkey" = Ok Sample.dbkey1)
    by (vm_compute; reflexivity).
  assert (H2 : Decrypt (C := AESGCM.crypto) (cryptor Sample.m1) Sample.dbkey1 = Ok Sample.key1)
    by (vm_compute; reflexivity).
  assert (H3 : Key_Validate Sample.key1 = None) by (vm_compute; reflexivity).
  assert (H4 : Update (k_VersionList Sample.key1) 2 Primary
               = Ok [set_Status Active Sample.v0; set_Status Primary Sample.v1])
    by (vm_compute; reflexivity).
  split; [exact H1|]. split; [exact H2|]. split; [exact H3|]. split; [exact H4|].
  exact (UpdateVersion_then_GetKey (C := AESGCM.crypto) Sample.m1 "testkey" 2 Primary 3
           Sample.dbkey1 Sample.key1 _ H1 H2 H3 H4).
Defined.

Lemma AddVersion_then_GetKey_witness :
  TempDB_Get (db Sample.m0) "testkey" = Ok Sample.dbkey0 ∧
  Decrypt (C := AESGCM.crypto) (cryptor Sample.m0) Sample.dbkey0 = Ok Sample.key0 ∧
  Key_Validate Sample.key0 = None ∧
  (kv_ID Sample.v1 ∉ version_ids (k_VersionList Sample.key0)) ∧
  kv_Status Sample.v1 ≠ Primary ∧
  EncryptVersion (C := AESGCM.crypto) (cryptor Sample.m0) Sample.key0 Sample.v1 Sample.tape0
  = (Ok Sample.encv1, []) ∧
  ∃ db',
    AddVersion (C := AESGCM.crypto) Sample.m0 "testkey" Sample.v1 Sample.tape0 2
    = (Ok tt, db', []) ∧
    GetKey (C := AESGCM.crypto) (mkKeyManager (cryptor Sample.m0) db') "testkey" Inactive
    = Ok (mkKey (k_ID Sample.key0) (k_ACL Sample.key0) (k_VersionList Sample.key0 ++ [Sample.v1])
            (Hash (k_VersionList Sample.key0 ++ [Sample.v1])) "") ∧
    (∀ id' status, id' ≠ "testkey"%string →
       GetKey (C := AESGCM.crypto) (mkKeyManager (cryptor Sample.m0) db') id' status
       = GetKey (C := AESGCM.crypto) Sample.m0 id' status).
Proof.
  assert (H1 : TempDB_Get (db Sample.m0) "testkey" = Ok Sample.dbkey0)
    by (vm_compute; reflexivity).
  assert (H2 : Decrypt (C := AESGCM.crypto) (cryptor Sample.m0) Sample.dbkey0 = Ok Sample.key0)
    by (vm_compute; reflexivity).
  assert (H3 : Key_Validate Sample.key0 = None) by (vm_compute; reflexivity).
  assert (H4 : kv_ID Sample.v1 ∉ version_ids (k_VersionList Sample.key0)).
  { intros [H|H]%elem_of_cons; [done|by apply elem_of_nil in H]. }
  assert (H5 : kv_Status Sample.v1 ≠ Primary) by done.
  assert (H6 : EncryptVersion (C := AESGCM.crypto) (cryptor Sample.m0) Sample.key0 Sample.v1
                 Sample.tape0 = (Ok Sample.encv1, [])) by (vm_compute; reflexivity).
  split; [exact H1|]. split; [exact H2|]. split; [exact H3|]. split; [exact H4|].
  split; [exact H5|]. split; [exact H6|].
  exact (AddVersion_then_GetKey (C := AESGCM.crypto) (Laws := AESGCM_laws) Sample.m0 "testkey"
           Sample.v1 Sample.tape0 [] 2 Sample.dbkey0 Sample.key0 Sample.encv1
           H1 H2 H3 H4 H5 H6).
Defined.

(** ** The server: decorators, authentication and handlers *)

(** X24. [GetRouter] folds its decorators so that they wrap the handler in
    the order of the list: the first decorator is the outermost one, it
    sees the request first and the response last, and the last decorator is
    applied to the handler itself. *)
Theorem GetRouter_decorator_order {H : Type} (decorators : list (H → H)) (h : H) :
  GetRouter_decorator decorators h = fold_right (λ d wrapped, d wrapped) h decorators.
Proof.
  unfold GetRouter_decorator. set (n := length decorators).
  assert (Hgen : ∀ k, (k ≤ n)%nat →
    fold_left
      (λ decorator i,
         match decorators !! (n - i - 1)%nat with
         | Some d => combine d decorator
         | None => decorator
         end) (seq 0 k) (λ f, f) h
    = fold_right (λ d wrapped, d wrapped) h (drop (n - k) decorators)).
  { induction k as [|k IH]; intros Hk.
    - simpl. rewrite Nat.sub_0_r. unfold n. by rewrite drop_all.
    - rewrite seq_S, fold_left_app. simpl.
      destruct (decorators !! (n - k - 1)%nat) as [d|] eqn:Hd.
      + unfold combine at 1. cbv beta. rewrite IH by lia.
        replace (n - k)%nat with (S (n - k - 1)) by lia.
        replace (n - S k)%nat with (n - k - 1)%nat by lia.
        by rewrite (drop_S _ _ _ Hd).
      + apply lookup_ge_None in Hd. unfold n in *. lia. }
  rewrite (Hgen n) by lia. by rewrite Nat.sub_diag.
Qed.

Lemma providerMatch_spec p header tok :
  providerMatch p header = Some tok ↔
  header = String (p_Version p) (String (p_Type p) tok) ∧ tok ≠ ""%string.
Proof.
  unfold providerMatch. destruct header as [|a0 [|a1 [|c rest]]].
  - split; [done|]. intros [Hh _]. simplify_eq.
  - split; [done|]. intros [Hh _]. simplify_eq.
  - split; [done|]. intros [Hh Hne]. simplify_eq.
  - destruct (Ascii.eqb_spec a0 (p_Version p)) as [->|Hv];
      destruct (Ascii.eqb_spec a1 (p_Type p)) as [->|Ht]; simpl.
    + split; [by intros [= <-]|]. intros [Hh _]. by simplify_eq.
    + split; [done|]. intros [Hh _]. simplify_eq.
    + split; [done|]. intros [Hh _]. simplify_eq.
    + split; [done|]. intros [Hh _]. simplify_eq.
Qed.

(** The provider loop of [Authentication], from any state of its
    variables, when no provider panics. *)
Lemma Authentication_loop header (l : list Provider) : ∀ st,
  (∀ p tok w, p ∈ l → providerMatch p header = Some tok → p_Authenticate p tok ≠ Panic w) →
  ∃ st', fold_left (Authentication_step header) l (Ok st) = Ok st' ∧
    (∀ d, defaultPrincipal st = Some d → defaultPrincipal st' = Some d) ∧
    (∀ n, is_Some (allPrincipals st !! n) → is_Some (allPrincipals st' !! n)) ∧
    (defaultPrincipal st = None →
       (∀ p tok d, p ∈ l → providerMatch p header = Some tok → p_Authenticate p tok ≠ Ok d) →
       defaultPrincipal st' = None) ∧
    (defaultPrincipal st = None →
       ∀ i p tok d, l !! i = Some p → providerMatch p header = Some tok →
         p_Authenticate p tok = Ok d →
         (∀ j q tok' d', (j < i)%nat → l !! j = Some q → providerMatch q header = Some tok' →
            p_Authenticate q tok' ≠ Ok d') →
         defaultPrincipal st' = Some d ∧ is_Some (allPrincipals st' !! p_Name p)) ∧
    ((∀ p, p ∈ l → providerMatch p header = None) → st' = st).
Proof.
  induction l as [|p l IH]; intros st Hpanic.
  - exists st. split; [done|]. split; [done|]. split; [done|]. split; [done|].
    split; [|done]. intros _ i p tok d Hi. by rewrite lookup_nil in Hi.
  - assert (Hpanic' : ∀ q tok w, q ∈ l → providerMatch q header = Some tok →
              p_Authenticate q tok ≠ Panic w).
    { intros q tok w Hq. apply Hpanic. by right. }
    cbn [fold_left]. unfold Authentication_step at 2.
    destruct (providerMatch p header) as [tok|] eqn:Hm.
    + destruct (p_Authenticate p tok) as [d|x|w] eqn:Ha.
      * (* the provider authenticates the token *)
        set (st1 := mkAuthLoop
                      match defaultPrincipal st with
                      | Some first => Some first
                      | None => Some d
                      end (<[p_Name p := d]> (allPrincipals st)) (errReturned st)).
        destruct (IH st1 Hpanic') as (st' & Hf & Hd & Hall & _ & _ & _).
        exists st'. split; [exact Hf|]. split; [|split; [|split; [|split]]].
        -- intros d0 Hd0. apply Hd. simpl. by rewrite Hd0.
        -- intros n Hn. apply Hall. simpl.
           destruct (decide (p_Name p = n)) as [<-|Hne].
           ++ rewrite lookup_insert_eq. by eexists.
           ++ by rewrite lookup_insert_ne.
        -- intros _ Hnone. exfalso. apply (Hnone p tok d); [left|done..].
        -- intros Hst [|i] q tok' d' Hi Hq Hqa Hbefore; simpl in Hi.
           ++ injection Hi as <-. rewrite Hm in Hq. injection Hq as <-.
              rewrite Ha in Hqa. injection Hqa as <-. split.
              ** apply Hd. simpl. by rewrite Hst.
              ** apply Hall. simpl. rewrite lookup_insert_eq. by eexists.
           ++ exfalso. apply (Hbefore 0%nat p tok d); [lia|done..].
        -- intros Hnone. specialize (Hnone p (list_elem_of_here _ _)). congruence.
      * (* the provider refuses the token *)
        set (st1 := mkAuthLoop (defaultPrincipal st) (allPrincipals st) x).
        destruct (IH st1 Hpanic') as (st' & Hf & Hd & Hall & Hnone' & Hfirst & _).
        exists st'. split; [exact Hf|]. split; [exact Hd|]. split; [exact Hall|].
        split; [|split].
        -- intros Hst Hnone. apply Hnone'; [done|].
           intros q tok' d' Hq. apply Hnone. by right.
        -- intros Hst [|i] q tok' d' Hi Hq Hqa Hbefore; simpl in Hi.
           ++ injection Hi as <-. congruence.
           ++ apply (Hfirst Hst i q tok' d' Hi Hq Hqa).
              intros j r tok'' d'' Hj. apply (Hbefore (S j)). lia.
        -- intros Hnone. specialize (Hnone p (list_elem_of_here _ _)). congruence.
      * exfalso. apply (Hpanic p tok w); [left|done..].
    + (* the header is not for this provider *)
      destruct (IH st Hpanic') as (st' & Hf & Hd & Hall & Hnone' & Hfirst & Hsame).
      exists st'. split; [exact Hf|]. split; [exact Hd|]. split; [exact Hall|].
      split; [|split].
      * intros Hst Hnone. apply Hnone'; [done|].
        intros q tok' d' Hq. apply Hnone. by right.
      * intros Hst [|i] q tok' d' Hi Hq Hqa Hbefore; simpl in Hi.
        -- injection Hi as <-. congruence.
        -- apply (Hfirst Hst i q tok' d' Hi Hq Hqa).
           intros j r tok'' d'' Hj. apply (Hbefore (S j)). lia.
      * intros Hnone. apply Hsame. intros q Hq. apply Hnone. by right.
Qed.

(** X25. [Authentication] lets a request through exactly when one of its
    providers both recognises the Authorization header (its version byte,
    its type byte, then a non-empty token) and authenticates the token; the
    principal of the request is the one of the first such provider in the
    list, whatever later providers say.  Otherwise the wrapped handler is
    not called and the answer is the error [UnauthenticatedCode], with the
    message "No matching authentication providers found" when no provider
    recognises the header. *)
Theorem Authentication_first_provider (providers : list Provider) (header : string) :
  (∀ p tok w, p ∈ providers → providerMatch p header = Some tok →
     p_Authenticate p tok ≠ Panic w) →
  (∀ p tok, providerMatch p header = Some tok ↔
     header = String (p_Version p) (String (p_Type p) tok) ∧ tok ≠ ""%string) ∧
  (∀ i p tok d,
     providers !! i = Some p → providerMatch p header = Some tok →
     p_Authenticate p tok = Ok d →
     (∀ j q tok' d', (j < i)%nat → providers !! j = Some q →
        providerMatch q header = Some tok' → p_Authenticate q tok' ≠ Ok d') →
     ∃ all, Authentication providers header = Ok (Accepted d all) ∧
            is_Some (all !! p_Name p)) ∧
  ((∀ p tok d, p ∈ providers → providerMatch p header = Some tok →
      p_Authenticate p tok ≠ Ok d) →
   ∃ msg, Authentication providers header = Ok (Rejected (errF UnauthenticatedCode msg))) ∧
  ((∀ p, p ∈ providers → providerMatch p header = None) →
   Authentication providers header
   = Ok (Rejected (errF UnauthenticatedCode "No matching authentication providers found"))).
Proof.
  intros Hpanic. split; [intros p tok; apply providerMatch_spec|].
  unfold Authentication.
  destruct (Authentication_loop header providers
              (mkAuthLoop None ∅ (Errorf "No matching authentication providers found")) Hpanic)
    as (st' & -> & _ & _ & Hnone & Hfirst & Hsame).
  split; [|split].
  - intros i p tok d Hi Hm Ha Hbefore.
    destruct (Hfirst eq_refl i p tok d Hi Hm Ha Hbefore) as [-> Hall]. by eexists.
  - intros H. rewrite (Hnone eq_refl H). by eexists.
  - intros H. by rewrite (Hsame H).
Qed.

Lemma Authentication_first_provider_witness :
  let github := mkProvider "0" "u" "github" (λ tok, Ok (NewUser tok [])) in
  let mtls := mkProvider "0" "t" "mtls" (λ tok, Err (Errorf "auth: No peer certs configured")) in
  (∀ p tok w, p ∈ [mtls; github] → providerMatch p "0utest" = Some tok →
     p_Authenticate p tok ≠ Panic w) ∧
  ∃ all, Authentication [mtls; github] "0utest" = Ok (Accepted (NewUser "test" []) all) ∧
         is_Some (all !! "github"%string).
Proof.
  set (github := mkProvider "0" "u" "github" (λ tok, Ok (NewUser tok []))).
  set (mtls := mkProvider "0" "t" "mtls" (λ tok, Err (Errorf "auth: No peer certs configured"))).
  assert (Hpanic : ∀ p tok w, p ∈ [mtls; github] → providerMatch p "0utest" = Some tok →
            p_Authenticate p tok ≠ Panic w).
  { intros p tok w Hp _. apply elem_of_cons in Hp as [->|Hp]; [done|].
    apply list_elem_of_singleton in Hp as ->. done. }
  split; [exact Hpanic|].
  destruct (Authentication_first_provider [mtls; github] "0utest" Hpanic) as (_ & H & _).
  apply (H 1%nat github "test"%string (NewUser "test" [])); [done..|].
  intros [|[|j]] q tok' d' Hj Hq; [|lia..]. injection Hq as <-. done.
Defined.

(** ** Creating a key *)

Lemma fold_Add_keeps (l : list Access) : ∀ (acl : ACL) (b : Access),
  b ∈ acl → (∀ a, a ∈ l → principal a ≠ principal b) → b ∈ fold_left Add l acl.
Proof.
  induction l as [|a l IH]; intros acl b Hb Hl; simpl; [done|].
  apply IH.
  - apply Add_other_elem; [done|]. apply same_principal_false.
    intros Heq. apply (Hl a); [left|done].
  - intros a' Ha'. apply Hl. by right.
Qed.

(** X26. [newKey] makes the creator an administrator and builds a key the
    validation accepts apart from its id and ACL: whatever ACL the request
    gave, the user who creates the key has Admin access to it (unless an
    entry of the default access list is about that very user), the key has
    exactly one version, Primary, holding the data, and its hash is the
    hash of its version list. *)
Theorem newKey_creator_is_Admin (defaultAccess : list Access) (id : string) (acl : ACL)
    (d : list Z) (ID : string) (groups : stringSet) (now rnd : Z) :
  (∀ a, a ∈ defaultAccess → principal a ≠ (User, ID)) →
  let key := newKey defaultAccess id acl d (user ID groups) now rnd in
  Principal_CanAccess (user ID groups) (k_ACL key) Admin = true ∧
  k_VersionList key = [mkKeyVersion rnd d Primary now] ∧
  KVL_Validate (k_VersionList key) = None ∧
  k_VersionHash key = Hash (k_VersionList key) ∧
  (Key_Validate key = None ↔ MatchKeyID id = true ∧ ACL_Validate (k_ACL key) = None).
Proof.
  intros Hdef. cbv zeta. unfold newKey. cbv zeta. cbn [k_ACL k_VersionList k_VersionHash].
  assert (Hk : KVL_Validate [newKeyVersion d Primary now rnd] = None) by done.
  split; [|split; [done|split; [done|split; [done|]]]].
  - rewrite Principal_CanAccess_existsb, existsb_exists.
    exists (mkAccess User ID Admin). split.
    + apply list_elem_of_In, fold_Add_keeps; [|exact Hdef]. by apply Add_grant_elem.
    + simpl. by rewrite String.eqb_refl.
  - unfold Key_Validate. cbn [k_ID k_ACL k_VersionList k_VersionHash]. rewrite Hk.
    rewrite String.eqb_refl. simpl.
    destruct (MatchKeyID id); simpl; [|split; [done|by intros [? _]]].
    destruct (ACL_Validate _); split; try done. by intros [_ ?].
Qed.

Lemma newKey_creator_is_Admin_witness :
  let defaultAccess := [mkAccess UserGroup "security" Admin] in
  let key := newKey defaultAccess "testkey" [mkAccess User "test" Read]
               (string_bytes "data") (user "test" ∅) 10 1 in
  (∀ a, a ∈ defaultAccess → principal a ≠ (User, "test"%string)) ∧
  k_ACL key = [mkAccess User "test" Admin; mkAccess UserGroup "security" Admin] ∧
  Principal_CanAccess (user "test" ∅) (k_ACL key) Admin = true.
Proof.
  assert (Hd : ∀ a, a ∈ [mkAccess UserGroup "security" Admin] →
            principal a ≠ (User, "test"%string)).
  { intros a ->%list_elem_of_singleton. done. }
  split; [exact Hd|]. split; [reflexivity|].
  destruct (newKey_creator_is_Admin [mkAccess UserGroup "security" Admin] "testkey"
              [mkAccess User "test" Read] (string_bytes "data") "test" ∅ 10 1 Hd) as [H _].
  exact H.
Defined.

(** ** Route handlers *)

Section HandlerFacts.
Context {C : Crypto}.

Lemma TempDB_Remove_Err db id x db' : TempDB_Remove db id = (Err x, db') → db' = db.
Proof.
  unfold TempDB_Remove. destruct (err db) as [e|] eqn:Herr; [by intros [= _ <-]|].
  destruct (first_at_or_none (λ k, String.eqb (dbk_ID k) id) (keys db)) as [(i & k & Hf)|Hn].
  - pose proof (TempDB_Remove_first db id i k Herr Hf) as H. unfold TempDB_Remove in H.
    rewrite Herr in H. by rewrite H.
  - pose proof (TempDB_Remove_none db id Herr Hn) as H. unfold TempDB_Remove in H.
    rewrite Herr in H. rewrite H. by intros [= _ <-].
Qed.

Lemma TempDB_Remove_no_Panic db id w db' : TempDB_Remove db id ≠ (Panic w, db').
Proof.
  unfold TempDB_Remove. destruct (err db) as [e|] eqn:Herr; [done|].
  destruct (first_at_or_none (λ k, String.eqb (dbk_ID k) id) (keys db)) as [(i & k & Hf)|Hn].
  - pose proof (TempDB_Remove_first db id i k Herr Hf) as H. unfold TempDB_Remove in H.
    rewrite Herr in H. by rewrite H.
  - pose proof (TempDB_Remove_none db id Herr Hn) as H. unfold TempDB_Remove in H.
    rewrite Herr in H. by rewrite H.
Qed.

(** X27. [getKeyHandler] gives out key data to readers only, and never the
    ACL: whenever it returns a key, the principal has Read access by the
    stored ACL of that key, the versions are the ones [GetKey] selects for
    the requested status (Active when the request names none), and the ACL
    of the returned key is empty.  A principal without Read access gets
    [UnauthorizedCode], an id that is not stored
    [KeyIdentifierDoesNotExistCode], and a status that is not one of the
    three names [BadRequestDataCode]. *)
Theorem getKeyHandler_authorizes (m : keyManager) (principal : Principal)
    (parameters : gmap string string) :
  let keyID := default ""%string (parameters !! "keyID"%string) in
  let requested status :=
    match parameters !! "status"%string with
    | Some statusStr => VersionStatus_UnmarshalJSON statusStr = Ok status
    | None => status = Active
    end in
  (∀ key, getKeyHandler m principal parameters = Data key →
     ∃ status stored,
       requested status ∧ GetKey m keyID status = Ok stored ∧
       Principal_CanAccess principal (k_ACL stored) Read = true ∧
       key = mkKey (k_ID stored) [] (k_VersionList stored) (k_VersionHash stored)
               (k_Path stored)) ∧
  (∀ status stored,
     requested status → GetKey m keyID status = Ok stored →
     Principal_CanAccess principal (k_ACL stored) Read = false →
     getKeyHandler m principal parameters = APIError (errF UnauthorizedCode "")) ∧
  (∀ status,
     requested status → GetKey m keyID status = Err ErrKeyIDNotFound →
     getKeyHandler m principal parameters = APIError (errF KeyIdentifierDoesNotExistCode "")) ∧
  (∀ statusStr,
     parameters !! "status"%string = Some statusStr →
     (∀ status, VersionStatus_UnmarshalJSON statusStr ≠ Ok status) →
     getKeyHandler m principal parameters
     = APIError (errF BadRequestDataCode "json: Invalid VersionStatus to convert")).
Proof.
  cbv zeta. unfold getKeyHandler. cbv zeta.
  destruct (parameters !! "status"%string) as [statusStr|] eqn:Hs.
  - split; [|split; [|split]].
    + intros key. destruct (VersionStatus_UnmarshalJSON statusStr) as [status|x|w]; [|done..].
      destruct (GetKey m _ status) as [stored|x|w] eqn:HG;
        [|by destruct x|done].
      destruct (Principal_CanAccess principal (k_ACL stored) Read) eqn:Hc; [|done].
      intros [= <-]. by exists status, stored.
    + intros status stored -> HG Hc. by rewrite HG, Hc.
    + intros status -> HG. by rewrite HG.
    + intros s [= <-] Hbad. unfold VersionStatus_UnmarshalJSON in *.
      repeat (case_Seqb; [by edestruct Hbad|]). done.
  - split; [|split; [|split]].
    + intros key. destruct (GetKey m _ Active) as [stored|x|w] eqn:HG;
        [|by destruct x|done].
      destruct (Principal_CanAccess principal (k_ACL stored) Read) eqn:Hc; [|done].
      intros [= <-]. by exists Active, stored.
    + intros status stored -> HG Hc. by rewrite HG, Hc.
    + intros status -> HG. by rewrite HG.
    + done.
Qed.

(** X28. [deleteKeyHandler] deletes for administrators only: the DB is
    changed only when the principal has Admin access by the stored ACL of
    the key, and then the first stored key with the id is removed and the
    handler returns no error; a principal without Admin access gets
    [UnauthorizedCode] and the DB is left as it was, as it is when the id is
    not stored ([KeyIdentifierDoesNotExistCode]). *)
Theorem deleteKeyHandler_authorizes (m : keyManager) (principal : Principal)
    (parameters : gmap string string) :
  let keyID := default ""%string (parameters !! "keyID"%string) in
  (∀ r db', deleteKeyHandler m principal parameters = (r, db') → db' ≠ db m →
     ∃ stored, GetKey m keyID Primary = Ok stored ∧
               Principal_CanAccess principal (k_ACL stored) Admin = true ∧
               r = Data tt ∧ TempDB_Remove (db m) keyID = (Ok tt, db')) ∧
  (∀ stored, GetKey m keyID Primary = Ok stored →
     Principal_CanAccess principal (k_ACL stored) Admin = true →
     ∃ db', deleteKeyHandler m principal parameters = (Data tt, db') ∧
            TempDB_Remove (db m) keyID = (Ok tt, db')) ∧
  (∀ stored, GetKey m keyID Primary = Ok stored →
     Principal_CanAccess principal (k_ACL stored) Admin = false →
     deleteKeyHandler m principal parameters = (APIError (errF UnauthorizedCode ""), db m)) ∧
  (GetKey m keyID Primary = Err ErrKeyIDNotFound →
     deleteKeyHandler m principal parameters
     = (APIError (errF KeyIdentifierDoesNotExistCode ""), db m)).
Proof.
  cbv zeta. unfold deleteKeyHandler, DeleteKey. cbv zeta.
  set (keyID := default ""%string (parameters !! "keyID"%string)).
  split; [|split; [|split]].
  - intros r db'. destruct (GetKey m keyID Primary) as [stored|x|w] eqn:HG;
      [|by intros [= _ <-]..].
    destruct (Principal_CanAccess principal (k_ACL stored) Admin) eqn:Hc; simpl;
      [|by intros [= _ <-]].
    destruct (TempDB_Remove (db m) keyID) as [[[]|x|w] db1] eqn:HR.
    + intros [= <- <-] _. by exists stored.
    + apply TempDB_Remove_Err in HR as ->. by intros [= _ <-].
    + by apply TempDB_Remove_no_Panic in HR.
  - intros stored HG Hc. rewrite HG, Hc. simpl.
    assert (Hin : keyID ∈ stored_ids (db m)).
    { unfold GetKey in HG.
      destruct (TempDB_Get (db m) keyID) as [encK|x|w] eqn:HGet; [|done..].
      pose proof (TempDB_Get_ID _ _ _ HGet) as <-.
      apply TempDB_Get_first in HGet as (_ & i & (Hl & _ & _)).
      unfold stored_ids. apply list_elem_of_fmap_2. by eapply list_elem_of_lookup_2. }
    assert (Herr : err (db m) = None).
    { unfold GetKey, TempDB_Get in HG. by destruct (err (db m)). }
    destruct (TempDB_Remove_spec (db m) keyID Herr) as [_ H].
    destruct (H Hin) as (db' & -> & _). by exists db'.
  - intros stored HG Hc. by rewrite HG, Hc.
  - intros HG. by rewrite HG.
Qed.

End HandlerFacts.

(** ** Moving the keys to another DB and cryptor *)

Section MoveKeyDataFacts.
Context {C : Crypto} {Laws : CryptoLaws C}.

Lemma moveKeyData_range_spec sCrypt dCrypt (l : list DBKey) : ∀ e newDBKeys e',
  moveKeyData_range sCrypt dCrypt l e = (Ok newDBKeys, e') →
  Forall2 (λ src dst, ∃ k, Decrypt sCrypt src = Ok k ∧ Decrypt dCrypt dst = Ok k) l newDBKeys.
Proof.
  induction l as [|dbk l IH]; intros e new e'; simpl.
  - intros [= <- <-]. constructor.
  - destruct (Decrypt sCrypt dbk) as [k|x|w] eqn:HD; try (intros [=]; fail).
    destruct (Encrypt dCrypt k e) as [[newDBK|x|w] e1] eqn:HE; try (intros [=]; fail).
    destruct (moveKeyData_range sCrypt dCrypt l e1) as [[new'|x|w] e2] eqn:HR;
      try (intros [=]; fail).
    intros [= <- <-]. constructor; [|by eapply IH].
    exists k. split; [done|].
    destruct (Encrypt_Decrypt_lawful dCrypt k e) as [Hfields _].
    destruct (Hfields newDBK e1 HE) as (_ & Hpath & _).
    apply Hpath. by destruct (Decrypt_fields _ _ _ HD) as (_ & _ & _ & _ & ?).
Qed.

Lemma Forall2_imap_stamp (P : DBKey → DBKey → Prop) (now : nat → Z) (l new : list DBKey) :
  (∀ src dst t, P src dst → P src (set_DBVersion t dst)) →
  Forall2 P l new →
  ∀ i, Forall2 P l (imap (λ j key, set_DBVersion (now (i + j)%nat) key) new).
Proof.
  intros HP. induction 1 as [|src dst l new Hh Ht IH]; intros i; simpl; [constructor|].
  constructor; [by apply HP|].
  rewrite (imap_ext _ (λ j key, set_DBVersion (now (S i + j)%nat) key)); [apply IH|].
  intros j k _. simpl. do 2 f_equal. lia.
Qed.

(** X29. [moveKeyData] moves every key or none, and keeps what the keys
    hold: when it fails - a source key that does not decrypt under the
    source cryptor, an encryption that fails, an id the destination holds
    already, an error of either DB - the destination DB is left as it was;
    when it succeeds, the destination holds its old keys followed by one
    key for each key of the source, in order, and each of them decrypts
    under the destination cryptor to exactly the key that the source key
    decrypts to under the source cryptor. *)
Theorem moveKeyData_keeps_keys (sDB dDB dDB' : TempDB) (sCrypt dCrypt : aesGCMCryptor)
    (e e' : entropy) (now : nat → Z) (r : result unit) :
  moveKeyData sDB sCrypt dDB dCrypt e now = (r, dDB', e') →
  (r ≠ Ok tt → dDB' = dDB) ∧
  (r = Ok tt →
     ∃ newDBKeys,
       keys dDB' = keys dDB ++ newDBKeys ∧
       Forall2 (λ src dst, ∃ k, Decrypt sCrypt src = Ok k ∧ Decrypt dCrypt dst = Ok k)
         (keys sDB) newDBKeys).
Proof.
  unfold moveKeyData, TempDB_GetAll.
  destruct (err sDB) as [x|]; [by intros [= <- <- <-]|].
  destruct (moveKeyData_range sCrypt dCrypt (keys sDB) e) as [[new|x|w] e1] eqn:HR;
    [|by intros [= <- <- <-]..].
  unfold TempDB_Add. destruct (err dDB) as [x|] eqn:Herr; [by intros [= <- <- <-]|].
  destruct (TempDB_Add_exists (keys dDB) new); [by intros [= <- <- <-]|].
  intros [= <- <- <-]. split; [done|]. intros _. simpl.
  rewrite TempDB_Add_append_spec. eexists. split; [done|].
  apply (Forall2_imap_stamp _ now).
  - intros src dst t (k & H1 & H2). exists k. split; [done|].
    by rewrite Decrypt_set_DBVersion.
  - by eapply moveKeyData_range_spec.
Qed.

End MoveKeyDataFacts.

Lemma triple_eta {A B D : Type} (x : A * B * D) : x = (x.1.1, x.1.2, x.2).
Proof. by destruct x as [[? ?] ?]. Qed.

Lemma moveKeyData_keeps_keys_witness :
  let dCrypt := mkCryptor (string_bytes "testtesttesttest") 1 in
  let dDB := mkTempDB [] None in
  let out := moveKeyData (C := AESGCM.crypto) Sample.db0 Sample.cryptor0 dDB dCrypt
               Sample.tape0 (λ _, 5) in
  out.1.1 = Ok tt ∧
  ∃ newDBKeys,
    keys out.1.2 = keys dDB ++ newDBKeys ∧
    Forall2 (λ src dst, ∃ k, Decrypt (C := AESGCM.crypto) Sample.cryptor0 src = Ok k ∧
                             Decrypt (C := AESGCM.crypto) dCrypt dst = Ok k)
      (keys Sample.db0) newDBKeys.
Proof.
  intros dCrypt dDB out.
  assert (Hr : out.1.1 = Ok tt) by (vm_compute; reflexivity).
  split; [exact Hr|].
  destruct (moveKeyData_keeps_keys (C := AESGCM.crypto) (Laws := AESGCM_laws)
              Sample.db0 dDB out.1.2 Sample.cryptor0 dCrypt Sample.tape0 out.2 (λ _, 5)
              out.1.1 (triple_eta out)) as [_ H2].
  exact (H2 Hr).
Defined.

(** ** The file client *)

Lemma setValues_fold (ks : KeyVersionList) (active : list (list Z)) :
  fold_left (λ active kv, active ++ [kv_Data kv]) ks active = active ++ map kv_Data ks.
Proof.
  revert active. induction ks as [|kv ks IH]; intros active; simpl.
  - by rewrite app_nil_r.
  - by rewrite IH, <- app_assoc.
Qed.

(** X30. [fileClient.setValues] keeps the data of the Primary version as
    the primary value, and builds the active list by appending the data of
    the Active and Primary versions to a list that already has one empty
    string for each of them: [GetActive] of the client returns twice as
    many strings as there are versions in use, the first half of them
    empty.  On a key without a Primary version [setValues] panics. *)
Theorem setValues_active (c : fileClient) (key : Key) :
  (GetPrimary (k_VersionList key) = None →
     setValues c key = Panic "invalid memory address or nil pointer dereference") ∧
  (∀ p, GetPrimary (k_VersionList key) = Some p →
     ∃ c', setValues c key = Ok c' ∧
       fileClient_GetPrimary c' = kv_Data p ∧
       fileClient_GetActive c'
       = repeat [] (length (GetActive (k_VersionList key)))
         ++ map kv_Data (GetActive (k_VersionList key)) ∧
       length (fileClient_GetActive c') = (2 * length (GetActive (k_VersionList key)))%nat).
Proof.
  unfold setValues. split.
  - by intros ->.
  - intros p ->. eexists. split; [done|]. simpl. rewrite setValues_fold.
    split; [done|]. split; [done|].
    rewrite length_app, repeat_length, length_map. lia.
Qed.
